(** * The unconfirmed-transaction pool of src/txmempool.cpp

    A shallow embedding of [CTxMemPoolEntry], [CBlockAverage], [CTxMemPool]
    and [CCoinsViewMemPool], followed by the properties of the pool that the
    specification states and by further properties of the code.

    Conventions.  [unsigned int] and [uint64_t] counters are integers with
    their wrap-around written out ([wrap32], [wrap64]); [int64_t] quantities
    ([CAmount], times) are integers, signed overflow being undefined in the
    source, but for the product in [AreSane], which is the one a comparison
    depends on and wraps around as it does in the compiled code ([int64]);
    [double] is the kernel's binary64 [float]; [std::map] is [gmap];
    [std::vector], [std::list] and [std::deque] are lists. *)

From Stdlib Require Import ZArith Floats.
From stdpp Require Import gmap list fin_maps strings sorting.

Local Open Scope Z_scope.

(** ** Machine integers and doubles *)

Definition wrap32 (z : Z) : Z := z mod 2 ^ 32.
Definition wrap64 (z : Z) : Z := z mod 2 ^ 64.

(** The value an [int64_t] holds of a result [z]: [z] itself when it fits;
    one that does not fit wraps around in the compiled code (the source
    leaves signed overflow undefined). *)
Definition int64 (z : Z) : Z := (z + 2 ^ 63) mod 2 ^ 64 - 2 ^ 63.

(** Conversion of an integer to [double]: the nearest binary64 value, ties
    to even, as the hardware conversion does. *)
Definition Z2double (z : Z) : float :=
  SF2Prim (binary_normalize prec emax z 0 false).

(** ** Transactions

    Modelled from the spec: the types of primitives/transaction.h, which is
    outside the sources at hand.  An outpoint is a transaction identifier
    and an output index; of [CTxIn] and [CTxOut] the model keeps the members
    the pool reads; a [CTransaction] carries its cached hash, which
    [GetHash] returns and on which [operator!=] compares.  [uint256]
    identifiers are natural numbers. *)

Abbreviation uint256 := N (only parsing).
Abbreviation CAmount := Z (only parsing).

Record COutPoint := mkOutPoint { op_hash : uint256; op_n : nat }.
Record CTxIn := mkTxIn { prevout : COutPoint }.
Record CTxOut := mkTxOut { nValue : CAmount }.
Record CTransaction := mkTx {
  tx_hash : uint256;
  vin : list CTxIn;
  vout : list CTxOut
}.

Definition GetHash (tx : CTransaction) : uint256 := tx_hash tx.
Definition tx_neq (a b : CTransaction) : bool :=
  negb (N.eqb (GetHash a) (GetHash b)).

(** Modelled from the spec: [CTransaction::GetValueOut], the "total output
    value" of a transaction, lives in primitives/transaction.cpp. *)
Definition GetValueOut (tx : CTransaction) : CAmount :=
  foldr (λ o acc, nValue o + acc) 0 (vout tx).

#[global] Instance COutPoint_eq_dec : EqDecision COutPoint.
Proof. solve_decision. Defined.
#[global] Instance COutPoint_countable : Countable COutPoint :=
  inj_countable' (λ o, (op_hash o, op_n o)) (λ p, mkOutPoint p.1 p.2)
                 (λ o, match o with mkOutPoint _ _ => eq_refl end).
#[global] Instance CTxIn_eq_dec : EqDecision CTxIn.
Proof. solve_decision. Defined.
#[global] Instance CTxOut_eq_dec : EqDecision CTxOut.
Proof. solve_decision. Defined.
#[global] Instance CTransaction_eq_dec : EqDecision CTransaction.
Proof. solve_decision. Defined.

(** ** Pool entries *)

Record CTxMemPoolEntry := mkEntry {
  tx : CTransaction;
  nFee : CAmount;
  nTxSize : Z;             (* size_t *)
  nModSize : Z;            (* size_t *)
  nTime : Z;               (* int64_t *)
  dPriority : float;
  nHeight : Z;             (* unsigned int *)
  hadNoDependencies : bool
}.

Definition GetTx (e : CTxMemPoolEntry) : CTransaction := tx e.
Definition GetTxSize (e : CTxMemPoolEntry) : Z := nTxSize e.

(** [CTxMemPoolEntry::GetPriority].  [currentHeight - nHeight] is computed
    in [unsigned int] before the conversion to [double]. *)
Definition GetPriority (e : CTxMemPoolEntry) (currentHeight : Z) : float :=
  let nValueIn := GetValueOut (tx e) + nFee e in
  let deltaPriority :=
    (Z2double (wrap32 (currentHeight - nHeight e)) * Z2double nValueIn
     / Z2double (nModSize e))%float in
  (dPriority e + deltaPriority)%float.

(** ** The pool *)

(** A [CInPoint] holds a pointer to the transaction inside a node of
    [mapTx] and an input index.  A node of [std::map] stays where it is
    until it is erased, and an assignment to [mapTx[hash]] of a resident
    [hash] writes into its node: the pointer is the key of the node, and
    reading through it is a lookup, which fails once the node has been
    erased.  (A node created anew under the key of an erased one would be
    read here, where the source reads freed memory; no pool below gets
    there.) *)
Record CInPoint := mkInPoint { ptx : uint256; ip_n : nat }.

#[global] Instance CInPoint_eq_dec : EqDecision CInPoint.
Proof. solve_decision. Defined.

(** What the pool calls on [minerPolicyEstimator], a collaborator outside
    the sources at hand: the calls are recorded in order. *)
Inductive EstimatorCall :=
| processTransaction (entry : CTxMemPoolEntry) (fCurrentEstimate : bool)
| removeTx (hash : uint256)
| processBlock (nBlockHeight : Z) (entries : list CTxMemPoolEntry)
               (fCurrentEstimate : bool).

(** Modelled from the spec: [CFeeRate] of amount.h, a fee rate as its
    integer scalar of satoshis per kilobyte, which [GetFeePerK] returns and
    on which fee rates compare. *)
Record CFeeRate := mkFeeRate { nSatoshisPerK : CAmount }.
Definition GetFeePerK (f : CFeeRate) : CAmount := nSatoshisPerK f.

Record CTxMemPool := mkPool {
  mapTx : gmap N CTxMemPoolEntry;
  mapNextTx : gmap COutPoint CInPoint;
  mapDeltas : gmap N (float * Z);
  nTransactionsUpdated : Z;        (* unsigned int *)
  totalTxSize : Z;                 (* uint64_t *)
  minerPolicyEstimator : list EstimatorCall;
  minRelayFee : CFeeRate;
  rollingMinimumFeeRate : float;   (* mutable *)
  lastRollingFeeUpdate : Z         (* mutable int64_t *)
}.

(** The constructor assigns [nTransactionsUpdated], [minRelayFee] and
    [minerPolicyEstimator], and the maps are built empty.  [totalTxSize]
    and the two [mutable] members it does not assign: they keep what the
    storage of the object held, whatever that was. *)
Record unassigned := mkUnassigned {
  held_totalTxSize : Z;
  held_rollingMinimumFeeRate : float;
  held_lastRollingFeeUpdate : Z
}.

Definition CTxMemPool_new (_minRelayFee : CFeeRate) (held : unassigned)
  : CTxMemPool :=
  {| mapTx := ∅; mapNextTx := ∅; mapDeltas := ∅;
     nTransactionsUpdated := 0; totalTxSize := held_totalTxSize held;
     minerPolicyEstimator := [];
     minRelayFee := _minRelayFee;
     rollingMinimumFeeRate := held_rollingMinimumFeeRate held;
     lastRollingFeeUpdate := held_lastRollingFeeUpdate held |}.

Definition set_maps (p : CTxMemPool) (m : gmap N CTxMemPoolEntry)
    (nx : gmap COutPoint CInPoint) (upd tot : Z) (est : list EstimatorCall)
  : CTxMemPool :=
  {| mapTx := m; mapNextTx := nx; mapDeltas := mapDeltas p;
     nTransactionsUpdated := upd; totalTxSize := tot;
     minerPolicyEstimator := est;
     minRelayFee := minRelayFee p;
     rollingMinimumFeeRate := rollingMinimumFeeRate p;
     lastRollingFeeUpdate := lastRollingFeeUpdate p |}.

Definition exists_ (p : CTxMemPool) (hash : uint256) : bool :=
  bool_decide (is_Some (mapTx p !! hash)).

(** The loop of [addUnchecked] over the inputs:
    [mapNextTx[tx.vin[i].prevout] = CInPoint(&tx, i)] for [i] from [i0]. *)
Fixpoint index_inputs (hash : uint256) (i0 : nat) (ins : list CTxIn)
    (nx : gmap COutPoint CInPoint) : gmap COutPoint CInPoint :=
  match ins with
  | [] => nx
  | txin :: rest =>
      index_inputs hash (S i0) rest (<[prevout txin := mkInPoint hash i0]> nx)
  end.

Definition addUnchecked (p : CTxMemPool) (hash : uint256)
    (entry : CTxMemPoolEntry) (fCurrentEstimate : bool) : bool * CTxMemPool :=
  let m := <[hash := entry]> (mapTx p) in
  let nx := index_inputs hash 0 (vin (GetTx entry)) (mapNextTx p) in
  (true,
   set_maps p m nx
     (wrap32 (nTransactionsUpdated p + 1))
     (wrap64 (totalTxSize p + GetTxSize entry))
     (minerPolicyEstimator p ++ [processTransaction entry fCurrentEstimate])).

Definition HasNoInputsOf (p : CTxMemPool) (t : CTransaction) : bool :=
  forallb (λ txin, negb (exists_ p (op_hash (prevout txin)))) (vin t).

(** ** Removal

    Outcomes of the removal functions: a result, a read through a pointer
    whose node is gone (undefined in the source), or exhausted fuel. *)
Inductive result (A : Type) :=
| Done (a : A)
| Undefined
| Timeout.
Arguments Done {A} a.
Arguments Undefined {A}.
Arguments Timeout {A}.

#[global] Instance result_bind : MBind result := λ A B k r,
  match r with
  | Done a => k a
  | Undefined => Undefined
  | Timeout => Timeout
  end.
#[global] Instance result_ret : MRet result := λ A a, Done a.

(** [it->second.ptx->GetHash()] *)
Definition deref_hash (p : CTxMemPool) (ip : CInPoint) : result uint256 :=
  match mapTx p !! ptx ip with
  | Some e => Done (GetHash (GetTx e))
  | None => Undefined
  end.

(** The loops of [remove] over the outputs [COutPoint(hash, i)], for the
    indices [idxs]: the hashes pushed onto [txToRemove], in order. *)
Fixpoint spenders (p : CTxMemPool) (hash : uint256) (idxs : list nat)
  : result (list uint256) :=
  match idxs with
  | [] => Done []
  | i :: rest =>
      match mapNextTx p !! mkOutPoint hash i with
      | None => spenders p hash rest
      | Some ip =>
          h ← deref_hash p ip;
          hs ← spenders p hash rest;
          Done (h :: hs)
      end
  end.

(** [BOOST_FOREACH (txin, tx.vin) mapNextTx.erase(txin.prevout)] *)
Definition erase_inputs (ins : list CTxIn) (nx : gmap COutPoint CInPoint)
  : gmap COutPoint CInPoint :=
  foldl (λ m txin, delete (prevout txin) m) nx ins.

(** The tail of one iteration of the [while] loop, for a resident [hash]. *)
Definition erase_entry (p : CTxMemPool) (hash : uint256)
    (e : CTxMemPoolEntry) : CTxMemPool :=
  set_maps p (delete hash (mapTx p))
    (erase_inputs (vin (GetTx e)) (mapNextTx p))
    (wrap32 (nTransactionsUpdated p + 1))
    (wrap64 (totalTxSize p - GetTxSize e))
    (minerPolicyEstimator p ++ [removeTx hash]).

Fixpoint remove_loop (fuel : nat) (fRecursive : bool)
    (txToRemove : list uint256) (p : CTxMemPool) (removed : list CTransaction)
  {struct fuel} : result (CTxMemPool * list CTransaction) :=
  match txToRemove with
  | [] => Done (p, removed)
  | hash :: rest =>
      match fuel with
      | O => Timeout
      | S fuel' =>
          match mapTx p !! hash with
          | None => remove_loop fuel' fRecursive rest p removed
          | Some e =>
              let t := GetTx e in
              children ←
                (if fRecursive then spenders p hash (seq 0 (length (vout t)))
                 else Done []);
              remove_loop fuel' fRecursive (rest ++ children)
                          (erase_entry p hash e) (removed ++ [t])
          end
      end
  end.

(** Every iteration pops one hash; one that erases an entry pushes at most
    as many hashes as the entry has outputs. *)
Definition loop_weight (m : gmap N CTxMemPoolEntry) : nat :=
  map_fold (λ _ e acc, S (length (vout (GetTx e))) + acc)%nat 0%nat m.

Definition remove (p : CTxMemPool) (origTx : CTransaction)
    (removed : list CTransaction) (fRecursive : bool)
  : result (CTxMemPool * list CTransaction) :=
  let hash := GetHash origTx in
  children ←
    (if fRecursive && negb (exists_ p hash)
     then spenders p hash (seq 0 (length (vout origTx)))
     else Done []);
  let txToRemove := hash :: children in
  remove_loop (length txToRemove + loop_weight (mapTx p)) fRecursive
              txToRemove p removed.

(** [removeConflicts]: the loop over [tx.vin]; [ins] is what is left of it. *)
Fixpoint removeConflicts_loop (ins : list CTxIn) (t : CTransaction)
    (p : CTxMemPool) (removed : list CTransaction)
  : result (CTxMemPool * list CTransaction) :=
  match ins with
  | [] => Done (p, removed)
  | txin :: rest =>
      match mapNextTx p !! prevout txin with
      | None => removeConflicts_loop rest t p removed
      | Some ip =>
          match mapTx p !! ptx ip with
          | None => Undefined
          | Some e =>
              let txConflict := GetTx e in
              if tx_neq txConflict t then
                '(p', removed') ← remove p txConflict removed true;
                removeConflicts_loop rest t p' removed'
              else removeConflicts_loop rest t p removed
          end
      end
  end.

Definition removeConflicts (p : CTxMemPool) (t : CTransaction)
    (removed : list CTransaction) : result (CTxMemPool * list CTransaction) :=
  removeConflicts_loop (vin t) t p removed.

Definition set_deltas (p : CTxMemPool) (d : gmap N (float * Z)) : CTxMemPool :=
  {| mapTx := mapTx p; mapNextTx := mapNextTx p; mapDeltas := d;
     nTransactionsUpdated := nTransactionsUpdated p;
     totalTxSize := totalTxSize p;
     minerPolicyEstimator := minerPolicyEstimator p;
     minRelayFee := minRelayFee p;
     rollingMinimumFeeRate := rollingMinimumFeeRate p;
     lastRollingFeeUpdate := lastRollingFeeUpdate p |}.

Definition PrioritiseTransaction (p : CTxMemPool) (hash : uint256)
    (dPriorityDelta : float) (nFeeDelta : CAmount) : CTxMemPool :=
  let deltas := default (0%float, 0) (mapDeltas p !! hash) in
  set_deltas p
    (<[hash := ((deltas.1 + dPriorityDelta)%float, deltas.2 + nFeeDelta)]>
       (mapDeltas p)).

(** [ApplyDeltas] updates its two reference arguments: their new values. *)
Definition ApplyDeltas (p : CTxMemPool) (hash : uint256)
    (dPriorityDelta : float) (nFeeDelta : CAmount) : float * CAmount :=
  match mapDeltas p !! hash with
  | None => (dPriorityDelta, nFeeDelta)
  | Some deltas =>
      ((dPriorityDelta + deltas.1)%float, nFeeDelta + deltas.2)
  end.

Definition ClearPrioritisation (p : CTxMemPool) (hash : uint256) : CTxMemPool :=
  set_deltas p (delete hash (mapDeltas p)).

(** [removeForBlock]: the second loop over [vtx]. *)
Fixpoint removeForBlock_loop (vtx : list CTransaction) (p : CTxMemPool)
    (conflicts : list CTransaction)
  : result (CTxMemPool * list CTransaction) :=
  match vtx with
  | [] => Done (p, conflicts)
  | t :: rest =>
      '(p1, _) ← remove p t [] false;
      '(p2, conflicts') ← removeConflicts p1 t conflicts;
      removeForBlock_loop rest (ClearPrioritisation p2 (GetHash t)) conflicts'
  end.

Definition removeForBlock (p : CTxMemPool) (vtx : list CTransaction)
    (nBlockHeight : Z) (conflicts : list CTransaction)
    (fCurrentEstimate : bool) : result (CTxMemPool * list CTransaction) :=
  let entries := omap (λ t, mapTx p !! GetHash t) vtx in
  '(p', conflicts') ← removeForBlock_loop vtx p conflicts;
  Done (set_maps p' (mapTx p') (mapNextTx p') (nTransactionsUpdated p')
          (totalTxSize p')
          (minerPolicyEstimator p'
             ++ [processBlock nBlockHeight entries fCurrentEstimate]),
        conflicts').

Definition clear (p : CTxMemPool) : CTxMemPool :=
  set_maps p ∅ ∅ (wrap32 (nTransactionsUpdated p + 1)) 0
           (minerPolicyEstimator p).

(** [lookup] returns whether [hash] is resident and, if so, writes the
    transaction to its reference argument: an optional transaction. *)
Definition lookup (p : CTxMemPool) (hash : uint256) : option CTransaction :=
  match mapTx p !! hash with
  | None => None
  | Some e => Some (GetTx e)
  end.

(** ** Iteration over the maps

    A [std::map] keeps its elements in the order of their keys.  Hashes
    compare by [operator<] of uint256.h, for which the order of the numbers
    stands.  Outside the sources at hand: [operator<] of [COutPoint]
    (primitives/transaction.h), which compares the hashes first and, these
    equal, the output indices; the loop of [pruneSpent] relies on it. *)
Definition COutPoint_le (a b : COutPoint) : Prop :=
  (op_hash a < op_hash b)%N ∨ (op_hash a = op_hash b ∧ (op_n a ≤ op_n b)%nat).

#[global] Instance COutPoint_le_dec a b : Decision (COutPoint_le a b).
Proof. unfold COutPoint_le. apply _. Defined.

(** The elements of a map from its [begin()] to its [end()]. *)
Definition in_key_order {K V} `{Countable K} (le : relation K)
    `{∀ a b, Decision (le a b)} (m : gmap K V) : list (K * V) :=
  merge_sort (λ a b, le a.1 b.1) (map_to_list m).

Definition mapTx_items (p : CTxMemPool) : list (N * CTxMemPoolEntry) :=
  in_key_order N.le (mapTx p).
Definition mapNextTx_items (p : CTxMemPool) : list (COutPoint * CInPoint) :=
  in_key_order COutPoint_le (mapNextTx p).

(** [queryHashes] clears [vtxid] and fills it with the keys of [mapTx]:
    the new value of [vtxid]. *)
Definition queryHashes (p : CTxMemPool) (vtxid : list uint256) : list uint256 :=
  (mapTx_items p).*1.

(** ** Outputs spent by the pool *)

(** [mapNextTx.lower_bound(k)]: what is left of the map from its first
    element whose key is not below [k]. *)
Fixpoint lower_bound (k : COutPoint) (it : list (COutPoint * CInPoint))
  : list (COutPoint * CInPoint) :=
  match it with
  | [] => []
  | x :: rest => if decide (COutPoint_le k x.1) then it else lower_bound k rest
  end.

Section PruneSpent.
(** Outside the sources at hand: the coins of a transaction (coins.h) and
    their [Spend(n)], of which the coins afterwards are kept. *)
Variable CCoins : Type.
Variable Spend : CCoins → nat → CCoins.

(** The [while] loop of [pruneSpent], from the iterator [it]. *)
Fixpoint pruneSpent_loop (hashTx : uint256) (it : list (COutPoint * CInPoint))
    (coins : CCoins) : CCoins :=
  match it with
  | [] => coins
  | x :: rest =>
      if decide (op_hash x.1 = hashTx)
      then pruneSpent_loop hashTx rest (Spend coins (op_n x.1))
      else coins
  end.

(** [pruneSpent] updates its reference argument [coins]: its new value. *)
Definition pruneSpent (p : CTxMemPool) (hashTx : uint256) (coins : CCoins)
  : CCoins :=
  pruneSpent_loop hashTx
    (lower_bound (mkOutPoint hashTx 0) (mapNextTx_items p)) coins.
End PruneSpent.

(** ** Spends of rewards that are not mature *)

(** Conversion of an [unsigned int] to [int]. *)
Definition int32 (z : Z) : Z := (z + 2 ^ 31) mod 2 ^ 32 - 2 ^ 31.

(** [assert(e)] ends the process when [e] does not hold. *)
Inductive asserted (A : Type) :=
| Passed (a : A)
| AssertionFailed.
Arguments Passed {A} a.
Arguments AssertionFailed {A}.

Section CoinbaseSpends.
(** Outside the sources at hand: the view of the confirmed coins with its
    [AccessCoins], which gives no coins for some hashes; of the coins,
    whether they are a block reward or a stake reward, and their height;
    the maturity of the chain parameters; and the flag [fSanityCheck] of
    the pool, which the constructor clears and txmempool.h lets be set. *)
Variable CCoins : Type.
Variable AccessCoins : uint256 → option CCoins.
Variable IsCoinBase IsCoinStake : CCoins → bool.
Variable coins_nHeight : CCoins → Z.        (* int *)
Variable COINBASE_MATURITY : Z.
Variable fSanityCheck : bool.

(** The loop over the inputs of one transaction: whether the transaction
    goes onto [transactionsToRemove]. *)
Fixpoint scan_inputs (p : CTxMemPool) (nMemPoolHeight : Z) (ins : list CTxIn)
  : asserted bool :=
  match ins with
  | [] => Passed false
  | txin :: rest =>
      if exists_ p (op_hash (prevout txin))
      then scan_inputs p nMemPoolHeight rest
      else
        let coins := AccessCoins (op_hash (prevout txin)) in
        if fSanityCheck && negb (bool_decide (is_Some coins))
        then AssertionFailed
        else
          match coins with
          | None => Passed true
          | Some c =>
              if (IsCoinBase c || IsCoinStake c)
                 && (int32 (wrap32 (nMemPoolHeight - coins_nHeight c))
                     <? COINBASE_MATURITY)
              then Passed true
              else scan_inputs p nMemPoolHeight rest
          end
  end.

(** The loop over [mapTx]: [transactionsToRemove]. *)
Fixpoint scan_pool (p : CTxMemPool) (nMemPoolHeight : Z)
    (it : list (N * CTxMemPoolEntry)) : asserted (list CTransaction) :=
  match it with
  | [] => Passed []
  | x :: rest =>
      match scan_inputs p nMemPoolHeight (vin (GetTx x.2)) with
      | AssertionFailed => AssertionFailed
      | Passed found =>
          match scan_pool p nMemPoolHeight rest with
          | AssertionFailed => AssertionFailed
          | Passed transactionsToRemove =>
              Passed (if found then GetTx x.2 :: transactionsToRemove
                      else transactionsToRemove)
          end
      end
  end.

(** The loop over [transactionsToRemove]. *)
Fixpoint remove_each (transactionsToRemove : list CTransaction)
    (p : CTxMemPool) : result CTxMemPool :=
  match transactionsToRemove with
  | [] => Done p
  | t :: rest => '(p', _) ← remove p t [] true; remove_each rest p'
  end.

Definition removeCoinbaseSpends (p : CTxMemPool) (nMemPoolHeight : Z)
  : asserted (result CTxMemPool) :=
  match scan_pool p nMemPoolHeight (mapTx_items p) with
  | AssertionFailed => AssertionFailed
  | Passed transactionsToRemove => Passed (remove_each transactionsToRemove p)
  end.

End CoinbaseSpends.

(** ** The decaying fee floor *)

(** Conversion of a [double] to [CAmount], as [CFeeRate(double)] needs it:
    truncation towards zero.  On a value that is not a number or does not
    fit, where the language leaves the conversion undefined, it is what the
    hardware conversion gives. *)
Definition double2amount (d : float) : CAmount :=
  let indefinite := - 2 ^ 63 in
  match Prim2SF d with
  | S754_zero _ => 0
  | S754_finite s m e =>
      let v := if 0 <=? e then Z.pos m * 2 ^ e else Z.pos m / 2 ^ (- e) in
      let v := if s then - v else v in
      if (- 2 ^ 63 <=? v) && (v <? 2 ^ 63) then v else indefinite
  | S754_infinity _ | S754_nan => indefinite
  end.

Definition CFeeRate_max (a b : CFeeRate) : CFeeRate :=
  if GetFeePerK a <? GetFeePerK b then b else a.

Definition set_rolling (p : CTxMemPool) (r : float) (t : Z) : CTxMemPool :=
  {| mapTx := mapTx p; mapNextTx := mapNextTx p; mapDeltas := mapDeltas p;
     nTransactionsUpdated := nTransactionsUpdated p;
     totalTxSize := totalTxSize p;
     minerPolicyEstimator := minerPolicyEstimator p;
     minRelayFee := minRelayFee p;
     rollingMinimumFeeRate := r;
     lastRollingFeeUpdate := t |}.

Section MinFee.
(** Outside the sources at hand: the constant of txmempool.h, the
    library's [pow], and the allocator's accounting of memusage.h behind
    [DynamicMemoryUsage]. *)
Variable ROLLING_FEE_HALFLIFE : Z.
Variable pow : float → float → float.
Variable DynamicMemoryUsage : CTxMemPool → Z.

(** The floor as [GetMinFee] recomputes it at the moment [time]: halved
    once per half-life, the half-life shorter when little memory is used. *)
Definition decayed_rate (p : CTxMemPool) (time : Z) (sizelimit : Z) : float :=
  let halflife := Z2double ROLLING_FEE_HALFLIFE in
  let halflife :=
    if DynamicMemoryUsage p <? sizelimit / 4 then (halflife / 4)%float
    else if DynamicMemoryUsage p <? sizelimit / 2 then (halflife / 2)%float
    else halflife in
  (rollingMinimumFeeRate p
   / pow 2 (Z2double (time - lastRollingFeeUpdate p) / halflife))%float.

(** [GetMinFee], at the moment [time = GetTime()].  It is [const] but
    updates the two [mutable] members: the pool is returned with the fee. *)
Definition GetMinFee (p : CTxMemPool) (time : Z) (sizelimit : Z)
  : CFeeRate * CTxMemPool :=
  if (rollingMinimumFeeRate p =? 0)%float then
    (mkFeeRate (double2amount (rollingMinimumFeeRate p)), p)
  else if lastRollingFeeUpdate p + 10 <? time then
    let r := decayed_rate p time sizelimit in
    if (r <? Z2double (GetFeePerK (minRelayFee p) ÷ 2))%float then
      (mkFeeRate 0, set_rolling p 0 time)
    else
      (CFeeRate_max (mkFeeRate (double2amount r)) (minRelayFee p),
       set_rolling p r time)
  else
    (CFeeRate_max (mkFeeRate (double2amount (rollingMinimumFeeRate p)))
                  (minRelayFee p), p).
End MinFee.

(** ** The coins view over the pool *)

Section CoinsView.
(** coins.h is outside the sources at hand: the coin records, their
    construction from a transaction and a height, their pruned flag, the
    sentinel height, and the view the overlay is backed by. *)
Variable CCoins : Type.
Variable CCoins_FromTx : CTransaction → Z → CCoins.
Variable IsPruned : CCoins → bool.
Variable MEMPOOL_HEIGHT : Z.
Variable base_GetCoins : uint256 → CCoins → bool * CCoins.
Variable base_HaveCoins : uint256 → bool.

(** [GetCoins] returns its verdict and the new value of [coins]. *)
Definition GetCoins (mempool : CTxMemPool) (txid : uint256) (coins : CCoins)
  : bool * CCoins :=
  match lookup mempool txid with
  | Some t => (true, CCoins_FromTx t MEMPOOL_HEIGHT)
  | None =>
      let '(found, coins') := base_GetCoins txid coins in
      (found && negb (IsPruned coins'), coins')
  end.

Definition HaveCoins (mempool : CTxMemPool) (txid : uint256) : bool :=
  exists_ mempool txid || base_HaveCoins txid.
End CoinsView.

(** ** Fee-estimate samples and their persistence *)

(** [boost::circular_buffer<T>] of capacity [cap]: its elements, oldest
    first, never more than [cap] of them. *)
Record circular_buffer (cap : nat) (T : Type) := mkBuffer {
  cb_items : list T;
  cb_bound : (length cb_items ≤ cap)%nat
}.
Arguments mkBuffer {cap T} cb_items cb_bound.
Arguments cb_items {cap T} _.
Arguments cb_bound {cap T} _.

Definition keep_last {T} (cap : nat) (l : list T) : list T :=
  drop (length l - cap) l.

Lemma keep_last_length {T} cap (l : list T) :
  (length (keep_last cap l) ≤ cap)%nat.
Proof. unfold keep_last. rewrite length_drop. lia. Qed.

Lemma keep_last_fits {T} cap (l : list T) :
  (length l ≤ cap)%nat → keep_last cap l = l.
Proof.
  intros Hl. unfold keep_last.
  replace (length l - cap)%nat with 0%nat by lia. apply drop_0.
Qed.

Definition cb_empty {cap T} : circular_buffer cap T :=
  mkBuffer [] (Nat.le_0_l cap).

(** [insert(end(), first, last)], of which [push_back] is the case of one
    element: when the capacity is exceeded the oldest elements go. *)
Definition cb_insert_end {cap T} (b : circular_buffer cap T) (xs : list T)
  : circular_buffer cap T :=
  mkBuffer (keep_last cap (cb_items b ++ xs)) (keep_last_length _ _).

Definition cb_push_back {cap T} (b : circular_buffer cap T) (x : T)
  : circular_buffer cap T :=
  cb_insert_end b [x].

(** What the reading functions throw; both are [std::exception]s. *)
Inductive exception :=
| runtime_error (what : string)
| ios_failure.

(** The serialization framework (serialize.h, streams.h) is outside the
    sources at hand: for each type that goes through [CAutoFile], how a
    value is written and how one is read off the front of what is left of
    the file, if the bytes there allow it. *)
Class Serializer (byte T : Type) := {
  serialize : T → list byte;
  unserialize : list byte → option (T * list byte)
}.

Class SerializerLaw (byte T : Type) `{Serializer byte T} :=
  unserialize_serialize :
    ∀ (x : T) (rest : list byte),
      unserialize (serialize x ++ rest) = Some (x, rest).

Module CBlockAverage.
Section CBlockAverage.
Context {byte : Type}.
Context `{Serializer byte (list CFeeRate)} `{Serializer byte (list float)}.

Record t := mk {
  feeSamples : circular_buffer 100 CFeeRate;
  prioritySamples : circular_buffer 100 float
}.

(** [CBlockAverage()] *)
Definition new : t := mk cb_empty cb_empty.

Definition RecordFee (b : t) (feeRate : CFeeRate) : t :=
  mk (cb_push_back (feeSamples b) feeRate) (prioritySamples b).

Definition RecordPriority (b : t) (priority : float) : t :=
  mk (feeSamples b) (cb_push_back (prioritySamples b) priority).

(** [FeeSamples], [PrioritySamples] and, with the return value and the new
    value of [insertInto], [GetFeeSamples] and [GetPrioritySamples]. *)
Definition FeeSamples (b : t) : nat := length (cb_items (feeSamples b)).

Definition GetFeeSamples (b : t) (insertInto : list CFeeRate)
  : nat * list CFeeRate :=
  (length (cb_items (feeSamples b)), insertInto ++ cb_items (feeSamples b)).

Definition PrioritySamples (b : t) : nat :=
  length (cb_items (prioritySamples b)).

Definition GetPrioritySamples (b : t) (insertInto : list float)
  : nat * list float :=
  (length (cb_items (prioritySamples b)),
   insertInto ++ cb_items (prioritySamples b)).

(** [minRelayFee.GetFeePerK() * 10000] is a product of two [int64_t]. *)
Definition AreSane_fee (fee minRelayFee : CFeeRate) : bool :=
  if GetFeePerK fee <? 0 then false
  else if int64 (GetFeePerK minRelayFee * 10000) <? GetFeePerK fee then false
  else true.

Definition AreSane_fees (vecFee : list CFeeRate) (minRelayFee : CFeeRate)
  : bool :=
  forallb (λ fee, AreSane_fee fee minRelayFee) vecFee.

Definition AreSane_priority (priority : float) : bool :=
  (0 <=? priority)%float.

Definition AreSane_priorities (vecPriority : list float) : bool :=
  forallb AreSane_priority vecPriority.

(** [Write] appends to the file. *)
Definition Write (b : t) (fileout : list byte) : list byte :=
  let vecFee := cb_items (feeSamples b) in
  let fileout := fileout ++ serialize vecFee in
  let vecPriority := cb_items (prioritySamples b) in
  fileout ++ serialize vecPriority.

(** [Read]: the exception thrown, if any, the average as it is left, and
    what is left of the file. *)
Definition Read (b : t) (filein : list byte) (minRelayFee : CFeeRate)
  : option exception * t * list byte :=
  match unserialize filein with
  | None => (Some ios_failure, b, filein)
  | Some (vecFee, filein) =>
      if AreSane_fees vecFee minRelayFee then
        let b := mk (cb_insert_end (feeSamples b) vecFee)
                    (prioritySamples b) in
        match unserialize filein with
        | None => (Some ios_failure, b, filein)
        | Some (vecPriority, filein) =>
            if AreSane_priorities vecPriority then
              (None,
               mk (feeSamples b)
                  (cb_insert_end (prioritySamples b) vecPriority),
               filein)
            else
              (Some (runtime_error
                       "Corrupt priority value in estimates file."),
               b, filein)
        end
      else
        (Some (runtime_error "Corrupt fee value in estimates file."),
         b, filein)
  end.
End CBlockAverage.
End CBlockAverage.

Section FeeEstimates.
Context {byte : Type}.
Context `{Serializer byte Z}.

(** clientversion.h is outside the sources at hand. *)
Variable CLIENT_VERSION : Z.

(** Outside the sources at hand: [CBlockPolicyEstimator], of which the
    pool holds one, with its [Write] and its [Read].  Either may throw: the
    exception thrown, if any, and the file and, for [Read], the estimator
    as the call leaves them. *)
Context {CBlockPolicyEstimator : Type}.
Variable estimator_Write :
  CBlockPolicyEstimator → list byte → option exception * list byte.
Variable estimator_Read :
  CBlockPolicyEstimator → list byte
  → option exception * CBlockPolicyEstimator * list byte.

(** Outside the sources at hand: [CAutoFile::write] (streams.h), by which
    [operator<<] sends the bytes of a value to the file, and which throws
    when the file does not take them: the exception thrown, if any, and
    the file as the call leaves it. *)
Variable write : list byte → list byte → option exception * list byte.

(** [WriteFeeEstimates]: its verdict and the file as it is left.  The
    handler catches every [std::exception], and nothing else is thrown. *)
Definition WriteFeeEstimates (est : CBlockPolicyEstimator)
    (fileout : list byte) : bool * list byte :=
  match write fileout (serialize 120000) with
  | (Some _, fileout) => (false, fileout)
  | (None, fileout) =>
      match write fileout (serialize CLIENT_VERSION) with
      | (Some _, fileout) => (false, fileout)
      | (None, fileout) =>
          match estimator_Write est fileout with
          | (Some _, fileout) => (false, fileout)
          | (None, fileout) => (true, fileout)
          end
      end
  end.

(** [ReadFeeEstimates]: its verdict, the estimator as it is left, and what
    is left of the file.  The handler catches every [std::exception], and
    nothing else is thrown. *)
Definition ReadFeeEstimates (est : CBlockPolicyEstimator)
    (filein : list byte) : bool * CBlockPolicyEstimator * list byte :=
  match unserialize filein with
  | None => (false, est, filein)
  | Some (nVersionRequired, filein1) =>
      match unserialize (T := Z) filein1 with
      | None => (false, est, filein1)
      | Some (nVersionThatWrote, filein2) =>
          if CLIENT_VERSION <? nVersionRequired then (false, est, filein2)
          else
            match estimator_Read est filein2 with
            | (None, est', filein3) => (true, est', filein3)
            | (Some _, est', filein3) => (false, est', filein3)
            end
      end
  end.
End FeeEstimates.

(** ** What an estimates file holds *)

Section EstimatesFile.
Context {byte : Type}.
Context `{Serializer byte Z}.
Context `{Serializer byte (list CFeeRate)} `{Serializer byte (list float)}.


Definition decode_samples (filein : list byte)
  : option (list CFeeRate * list float * list byte) :=
  '(vecFee, filein) ← unserialize filein;
  '(vecPriority, filein) ← unserialize filein;
  Some (vecFee, vecPriority, filein).

(** A fee-rate sample is negative or above [limit]. *)
Definition fee_out_of_range (limit : CAmount) (fee : CFeeRate) : Prop :=
  GetFeePerK fee < 0 ∨ limit < GetFeePerK fee.

(** The conditions under which a set of samples is refused, with [limit]
    the highest fee rate that is taken and [bad_priority] what it takes a
    priority sample to be refused: the stream errors, or the set holds a
    fee-rate sample out of range or a bad priority sample. *)
Definition samples_refused (bad_priority : float → Prop) (limit : CAmount)
    (filein : list byte) : Prop :=
  match decode_samples filein with
  | None => True
  | Some (vecFee, vecPriority, _) =>
      Exists (fee_out_of_range limit) vecFee
      ∨ Exists bad_priority vecPriority
  end.


(** A bucket once the samples [s] read for it have been inserted. *)
Definition with_samples (b : CBlockAverage.t) (s : list CFeeRate * list float)
  : CBlockAverage.t :=
  CBlockAverage.mk (cb_insert_end (CBlockAverage.feeSamples b) s.1)
                   (cb_insert_end (CBlockAverage.prioritySamples b) s.2).
End EstimatesFile.

Definition not_nonnegative (priority : float) : Prop :=
  (0 <=? priority)%float = false.

(** The coarsest stream: a file is the sequence of the objects written to
    it, and reading takes the first one if it is of the type asked for. *)
Inductive datum :=
| DInt (z : Z)
| DFees (v : list CFeeRate)
| DDoubles (v : list float).

#[global] Instance datum_int : Serializer datum Z := {|
  serialize z := [DInt z];
  unserialize s := match s with DInt z :: rest => Some (z, rest) | _ => None end
|}.
#[global] Instance datum_fees : Serializer datum (list CFeeRate) := {|
  serialize v := [DFees v];
  unserialize s := match s with DFees v :: rest => Some (v, rest) | _ => None end
|}.
#[global] Instance datum_doubles : Serializer datum (list float) := {|
  serialize v := [DDoubles v];
  unserialize s :=
    match s with DDoubles v :: rest => Some (v, rest) | _ => None end
|}.

(** ** Priority, as the specification states it *)

(** [priorityAtAcceptance + (currentHeight - acceptanceHeight) * valueIn
    / modifiedSize] with [valueIn = totalOutputValue + fee], the difference
    of the heights being the integer it is, in [double] arithmetic. *)
Definition priorityAt (e : CTxMemPoolEntry) (currentHeight : Z) : float :=
  let valueIn := GetValueOut (tx e) + nFee e in
  (dPriority e
   + Z2double (currentHeight - nHeight e) * Z2double valueIn
     / Z2double (nModSize e))%float.

(** ** Consistency of the pool, and sequences of operations *)

(** The sum of the input counts of the resident entries. *)
Definition inputCount (m : gmap N CTxMemPoolEntry) : nat :=
  map_fold (λ _ e acc, length (vin (GetTx e)) + acc)%nat 0%nat m.

(** The spend index is exactly the union of the inputs the entries declare:
    every input of an entry has its record, which points to the entry and
    carries the index of the input, and every record is that of an input of
    the entry it points to.  [CTxMemPool::check] asserts both. *)
Record index_ok (p : CTxMemPool) : Prop := {
  entries_indexed :
    ∀ h e i txin,
      mapTx p !! h = Some e → vin (GetTx e) !! i = Some txin →
      mapNextTx p !! prevout txin = Some (mkInPoint h i);
  index_owned :
    ∀ o ip,
      mapNextTx p !! o = Some ip →
      ∃ e txin,
        mapTx p !! ptx ip = Some e ∧ vin (GetTx e) !! ip_n ip = Some txin
        ∧ prevout txin = o
}.

Definition index_counted (p : CTxMemPool) : Prop :=
  size (mapNextTx p) = inputCount (mapTx p).

(** What the specification says of the spend index: its size is the sum of
    the input counts of the resident entries, and each of its keys maps to
    the resident transaction that declares that outpoint, at that input. *)
Definition index_matches (p : CTxMemPool) : Prop :=
  size (mapNextTx p) = inputCount (mapTx p)
  ∧ ∀ o ip,
      mapNextTx p !! o = Some ip →
      ∃ e txin,
        mapTx p !! ptx ip = Some e ∧ vin (GetTx e) !! ip_n ip = Some txin
        ∧ prevout txin = o.

(** Every transaction an index record points to is stored under its own
    hash, which [CTxMemPool::check] asserts as well. *)
Definition hash_ok (p : CTxMemPool) : Prop :=
  ∀ o ip e,
    mapNextTx p !! o = Some ip → mapTx p !! ptx ip = Some e →
    GetHash (GetTx e) = ptx ip.

(** The assertions of [CTxMemPool::check] on the spend index: whether all
    of them hold.  Those of the first loop, for the inputs [ins] of the
    entry stored under [h], counted from [i]: *)
Fixpoint check_inputs (p : CTxMemPool) (h : uint256) (i : nat)
    (ins : list CTxIn) : bool :=
  match ins with
  | [] => true
  | txin :: rest =>
      match mapNextTx p !! prevout txin with
      | None => false
      | Some it3 =>
          bool_decide (ptx it3 = h) && bool_decide (ip_n it3 = i)
          && check_inputs p h (S i) rest
      end
  end.

(** those of the last loop, for the record [o ↦ ip], where reading
    through a pointer whose node is gone counts as a failure: *)
Definition check_record (p : CTxMemPool) (o : COutPoint) (ip : CInPoint)
  : bool :=
  match mapTx p !! ptx ip with
  | None => false
  | Some pointed =>
      let hash := GetHash (GetTx pointed) in
      match mapTx p !! hash with
      | None => false
      | Some _ =>
          bool_decide (hash = ptx ip)
          && bool_decide (ip_n ip < length (vin (GetTx pointed)))%nat
          && bool_decide (prevout <$> vin (GetTx pointed) !! ip_n ip = Some o)
      end
  end.

Definition check_spend_index (p : CTxMemPool) : bool :=
  forallb (λ it, check_inputs p it.1 0 (vin (GetTx it.2)))
          (map_to_list (mapTx p))
  && forallb (λ it, check_record p it.1 it.2) (map_to_list (mapNextTx p)).

(** The last assertion of [check]: [totalTxSize == checkTotal], with
    [checkTotal] the sizes of the entries added up in [uint64_t] over
    [mapTx]. *)
Definition checkTotal (p : CTxMemPool) : Z :=
  foldl (λ total it, wrap64 (total + GetTxSize it.2)) 0 (mapTx_items p).

Definition check_total (p : CTxMemPool) : bool :=
  bool_decide (totalTxSize p = checkTotal p).

Definition size_ok (p : CTxMemPool) : Prop := totalTxSize p = checkTotal p.

(** The sizes of the entries, added up as the integers they are. *)
Definition sizes (m : gmap N CTxMemPoolEntry) : Z :=
  map_fold (λ _ e acc, GetTxSize e + acc) 0 m.

Section CheckAvailable.
(** Outside the sources at hand: the view of the confirmed coins with its
    [AccessCoins], [IsAvailable] of coins.h, and [IsNull] of [CTxOut]. *)
Variable CCoins : Type.
Variable AccessCoins : uint256 → option CCoins.
Variable IsAvailable : CCoins → nat → bool.
Variable IsNull : CTxOut → bool.

(** The first assertions of [check] on an input: it names an output,
    which is not null, of a resident transaction, or coins that the view
    has and that are available. *)
Definition check_input_available (p : CTxMemPool) (txin : CTxIn) : bool :=
  match mapTx p !! op_hash (prevout txin) with
  | Some it2 =>
      match vout (GetTx it2) !! op_n (prevout txin) with
      | Some o => negb (IsNull o)
      | None => false
      end
  | None =>
      match AccessCoins (op_hash (prevout txin)) with
      | Some coins => IsAvailable coins (op_n (prevout txin))
      | None => false
      end
  end.

Definition check_available (p : CTxMemPool) : bool :=
  forallb (λ it, forallb (check_input_available p) (vin (GetTx it.2)))
          (mapTx_items p).
End CheckAvailable.

(** Some input of [t] is declared by a resident entry as well. *)
Definition conflicts_with_pool (p : CTxMemPool) (t : CTransaction) : Prop :=
  ∃ h e txin txin',
    mapTx p !! h = Some e ∧ txin ∈ vin t ∧ txin' ∈ vin (GetTx e)
    ∧ prevout txin = prevout txin'.

Inductive pool_op :=
| OpAdd (hash : uint256) (entry : CTxMemPoolEntry) (fCurrentEstimate : bool)
| OpRemove (origTx : CTransaction) (fRecursive : bool).

Definition run_op (p : CTxMemPool) (o : pool_op) : result CTxMemPool :=
  match o with
  | OpAdd hash entry fCurrentEstimate =>
      Done (addUnchecked p hash entry fCurrentEstimate).2
  | OpRemove origTx fRecursive =>
      '(p', _) ← remove p origTx [] fRecursive; Done p'
  end.

Fixpoint run (ops : list pool_op) (p : CTxMemPool) : result CTxMemPool :=
  match ops with
  | [] => Done p
  | o :: rest => p' ← run_op p o; run rest p'
  end.

(** The caller establishes [ready p hash entry] before each admission of
    the sequence [ops], run from [p]. *)
Fixpoint obeys (ready : CTxMemPool → uint256 → CTxMemPoolEntry → Prop)
    (ops : list pool_op) (p : CTxMemPool) : Prop :=
  match ops with
  | [] => True
  | o :: rest =>
      match o with
      | OpAdd hash entry _ => ready p hash entry
      | OpRemove _ _ => True
      end
      ∧ match run_op p o with
        | Done p' => obeys ready rest p'
        | _ => True
        end
  end.

(** The contract as the specification words it, and the one the code needs. *)
Definition no_conflict (p : CTxMemPool) (hash : uint256)
    (entry : CTxMemPoolEntry) : Prop :=
  ¬ conflicts_with_pool p (GetTx entry).

Definition admissible (p : CTxMemPool) (hash : uint256)
    (entry : CTxMemPoolEntry) : Prop :=
  mapTx p !! hash = None
  ∧ NoDup (prevout <$> vin (GetTx entry))
  ∧ ¬ conflicts_with_pool p (GetTx entry).

(** [e] spends one of the first [n] outputs of the transaction [x]. *)
Definition spends (e : CTxMemPoolEntry) (x : uint256) (n : nat) : Prop :=
  ∃ txin, txin ∈ vin (GetTx e) ∧ op_hash (prevout txin) = x
          ∧ (op_n (prevout txin) < n)%nat.

(** The hashes a recursive removal of [origTx] from [p] is about: that of
    [origTx], and those of the resident transactions that spend, directly or
    through others, one of its outputs.  A resident transaction's outputs
    are those of its resident copy. *)
Inductive cascade (p : CTxMemPool) (origTx : CTransaction)
  : uint256 → Prop :=
| cascade_root : cascade p origTx (GetHash origTx)
| cascade_orphan c e :
    mapTx p !! GetHash origTx = None →
    mapTx p !! c = Some e →
    spends e (GetHash origTx) (length (vout origTx)) →
    cascade p origTx c
| cascade_child x ex c e :
    cascade p origTx x →
    mapTx p !! x = Some ex →
    mapTx p !! c = Some e →
    spends e x (length (vout (GetTx ex))) →
    cascade p origTx c.

(** The invariant of the loop of a recursive [remove] of [origTx] from [p0],
    with [q] the queue and [p] the pool as it stands.  A transaction is
    [expanded] once its outputs have been looked up in the spend index. *)
Definition expanded (p0 : CTxMemPool) (origTx : CTransaction)
    (p : CTxMemPool) (x : uint256) (n : nat) : Prop :=
  (mapTx p0 !! GetHash origTx = None ∧ x = GetHash origTx
   ∧ n = length (vout origTx))
  ∨ (∃ ex, mapTx p0 !! x = Some ex ∧ mapTx p !! x = None
           ∧ n = length (vout (GetTx ex))).

Record bfs_inv (p0 : CTxMemPool) (origTx : CTransaction)
    (q : list uint256) (p : CTxMemPool) : Prop := {
  bfs_sub : ∀ h e, mapTx p !! h = Some e → mapTx p0 !! h = Some e;
  bfs_ok : index_ok p;
  bfs_hash : hash_ok p;
  bfs_gone :
    ∀ h, mapTx p !! h = None → is_Some (mapTx p0 !! h) → cascade p0 origTx h;
  bfs_queue : ∀ h, h ∈ q → cascade p0 origTx h;
  bfs_children :
    ∀ x n c e,
      expanded p0 origTx p x n → mapTx p !! c = Some e → spends e x n → c ∈ q;
  bfs_root : GetHash origTx ∈ q ∨ mapTx p !! GetHash origTx = None
}.

(** [erases p l p']: erasing the entries [l], one after the other, each
    resident when its turn comes, leads from [p] to [p']. *)
Inductive erases : CTxMemPool → list (N * CTxMemPoolEntry) → CTxMemPool → Prop :=
| erases_nil p : erases p [] p
| erases_cons p h e l p' :
    mapTx p !! h = Some e →
    erases (erase_entry p h e) l p' →
    erases p ((h, e) :: l) p'.

(** The hashes [hs] are those of the entries of [p] that [p'] no longer
    has, each once. *)
Definition erased_hashes (p p' : CTxMemPool) (hs : list uint256) : Prop :=
  NoDup hs
  ∧ ∀ h, h ∈ hs ↔ is_Some (mapTx p !! h) ∧ mapTx p' !! h = None.

(** [p'] comes from [p] by erasures and changes of the deltas only: nothing
    becomes resident or indexed, and the estimator hears of the removal of
    each erased entry, and of nothing else. *)
Record shrinks (p p' : CTxMemPool) : Prop := {
  shrinks_mapTx : ∀ h, mapTx p !! h = None → mapTx p' !! h = None;
  shrinks_mapNextTx : ∀ o, mapNextTx p !! o = None → mapNextTx p' !! o = None;
  shrinks_calls :
    ∃ hs, erased_hashes p p' hs
          ∧ minerPolicyEstimator p'
            = minerPolicyEstimator p ++ (removeTx <$> hs)
}.

(** What the specification says of the pool after [removeForBlock vtx]:
    no transaction of [vtx] is resident, and no resident transaction spends
    an outpoint that an input of a transaction of [vtx] spends. *)
Definition block_cleared (vtx : list CTransaction) (p' : CTxMemPool) : Prop :=
  ∀ t, t ∈ vtx →
    mapTx p' !! GetHash t = None ∧ ¬ conflicts_with_pool p' t.

(** What the specification says [removeForBlock] does: it returns, the
    block is cleared, and the estimator, once told of the removal of each
    entry that the call erased, and of no other, is told together with the
    height of the entries that the transactions of [vtx] had before the
    call. *)
Definition confirms_block (p : CTxMemPool) (vtx : list CTransaction)
    (nBlockHeight : Z) (conflicts : list CTransaction)
    (fCurrentEstimate : bool) : Prop :=
  ∃ p' conflicts' hs,
    removeForBlock p vtx nBlockHeight conflicts fCurrentEstimate
    = Done (p', conflicts')
    ∧ block_cleared vtx p'
    ∧ erased_hashes p p' hs
    ∧ minerPolicyEstimator p'
      = minerPolicyEstimator p ++ (removeTx <$> hs)
        ++ [processBlock nBlockHeight
              (omap (λ t, mapTx p !! GetHash t) vtx) fCurrentEstimate].

(** What the specification says a recursive [remove] does: it returns, it
    erases the entries of the hashes of the cascade and no other, and it
    appends the transactions of the entries [l] it erased, which are those
    of the cascade, each once, to [removed]. *)
Definition removes_cascade (p : CTxMemPool) (origTx : CTransaction)
    (removed : list CTransaction) : Prop :=
  ∃ p' l,
    remove p origTx removed true = Done (p', removed ++ (GetTx ∘ snd <$> l))
    ∧ (∀ h, cascade p origTx h → mapTx p' !! h = None)
    ∧ (∀ h, ¬ cascade p origTx h → mapTx p' !! h = mapTx p !! h)
    ∧ NoDup l.*1
    ∧ (∀ h e, (h, e) ∈ l ↔ cascade p origTx h ∧ mapTx p !! h = Some e).

(** ** Outputs of a transaction among the keys of the spend index *)

(** The indices of the outpoints of [hashTx] among [keys], in order. *)
Definition outputs_of (hashTx : uint256) (keys : list COutPoint) : list nat :=
  op_n <$> filter (λ k, op_hash k = hashTx) keys.

(** ** Sequences of calls that change the deltas *)

Inductive delta_op :=
| OpPrioritise (hash : uint256) (dPriorityDelta : float) (nFeeDelta : CAmount)
| OpClearPrioritisation (hash : uint256).

Definition run_delta_op (p : CTxMemPool) (o : delta_op) : CTxMemPool :=
  match o with
  | OpPrioritise hash dPriorityDelta nFeeDelta =>
      PrioritiseTransaction p hash dPriorityDelta nFeeDelta
  | OpClearPrioritisation hash => ClearPrioritisation p hash
  end.

(** The fee delta of [hash] after the calls [ops], from [fee] before them:
    what was added to it since it was last cleared. *)
Definition fee_delta_after (hash : uint256) (ops : list delta_op)
    (fee : CAmount) : CAmount :=
  foldl (λ fee o,
           match o with
           | OpPrioritise h _ nFeeDelta =>
               if decide (h = hash) then fee + nFeeDelta else fee
           | OpClearPrioritisation h => if decide (h = hash) then 0 else fee
           end) fee ops.

(** ** What a block and a change of height are about *)

(** The hashes a block [vtx] is about, in the pool [p]: those of its
    transactions, those of the resident transactions that spend an
    outpoint one of them spends, and those of the resident transactions
    that spend, directly or through others, an output of such a one. *)
Definition block_related (p : CTxMemPool) (vtx : list CTransaction)
    (h : uint256) : Prop :=
  (∃ t, t ∈ vtx ∧ GetHash t = h)
  ∨ (∃ t x ex txin txin',
        t ∈ vtx ∧ mapTx p !! x = Some ex
        ∧ txin ∈ vin t ∧ txin' ∈ vin (GetTx ex)
        ∧ prevout txin = prevout txin'
        ∧ GetHash (GetTx ex) ≠ GetHash t
        ∧ cascade p (GetTx ex) h).

(** [p] holds no entry and no record that [p0] does not hold. *)
Definition within (p p0 : CTxMemPool) : Prop :=
  (∀ h e, mapTx p !! h = Some e → mapTx p0 !! h = Some e)
  ∧ (∀ o ip, mapNextTx p !! o = Some ip → mapNextTx p0 !! o = Some ip).

(** Of every entry of [p0] that is gone from [p], the entries of [p0]
    that spend its outputs are gone from [p] as well. *)
Definition children_gone (p0 p : CTxMemPool) : Prop :=
  ∀ y ey c e,
    mapTx p0 !! y = Some ey → mapTx p !! y = None →
    mapTx p0 !! c = Some e → spends e y (length (vout (GetTx ey))) →
    mapTx p !! c = None.

Section Unripe.
Variable CCoins : Type.
Variable AccessCoins : uint256 → option CCoins.
Variable IsCoinBase IsCoinStake : CCoins → bool.
Variable coins_nHeight : CCoins → Z.
Variable COINBASE_MATURITY : Z.

(** The input spends coins that are not of the pool and that the view
    does not have, or that are a reward not yet mature at the height
    [nMemPoolHeight]. *)
Definition unripe (p : CTxMemPool) (nMemPoolHeight : Z) (txin : CTxIn) : Prop :=
  mapTx p !! op_hash (prevout txin) = None
  ∧ match AccessCoins (op_hash (prevout txin)) with
    | None => True
    | Some c =>
        (IsCoinBase c || IsCoinStake c) = true
        ∧ int32 (wrap32 (nMemPoolHeight - coins_nHeight c)) < COINBASE_MATURITY
    end.

(** The input spends coins that are not of the pool and that the view
    does not have. *)
Definition missing (p : CTxMemPool) (txin : CTxIn) : Prop :=
  mapTx p !! op_hash (prevout txin) = None
  ∧ AccessCoins (op_hash (prevout txin)) = None.

(** [h] is the hash of a resident transaction that has an unripe input,
    or that spends, directly or through others, an output of such a one. *)
Definition spends_unripe (p : CTxMemPool) (nMemPoolHeight : Z) (h : uint256)
  : Prop :=
  ∃ x ex,
    mapTx p !! x = Some ex
    ∧ Exists (unripe p nMemPoolHeight) (vin (GetTx ex))
    ∧ cascade p (GetTx ex) h.
End Unripe.

(** ** Sample transactions and pools *)

Module Sample.
Definition spend (h : uint256) (i : nat) : CTxIn := mkTxIn (mkOutPoint h i).
Definition entry_of (t : CTransaction) : CTxMemPoolEntry :=
  mkEntry t 1000 250 250 0 0%float 100 true.
Definition fee : CFeeRate := mkFeeRate 1000.

(** Storage that held zeros when the pool was built in it. *)
Definition zeroed : unassigned := mkUnassigned 0 0%float 0.

(** A chain: [T2] spends [T1], [T3] spends [T2]; [T4] is unrelated. *)
Definition T1 := mkTx 1 [spend 10 0] [mkTxOut 5000].
Definition T2 := mkTx 2 [spend 1 0] [mkTxOut 4000].
Definition T3 := mkTx 3 [spend 2 0] [mkTxOut 3000].
Definition T4 := mkTx 4 [spend 11 0; spend 11 1] [mkTxOut 9000].

(** A transaction that names the same outpoint in two inputs. *)
Definition twice := mkTx 7 [spend 9 0; spend 9 0] [mkTxOut 5].

(** A transaction that spends the same outpoint as [T1], and the
    transaction [T0] that outpoint belongs to. *)
Definition T0 := mkTx 10 [spend 20 0] [mkTxOut 6000].
Definition T5 := mkTx 5 [spend 10 0] [mkTxOut 4500].

(** The entry of the priority example: priority 0 at acceptance, fee
    1000, outputs worth 9000 in all, modified size 250. *)
Definition aged : CTxMemPoolEntry :=
  mkEntry (mkTx 8 [spend 12 0] [mkTxOut 4000; mkTxOut 5000])
          1000 250 250 0 0%float 100 true.

(** The simplest estimator, which is one bucket: its [Read] is that of
    the bucket, under the relay fee [minRelayFee], and its [Write] sends
    what that of the bucket writes to a file that takes [room] objects in
    all, and of a write that it cannot take whole takes what it can. *)
Definition write_room (room : nat) (fileout bytes : list datum)
  : option exception * list datum :=
  if decide (length fileout + length bytes ≤ room)%nat
  then (None, fileout ++ bytes)
  else (Some ios_failure, fileout ++ take (room - length fileout) bytes).
Definition bucket_Write (room : nat) (b : CBlockAverage.t)
    (fileout : list datum) : option exception * list datum :=
  write_room room fileout (CBlockAverage.Write b []).
Definition bucket_Read (minRelayFee : CFeeRate) (b : CBlockAverage.t)
    (filein : list datum) : option exception * CBlockAverage.t * list datum :=
  CBlockAverage.Read b filein minRelayFee.

(** Three files for it: one with a priority sample that is not a number,
    one with sound samples, and one with a fee-rate sample of 5; and a
    relay fee that 10000 times does not fit an [int64_t]. *)
Definition file_nan : list datum :=
  [DInt 120000; DInt 120000; DFees [mkFeeRate 1500]; DDoubles [nan]].
Definition file_good : list datum :=
  [DInt 120000; DInt 120000; DFees [mkFeeRate 1500; mkFeeRate 0];
   DDoubles [0%float; 57.5%float]].
Definition file_low : list datum :=
  [DInt 120000; DInt 120000; DFees [mkFeeRate 5]; DDoubles [0%float]].
Definition high_fee : CFeeRate := mkFeeRate 922337203685478.

(** A bucket with two fee-rate samples and one priority sample. *)
Definition bucket : CBlockAverage.t :=
  CBlockAverage.RecordPriority
    (CBlockAverage.RecordFee
       (CBlockAverage.RecordFee CBlockAverage.new (mkFeeRate 1500))
       (mkFeeRate 2000))
    57.5%float.

(** [pow] on whole exponents that are not negative, where it is exact for
    the base 2; a pool whose fee floor was raised to 5000 at time 1000; a
    half-life; and a backing view of coins that holds unspent coins for the
    hash 10 and pruned ones for the hash 11. *)
Definition pow_whole (b e : float) : float :=
  Nat.iter (Z.to_nat (double2amount e)) (λ x, (x * b)%float) 1%float.
Definition raised : CTxMemPool :=
  set_rolling (CTxMemPool_new fee zeroed) 5000%float 1000.
Definition halflife : Z := 43200.
Definition coins_of (t : CTransaction) (height : Z)
  : option CTransaction * Z * bool := (Some t, height, false).
Definition backing (txid : uint256) (coins : option CTransaction * Z * bool)
  : bool * (option CTransaction * Z * bool) :=
  if (txid =? 10)%N then (true, (Some T0, 50, false))
  else if (txid =? 11)%N then (true, (None, 60, true))
  else (false, coins).

Definition add (t : CTransaction) : pool_op :=
  OpAdd (GetHash t) (entry_of t) true.
Definition accept (p : CTxMemPool) (t : CTransaction) : CTxMemPool :=
  (addUnchecked p (GetHash t) (entry_of t) true).2.

(** [T1], [T2], [T3] and [T4], admitted in this order. *)
Definition chain : CTxMemPool :=
  accept (accept (accept (accept (CTxMemPool_new fee zeroed) T1) T2) T3) T4.

(** [T1], then [T5] on top of it without the conflict evicted. *)
Definition doubly_spent : CTxMemPool :=
  accept (accept (CTxMemPool_new fee zeroed) T1) T5.

(** [T1], then [T2] under a hash that is not its own; [T9] spends the
    output of [T1] that [T2] spends. *)
Definition misfiled : CTxMemPool :=
  (addUnchecked (accept (CTxMemPool_new fee zeroed) T1) 99 (entry_of T2) true).2.
Definition T9 := mkTx 9 [spend 1 0] [mkTxOut 3900].

(** A pool built in storage that held other values, with [T1] and [T4]
    admitted: its [totalTxSize] is not the sum of their sizes. *)
Definition adrift : CTxMemPool :=
  accept (accept (CTxMemPool_new fee (mkUnassigned 77 2.5%float 1234)) T1) T4.

(** A view of confirmed coins, each a flag (whether they are a reward) and
    a height: those of the hash 10 are a reward of height 95, those of the
    hash 11 are no reward, and there are no others.  A bucket into which a
    priority that is not a number was recorded.  Coins as the list of
    their outputs spent so far. *)
Definition confirmed (txid : uint256) : option (bool * Z) :=
  if (txid =? 10)%N then Some (true, 95)
  else if (txid =? 11)%N then Some (false, 60)
  else None.
Definition spoiled : CBlockAverage.t :=
  CBlockAverage.RecordPriority bucket nan.
Definition spend_output (coins : list nat) (n : nat) : list nat :=
  coins ++ [n].
End Sample.

(** * Properties *)

(** ** The spend index under insertion and erasure of inputs *)

Lemma lookup_erase_inputs ins nx o :
  erase_inputs ins nx !! o
  = if decide (o ∈ prevout <$> ins) then None else nx !! o.
Proof.
  revert nx. induction ins as [|txin ins IH]; intros nx.
  - rewrite decide_False by apply not_elem_of_nil. done.
  - change (erase_inputs (txin :: ins) nx)
      with (erase_inputs ins (delete (prevout txin) nx)).
    rewrite IH, fmap_cons.
    destruct (decide (o = prevout txin)) as [->|Hne].
    + rewrite lookup_delete_eq, (decide_True (P := _ ∈ _ :: _)) by left.
      by case_decide.
    + rewrite lookup_delete_ne by done.
      destruct (decide (o ∈ prevout <$> ins)) as [Hin|Hin].
      * by rewrite decide_True by (by right).
      * rewrite decide_False; [done|]. by intros [?|?]%elem_of_cons.
Qed.

Lemma lookup_erase_inputs_Some ins nx o ip :
  erase_inputs ins nx !! o = Some ip →
  nx !! o = Some ip ∧ o ∉ prevout <$> ins.
Proof. rewrite lookup_erase_inputs. by case_decide. Qed.

Lemma size_erase_inputs ins nx :
  NoDup (prevout <$> ins) →
  (∀ txin, txin ∈ ins → is_Some (nx !! prevout txin)) →
  size nx = (size (erase_inputs ins nx) + length ins)%nat.
Proof.
  revert nx. induction ins as [|txin ins IH]; intros nx Hnd Hin.
  - simpl. lia.
  - rewrite fmap_cons in Hnd. apply NoDup_cons in Hnd as [Hfresh Hnd].
    change (erase_inputs (txin :: ins) nx)
      with (erase_inputs ins (delete (prevout txin) nx)).
    assert (is_Some (nx !! prevout txin)) as Hhere by (apply Hin; left).
    pose proof (map_size_delete_Some (prevout txin) nx Hhere) as Hsz.
    assert (size nx ≠ 0%nat) as Hpos.
    { intros Hz. apply map_size_empty_inv in Hz. subst nx.
      destruct Hhere as [? Hx]. by rewrite lookup_empty in Hx. }
    assert (size (delete (prevout txin) nx)
            = (size (erase_inputs ins (delete (prevout txin) nx))
               + length ins)%nat) as Hrec.
    { apply IH; [done|]. intros txin' Hin'. rewrite lookup_delete_ne.
      - apply Hin. by right.
      - intros Heq. apply Hfresh. rewrite Heq. by apply list_elem_of_fmap_2. }
    simpl. lia.
Qed.

Lemma lookup_index_inputs_notin h i0 ins nx o :
  o ∉ prevout <$> ins → index_inputs h i0 ins nx !! o = nx !! o.
Proof.
  revert i0 nx. induction ins as [|txin ins IH]; intros i0 nx Hnot; [done|].
  rewrite fmap_cons in Hnot. apply not_elem_of_cons in Hnot as [Hne Hnot].
  simpl. rewrite IH by done. by apply lookup_insert_ne.
Qed.

Lemma lookup_index_inputs_in h i0 ins nx i txin :
  NoDup (prevout <$> ins) → ins !! i = Some txin →
  index_inputs h i0 ins nx !! prevout txin = Some (mkInPoint h (i0 + i)).
Proof.
  revert i0 nx i. induction ins as [|txin0 ins IH]; intros i0 nx i Hnd Hi.
  - done.
  - rewrite fmap_cons in Hnd. apply NoDup_cons in Hnd as [Hfresh Hnd].
    destruct i as [|i]; simpl in *.
    + injection Hi as ->. rewrite lookup_index_inputs_notin by done.
      rewrite lookup_insert_eq. by rewrite Nat.add_0_r.
    + rewrite (IH (S i0) _ i) by done. f_equal. f_equal. lia.
Qed.

Lemma lookup_index_inputs_inv h i0 ins nx o ip :
  index_inputs h i0 ins nx !! o = Some ip →
  nx !! o = Some ip
  ∨ ∃ i txin, ins !! i = Some txin ∧ prevout txin = o
              ∧ ip = mkInPoint h (i0 + i).
Proof.
  revert i0 nx. induction ins as [|txin0 ins IH]; intros i0 nx Hl.
  - by left.
  - simpl in Hl. apply IH in Hl as [Hl | (i & txin & Hi & Ho & ->)].
    + apply lookup_insert_Some in Hl as [[<- <-] | [_ Hl]]; [|by left].
      right. exists 0%nat, txin0. by rewrite Nat.add_0_r.
    + right. exists (S i), txin. split_and!; [done..|]. f_equal. lia.
Qed.

Lemma size_index_inputs h i0 ins nx :
  NoDup (prevout <$> ins) →
  (∀ txin, txin ∈ ins → nx !! prevout txin = None) →
  size (index_inputs h i0 ins nx) = (size nx + length ins)%nat.
Proof.
  revert i0 nx. induction ins as [|txin ins IH]; intros i0 nx Hnd Hin.
  - simpl. lia.
  - rewrite fmap_cons in Hnd. apply NoDup_cons in Hnd as [Hfresh Hnd].
    simpl. rewrite IH; [| done |].
    + rewrite map_size_insert_None by (apply Hin; left). lia.
    + intros txin' Hin'. rewrite lookup_insert_ne.
      * apply Hin. by right.
      * intros Heq. apply Hfresh. rewrite Heq. by apply list_elem_of_fmap_2.
Qed.

Lemma inputCount_empty : inputCount ∅ = 0%nat.
Proof. apply map_fold_empty. Qed.

Lemma inputCount_insert h e m :
  m !! h = None →
  inputCount (<[h := e]> m) = (length (vin (GetTx e)) + inputCount m)%nat.
Proof.
  intros Hh. unfold inputCount.
  rewrite map_fold_insert_L; [done | intros; lia | done].
Qed.

Lemma inputCount_delete h e m :
  m !! h = Some e →
  inputCount m = (length (vin (GetTx e)) + inputCount (delete h m))%nat.
Proof.
  intros Hh. unfold inputCount.
  rewrite (map_fold_delete_L _ _ h e m); [done | intros; lia | done].
Qed.

(** ** Erasing one entry *)

Lemma entry_inputs_NoDup p h e :
  index_ok p → mapTx p !! h = Some e → NoDup (prevout <$> vin (GetTx e)).
Proof.
  intros Hok He. apply NoDup_alt. intros i j o Hi Hj.
  apply list_lookup_fmap_Some in Hi as (ti & Hoi & Hi).
  apply list_lookup_fmap_Some in Hj as (tj & Hoj & Hj).
  pose proof (entries_indexed p Hok h e i ti He Hi) as H1.
  pose proof (entries_indexed p Hok h e j tj He Hj) as H2.
  rewrite <- Hoi in H1. rewrite <- Hoj in H2. congruence.
Qed.

Lemma entry_inputs_indexed p h e txin :
  index_ok p → mapTx p !! h = Some e → txin ∈ vin (GetTx e) →
  ∃ i, mapNextTx p !! prevout txin = Some (mkInPoint h i).
Proof.
  intros Hok He [i Hi]%list_elem_of_lookup. exists i.
  by apply (entries_indexed p Hok h e).
Qed.

Lemma erase_entry_index_ok p h e :
  index_ok p → mapTx p !! h = Some e → index_ok (erase_entry p h e).
Proof.
  intros Hok He. split; simpl.
  - intros h' e' i txin [Hne He']%lookup_delete_Some Hi.
    rewrite lookup_erase_inputs, decide_False.
    { by apply (entries_indexed p Hok h' e'). }
    intros (txin2 & Heq & Hin2)%list_elem_of_fmap.
    destruct (entry_inputs_indexed p h e txin2 Hok He Hin2) as [j Hj].
    pose proof (entries_indexed p Hok h' e' i txin He' Hi) as Hi'.
    rewrite Heq in Hi'. congruence.
  - intros o ip [Ho Hnot]%lookup_erase_inputs_Some.
    destruct (index_owned p Hok o ip Ho) as (e0 & txin & He0 & Hn & Hp).
    exists e0, txin. split_and!; [|done..].
    rewrite lookup_delete_ne; [done|]. intros Heq. apply Hnot.
    rewrite <- Heq in He0. assert (e0 = e) as -> by congruence.
    rewrite <- Hp. apply list_elem_of_fmap_2. by eapply list_elem_of_lookup_2.
Qed.

Lemma erase_entry_counted p h e :
  index_ok p → index_counted p → mapTx p !! h = Some e →
  index_counted (erase_entry p h e).
Proof.
  unfold index_counted. intros Hok Hcnt He. simpl.
  pose proof (inputCount_delete h e (mapTx p) He) as Hm.
  pose proof (size_erase_inputs (vin (GetTx e)) (mapNextTx p)
                (entry_inputs_NoDup p h e Hok He)) as Hs.
  rewrite Hs in Hcnt; [lia|].
  intros txin Hin.
  destruct (entry_inputs_indexed p h e txin Hok He Hin) as [i Hi]. eauto.
Qed.

Lemma erase_entry_hash_ok p h e : hash_ok p → hash_ok (erase_entry p h e).
Proof.
  intros Hok o ip e' Ho He'. simpl in Ho, He'.
  apply lookup_erase_inputs_Some in Ho as [Ho _].
  apply lookup_delete_Some in He' as [_ He']. by apply (Hok o).
Qed.

(** ** The assertions of [check] on the spend index *)

Lemma check_inputs_spec p h i0 ins :
  check_inputs p h i0 ins = true
  ↔ ∀ i txin, ins !! i = Some txin →
              mapNextTx p !! prevout txin = Some (mkInPoint h (i0 + i)).
Proof.
  revert i0. induction ins as [|txin ins IH]; intros i0; simpl.
  { split; [|done]. intros _ i txin Hi. by rewrite lookup_nil in Hi. }
  destruct (mapNextTx p !! prevout txin) as [it3|] eqn:Hit.
  - rewrite !andb_true_iff, !bool_decide_eq_true, IH. split.
    + intros [[Hp Hn] Hrest] [|i] txin' Hi; simpl in Hi.
      * injection Hi as <-. rewrite Hit, Nat.add_0_r.
        destruct it3. simpl in *. by subst.
      * rewrite (Hrest i txin' Hi). do 2 f_equal. lia.
    + intros Hall. pose proof (Hall 0%nat txin eq_refl) as H0.
      rewrite Hit, Nat.add_0_r in H0. injection H0 as ->.
      split; [done|]. intros i txin' Hi.
      rewrite (Hall (S i) txin' Hi). do 2 f_equal. lia.
  - split; [done|]. intros Hall.
    pose proof (Hall 0%nat txin eq_refl). congruence.
Qed.

Lemma check_record_spec p o ip :
  check_record p o ip = true
  ↔ ∃ e txin,
      mapTx p !! ptx ip = Some e ∧ GetHash (GetTx e) = ptx ip
      ∧ vin (GetTx e) !! ip_n ip = Some txin ∧ prevout txin = o.
Proof.
  unfold check_record. destruct (mapTx p !! ptx ip) as [e|] eqn:He.
  - destruct (mapTx p !! GetHash (GetTx e)) eqn:Hh.
    + rewrite !andb_true_iff, !bool_decide_eq_true. split.
      * intros [[Hk _] (txin & Hn & Ho)%fmap_Some].
        by exists e, txin.
      * intros (e' & txin & [= <-] & Hk & Hn & Ho). split_and!; [done| |].
        -- by eapply lookup_lt_Some.
        -- by rewrite Hn, <- Ho.
    + split; [done|]. intros (e' & txin & [= <-] & Hk & _).
      rewrite Hk in Hh. congruence.
  - split; [done|]. by intros (e & txin & ? & _).
Qed.

(** A pool passes the assertions exactly when its spend index is the union
    of the inputs of its entries and points to transactions stored under
    their own hashes. *)
Lemma check_spend_index_spec p :
  check_spend_index p = true ↔ index_ok p ∧ hash_ok p.
Proof.
  unfold check_spend_index. rewrite andb_true_iff, !forallb_forall. split.
  - intros [Hins Hrec]. split; [split|].
    + intros h e i txin He Hi.
      assert (In (h, e) (map_to_list (mapTx p))) as Hin
        by by apply list_elem_of_In, elem_of_map_to_list.
      apply Hins in Hin. simpl in Hin.
      by apply (proj1 (check_inputs_spec _ _ _ _) Hin i txin).
    + intros o ip Ho.
      assert (In (o, ip) (map_to_list (mapNextTx p))) as Hin
        by by apply list_elem_of_In, elem_of_map_to_list.
      apply Hrec in Hin. simpl in Hin.
      apply check_record_spec in Hin as (e & txin & He & _ & Hn & Hp).
      by exists e, txin.
    + intros o ip e Ho He.
      assert (In (o, ip) (map_to_list (mapNextTx p))) as Hin
        by by apply list_elem_of_In, elem_of_map_to_list.
      apply Hrec in Hin. simpl in Hin.
      apply check_record_spec in Hin as (e' & txin & He' & Hk & _).
      congruence.
  - intros [[Hins Hrec] Hhash].
    split; intros [k v] Hin;
      apply list_elem_of_In, elem_of_map_to_list in Hin; simpl.
    + apply check_inputs_spec. intros i txin Hi. by apply (Hins k v).
    + apply check_record_spec.
      destruct (Hrec k v Hin) as (e & txin & He & Hn & Hp).
      exists e, txin. split_and!; try done. by apply (Hhash k v e).
Qed.

(** ** Sequences of erasures *)

Lemma erases_index_ok p l p' : erases p l p' → index_ok p → index_ok p'.
Proof. induction 1; eauto using erase_entry_index_ok. Qed.

Lemma erases_counted p l p' :
  erases p l p' → index_ok p → index_counted p → index_counted p'.
Proof.
  induction 1; eauto using erase_entry_index_ok, erase_entry_counted.
Qed.

Lemma erases_hash_ok p l p' : erases p l p' → hash_ok p → hash_ok p'.
Proof. induction 1; eauto using erase_entry_hash_ok. Qed.

Lemma erases_app p l1 p1 l2 p2 :
  erases p l1 p1 → erases p1 l2 p2 → erases p (l1 ++ l2) p2.
Proof. induction 1; simpl; eauto using erases. Qed.

Lemma erases_mapDeltas p l p' : erases p l p' → mapDeltas p' = mapDeltas p.
Proof. induction 1 as [|????? _ _ IH]; [done | by rewrite IH]. Qed.

Lemma erases_minRelayFee p l p' : erases p l p' → minRelayFee p' = minRelayFee p.
Proof. induction 1 as [|????? _ _ IH]; [done | by rewrite IH]. Qed.

Lemma erases_calls p l p' :
  erases p l p' →
  minerPolicyEstimator p' = minerPolicyEstimator p ++ (removeTx <$> l.*1).
Proof.
  induction 1 as [|????? _ _ IH]; simpl.
  - by rewrite app_nil_r.
  - rewrite IH. simpl. by rewrite <- app_assoc.
Qed.

Lemma erases_mapTx p l p' h :
  erases p l p' →
  mapTx p' !! h = if decide (h ∈ l.*1) then None else mapTx p !! h.
Proof.
  induction 1 as [|p h0 e l p' He _ IH].
  - by rewrite decide_False by apply not_elem_of_nil.
  - rewrite IH, fmap_cons.
    change (mapTx (erase_entry p h0 e)) with (delete h0 (mapTx p)).
    change ((h0, e).1) with h0.
    destruct (decide (h = h0)) as [->|Hne].
    + rewrite lookup_delete_eq, (decide_True (P := _ ∈ _ :: _)) by left.
      by case_decide.
    + rewrite lookup_delete_ne by done.
      destruct (decide (h ∈ l.*1)) as [Hin|Hin].
      * by rewrite decide_True by (by right).
      * rewrite decide_False; [done|]. by intros [?|?]%elem_of_cons.
Qed.

Lemma erases_mapTx_Some p l p' h e :
  erases p l p' → mapTx p' !! h = Some e → mapTx p !! h = Some e.
Proof. intros Her. rewrite (erases_mapTx p l p' h Her). by case_decide. Qed.

Lemma erases_mapTx_None p l p' h :
  erases p l p' → mapTx p !! h = None → mapTx p' !! h = None.
Proof. intros Her Hn. rewrite (erases_mapTx p l p' h Her). by case_decide. Qed.

Lemma erases_mapNextTx_Some p l p' o ip :
  erases p l p' → mapNextTx p' !! o = Some ip → mapNextTx p !! o = Some ip.
Proof.
  induction 1 as [|????? _ _ IH]; [done|]. intros Ho.
  apply IH in Ho. simpl in Ho. by apply lookup_erase_inputs_Some in Ho as [? _].
Qed.

Lemma erases_mapNextTx_None p l p' o :
  erases p l p' → mapNextTx p !! o = None → mapNextTx p' !! o = None.
Proof.
  intros Her Hn. destruct (mapNextTx p' !! o) as [ip|] eqn:Ho; [|done].
  apply (erases_mapNextTx_Some p l p' o ip Her) in Ho. congruence.
Qed.

Lemma erases_elem_of p l p' h e :
  erases p l p' → (h, e) ∈ l → mapTx p !! h = Some e.
Proof.
  induction 1 as [|p h0 e0 l p' He _ IH]; intros Hin.
  - by apply elem_of_nil in Hin.
  - apply elem_of_cons in Hin as [[= -> ->]|Hin]; [done|].
    apply IH in Hin. simpl in Hin. by apply lookup_delete_Some in Hin as [_ ?].
Qed.

Lemma erases_NoDup p l p' : erases p l p' → NoDup l.*1.
Proof.
  induction 1 as [|p h0 e0 l p' He Her IH]; simpl.
  - apply NoDup_nil_2.
  - apply NoDup_cons. split; [|done].
    intros ((h & e) & Heq & Hin)%list_elem_of_fmap. simpl in Heq. subst h.
    apply (erases_elem_of _ _ _ _ _ Her) in Hin. simpl in Hin.
    by rewrite lookup_delete_eq in Hin.
Qed.

(** ** The removal loop *)

Lemma bind_Done {A B} (r : result A) (k : A → result B) (b : B) :
  r ≫= k = Done b → ∃ a, r = Done a ∧ k a = Done b.
Proof. destruct r as [a| |]; [eauto | done..]. Qed.

Lemma bind_not_Timeout {A B} (r : result A) (k : A → result B) :
  r ≠ Timeout → (∀ a, r = Done a → k a ≠ Timeout) → r ≫= k ≠ Timeout.
Proof. destruct r as [a| |]; [intros _ Hk; by apply Hk | done..]. Qed.

Lemma bind_not_Undefined {A B} (r : result A) (k : A → result B) :
  r ≠ Undefined → (∀ a, r = Done a → k a ≠ Undefined) → r ≫= k ≠ Undefined.
Proof. destruct r as [a| |]; [intros _ Hk; by apply Hk | done..]. Qed.

Lemma spenders_not_Timeout p h idxs : spenders p h idxs ≠ Timeout.
Proof.
  induction idxs as [|i idxs IH]; simpl; [done|].
  destruct (mapNextTx p !! mkOutPoint h i) as [ip|]; [|done].
  unfold deref_hash. destruct (mapTx p !! ptx ip); [|done]. simpl.
  by destruct (spenders p h idxs).
Qed.

Lemma spenders_not_Undefined p h idxs :
  index_ok p → spenders p h idxs ≠ Undefined.
Proof.
  intros Hok. induction idxs as [|i idxs IH]; simpl; [done|].
  destruct (mapNextTx p !! mkOutPoint h i) as [ip|] eqn:Hip; [|done].
  destruct (index_owned p Hok _ _ Hip) as (e & _ & He & _).
  unfold deref_hash. rewrite He. simpl.
  by destruct (spenders p h idxs).
Qed.

Lemma spenders_length p h idxs hs :
  spenders p h idxs = Done hs → (length hs ≤ length idxs)%nat.
Proof.
  revert hs. induction idxs as [|i idxs IH]; simpl; intros hs Hs.
  - injection Hs as <-. simpl. lia.
  - destruct (mapNextTx p !! mkOutPoint h i) as [ip|].
    + apply bind_Done in Hs as (c & _ & Hs).
      apply bind_Done in Hs as (hs' & Hs' & [= <-]).
      apply IH in Hs'. simpl. lia.
    + apply IH in Hs. lia.
Qed.

(** The hashes pushed are those of the owners of the outputs looked up. *)
Lemma spenders_elem_of p h idxs hs c :
  spenders p h idxs = Done hs → c ∈ hs →
  ∃ i ip e, i ∈ idxs ∧ mapNextTx p !! mkOutPoint h i = Some ip
            ∧ mapTx p !! ptx ip = Some e ∧ GetHash (GetTx e) = c.
Proof.
  revert hs. induction idxs as [|i idxs IH]; simpl; intros hs Hs Hc.
  - injection Hs as <-. by apply elem_of_nil in Hc.
  - destruct (mapNextTx p !! mkOutPoint h i) as [ip|] eqn:Hip.
    + apply bind_Done in Hs as (c0 & Hc0 & Hs).
      apply bind_Done in Hs as (hs' & Hs' & [= <-]).
      unfold deref_hash in Hc0.
      destruct (mapTx p !! ptx ip) as [e|] eqn:He; [|done].
      injection Hc0 as <-.
      apply elem_of_cons in Hc as [->|Hc].
      * exists i, ip, e. split_and!; [left|done..].
      * destruct (IH hs' Hs' Hc) as (j & ip' & e' & Hj & ?).
        exists j, ip', e'. split; [by right|done].
    + destruct (IH hs Hs Hc) as (j & ip' & e' & Hj & ?).
      exists j, ip', e'. split; [by right|done].
Qed.

Lemma spenders_complete p h idxs hs i ip e :
  spenders p h idxs = Done hs → i ∈ idxs →
  mapNextTx p !! mkOutPoint h i = Some ip → mapTx p !! ptx ip = Some e →
  GetHash (GetTx e) ∈ hs.
Proof.
  revert hs. induction idxs as [|i0 idxs IH]; simpl; intros hs Hs Hi Hip He.
  - by apply elem_of_nil in Hi.
  - destruct (mapNextTx p !! mkOutPoint h i0) as [ip0|] eqn:Hip0.
    + apply bind_Done in Hs as (c0 & Hc0 & Hs).
      apply bind_Done in Hs as (hs' & Hs' & [= <-]).
      apply elem_of_cons in Hi as [->|Hi].
      * unfold deref_hash in Hc0. assert (ip0 = ip) as -> by congruence.
        rewrite He in Hc0. injection Hc0 as <-. left.
      * right. by apply IH.
    + apply elem_of_cons in Hi as [->|Hi]; [congruence|]. by apply IH.
Qed.

Lemma loop_weight_delete h e m :
  m !! h = Some e →
  loop_weight m
  = (S (length (vout (GetTx e))) + loop_weight (delete h m))%nat.
Proof.
  intros Hh. unfold loop_weight.
  rewrite (map_fold_delete_L _ _ h e m); [done | intros; lia | done].
Qed.

(** The fuel [remove] provides is enough. *)
Lemma remove_loop_not_Timeout fuel fRecursive q p removed :
  (length q + loop_weight (mapTx p) ≤ fuel)%nat →
  remove_loop fuel fRecursive q p removed ≠ Timeout.
Proof.
  revert q p removed.
  induction fuel as [|fuel IH]; intros q p removed Hfuel;
    destruct q as [|h rest]; simpl in *; try done; try lia.
  destruct (mapTx p !! h) as [e|] eqn:He.
  - apply bind_not_Timeout.
    + destruct fRecursive; [apply spenders_not_Timeout | done].
    + intros children Hch. apply IH. simpl.
      pose proof (loop_weight_delete h e (mapTx p) He) as Hw.
      rewrite length_app.
      assert (length children ≤ length (vout (GetTx e)))%nat; [|lia].
      destruct fRecursive.
      * apply spenders_length in Hch. by rewrite length_seq in Hch.
      * injection Hch as <-. simpl. lia.
  - apply IH. lia.
Qed.

Lemma remove_loop_not_Undefined fuel fRecursive q p removed :
  index_ok p → remove_loop fuel fRecursive q p removed ≠ Undefined.
Proof.
  revert q p removed.
  induction fuel as [|fuel IH]; intros q p removed Hok;
    destruct q as [|h rest]; simpl in *; try done.
  destruct (mapTx p !! h) as [e|] eqn:He; [|by apply IH].
  apply bind_not_Undefined.
  - destruct fRecursive; [by apply spenders_not_Undefined | done].
  - intros children _. apply IH. by apply erase_entry_index_ok.
Qed.

(** What the loop does is a sequence of erasures, and the transactions of
    the erased entries are appended to [removed], in order; the hashes of
    the queue are gone in the end. *)
Lemma remove_loop_erases fuel fRecursive q p removed p' removed' :
  remove_loop fuel fRecursive q p removed = Done (p', removed') →
  ∃ l, erases p l p' ∧ removed' = removed ++ (GetTx ∘ snd <$> l)
       ∧ ∀ h, h ∈ q → mapTx p' !! h = None.
Proof.
  revert q p removed.
  induction fuel as [|fuel IH]; intros q p removed Hrun;
    destruct q as [|h rest]; simpl in *; try done.
  - injection Hrun as <- <-. exists []. split_and!.
    + constructor.
    + by rewrite app_nil_r.
    + intros h Hh. by apply elem_of_nil in Hh.
  - injection Hrun as <- <-. exists []. split_and!.
    + constructor.
    + by rewrite app_nil_r.
    + intros h Hh. by apply elem_of_nil in Hh.
  - destruct (mapTx p !! h) as [e|] eqn:He.
    + apply bind_Done in Hrun as (children & _ & Hrun).
      apply IH in Hrun as (l & Her & -> & Hgone).
      exists ((h, e) :: l). split_and!.
      * by constructor.
      * simpl. by rewrite <- app_assoc.
      * intros h' [->|Hin]%elem_of_cons.
        -- apply (erases_mapTx_None _ _ _ _ Her). simpl.
           apply lookup_delete_eq.
        -- apply Hgone. apply elem_of_app. by left.
    + apply IH in Hrun as (l & Her & -> & Hgone).
      exists l. split_and!; [done..|].
      intros h' [->|Hin]%elem_of_cons; [|by apply Hgone].
      by apply (erases_mapTx_None _ _ _ _ Her).
Qed.

(** ** [remove] *)

Lemma remove_not_Timeout p origTx removed fRecursive :
  remove p origTx removed fRecursive ≠ Timeout.
Proof.
  unfold remove. apply bind_not_Timeout.
  - destruct (_ && _); [apply spenders_not_Timeout | done].
  - intros children _. by apply remove_loop_not_Timeout.
Qed.

Lemma remove_not_Undefined p origTx removed fRecursive :
  index_ok p → remove p origTx removed fRecursive ≠ Undefined.
Proof.
  intros Hok. unfold remove. apply bind_not_Undefined.
  - destruct (_ && _); [by apply spenders_not_Undefined | done].
  - intros children _. by apply remove_loop_not_Undefined.
Qed.

Lemma remove_Done p origTx removed fRecursive :
  index_ok p → ∃ p' removed', remove p origTx removed fRecursive = Done (p', removed').
Proof.
  intros Hok.
  pose proof (remove_not_Timeout p origTx removed fRecursive).
  pose proof (remove_not_Undefined p origTx removed fRecursive Hok).
  destruct (remove p origTx removed fRecursive) as [[p' removed']| |]; by eauto.
Qed.

Lemma remove_erases p origTx removed fRecursive p' removed' :
  remove p origTx removed fRecursive = Done (p', removed') →
  ∃ l, erases p l p' ∧ removed' = removed ++ (GetTx ∘ snd <$> l)
       ∧ mapTx p' !! GetHash origTx = None.
Proof.
  unfold remove. intros (children & _ & Hrun)%bind_Done.
  apply remove_loop_erases in Hrun as (l & Her & Hrm & Hgone).
  exists l. split_and!; [done..|]. apply Hgone. left.
Qed.

(** ** [addUnchecked] *)

Lemma conflicts_with_pool_alt p t :
  conflicts_with_pool p t
  ↔ Exists (λ txin,
      map_Exists (λ _ e, prevout txin ∈ prevout <$> vin (GetTx e)) (mapTx p))
      (vin t).
Proof.
  unfold conflicts_with_pool. rewrite Exists_exists. split.
  - intros (h & e & txin & txin' & He & Hin & Hin' & Heq).
    exists txin. split; [done|]. exists h, e. split; [done|].
    rewrite Heq. by apply list_elem_of_fmap_2.
  - intros (txin & Hin & h & e & He & (txin' & Heq & Hin')%list_elem_of_fmap).
    by exists h, e, txin, txin'.
Qed.

#[global] Instance conflicts_with_pool_dec p t :
  Decision (conflicts_with_pool p t).
Proof.
  refine (match decide (Exists (λ txin,
      map_Exists (λ _ e, prevout txin ∈ prevout <$> vin (GetTx e)) (mapTx p))
      (vin t)) with
          | left yes => left _
          | right no => right _
          end); by rewrite conflicts_with_pool_alt.
Defined.

#[global] Instance no_conflict_dec p h e : Decision (no_conflict p h e).
Proof. unfold no_conflict. apply _. Defined.

#[global] Instance admissible_dec p h e : Decision (admissible p h e).
Proof. unfold admissible. apply _. Defined.

Lemma unclaimed_inputs p t txin :
  index_ok p → ¬ conflicts_with_pool p t → txin ∈ vin t →
  mapNextTx p !! prevout txin = None.
Proof.
  intros Hok Hfree Hin.
  destruct (mapNextTx p !! prevout txin) as [ip|] eqn:Hip; [|done].
  destruct (index_owned p Hok _ _ Hip) as (e & txin' & He & Hn & Heq).
  destruct Hfree. exists (ptx ip), e, txin, txin'.
  split_and!; [done..| by eapply list_elem_of_lookup_2 | done].
Qed.

Lemma addUnchecked_index_ok p hash entry fCurrentEstimate :
  index_ok p → admissible p hash entry →
  index_ok (addUnchecked p hash entry fCurrentEstimate).2.
Proof.
  intros Hok (Hfresh & Hnd & Hfree). split; simpl.
  - intros h e i txin [[<- <-]|[Hne He]]%lookup_insert_Some Hi.
    + by rewrite (lookup_index_inputs_in _ _ _ _ i).
    + rewrite lookup_index_inputs_notin.
      { by apply (entries_indexed p Hok h e). }
      intros (txin' & Heq & Hin')%list_elem_of_fmap. apply Hfree.
      exists h, e, txin', txin.
      split_and!; [done..| by eapply list_elem_of_lookup_2 | done].
  - intros o ip [Ho|(i & txin & Hi & Ho & ->)]%lookup_index_inputs_inv.
    + destruct (index_owned p Hok _ _ Ho) as (e & txin & He & Hn & Heq).
      exists e, txin. split_and!; [|done..].
      rewrite lookup_insert_ne; [done|]. congruence.
    + exists entry, txin. simpl. by rewrite lookup_insert_eq.
Qed.

Lemma addUnchecked_counted p hash entry fCurrentEstimate :
  index_ok p → index_counted p → admissible p hash entry →
  index_counted (addUnchecked p hash entry fCurrentEstimate).2.
Proof.
  unfold index_counted. intros Hok Hcnt (Hfresh & Hnd & Hfree). simpl.
  rewrite size_index_inputs, inputCount_insert; [lia | done..|].
  intros txin Hin. by apply (unclaimed_inputs p (GetTx entry)).
Qed.

Lemma new_index_ok fee held : index_ok (CTxMemPool_new fee held).
Proof. split; simpl; intros *; by rewrite lookup_empty. Qed.

Lemma new_counted fee held : index_counted (CTxMemPool_new fee held).
Proof.
  unfold index_counted. simpl. by rewrite map_size_empty, inputCount_empty.
Qed.

Lemma new_hash_ok fee held : hash_ok (CTxMemPool_new fee held).
Proof. intros o ip e. simpl. by rewrite lookup_empty. Qed.

Lemma run_keeps_index ops p :
  index_ok p → index_counted p → obeys admissible ops p →
  ∃ p', run ops p = Done p' ∧ index_ok p' ∧ index_counted p'.
Proof.
  revert p. induction ops as [|o ops IH]; intros p Hok Hcnt Hobeys.
  - by exists p.
  - destruct Hobeys as [Hready Hrest]. simpl.
    destruct o as [hash entry fCurrentEstimate | origTx fRecursive]; simpl in *.
    + apply IH; [by apply addUnchecked_index_ok
                | by apply addUnchecked_counted | done].
    + destruct (remove_Done p origTx [] fRecursive Hok) as (p1 & rm & Hrm).
      rewrite Hrm in *. simpl in *.
      apply remove_erases in Hrm as (l & Her & _).
      apply IH; eauto using erases_index_ok, erases_counted.
Qed.

(** C1, as the code has it: for every sequence of [addUnchecked] and
    [remove] on a new pool, whatever the members that the constructor does
    not assign hold, in which the caller has established before each
    admission that the hash is not resident yet, that the inputs of the
    admitted transaction are pairwise distinct and that none of them is
    declared by a resident entry, every operation returns, the size of
    [mapNextTx] is the sum of the input counts of the resident entries, and
    every key of [mapNextTx] maps to the resident transaction that declares
    that outpoint at exactly that input index. *)
Theorem spend_index_tracks_inputs (fee : CFeeRate) (held : unassigned)
    (ops : list pool_op) :
  obeys admissible ops (CTxMemPool_new fee held) →
  ∃ p, run ops (CTxMemPool_new fee held) = Done p ∧ index_matches p.
Proof.
  intros Hobeys.
  destruct (run_keeps_index ops _ (new_index_ok fee held)
              (new_counted fee held) Hobeys)
    as (p & Hrun & Hok & Hcnt).
  exists p. split; [done|]. split; [done|]. apply (index_owned p Hok).
Qed.

#[global] Instance obeys_dec ready `{∀ p h e, Decision (ready p h e)} ops p :
  Decision (obeys ready ops p).
Proof.
  revert p. induction ops as [|o ops IH]; intros p; simpl; [apply _|].
  apply and_dec; [destruct o; apply _ | destruct (run_op p o); apply _].
Defined.

(** Closed decidable goals are settled by evaluation. *)
Ltac by_computation :=
  lazymatch goal with
  | |- ?P => apply (bool_decide_unpack P); vm_compute; exact I
  end.

(** C1 as the specification words it fails: with no more than the absence
    of conflicts with resident entries established, a transaction that
    names one outpoint in two inputs leaves one index record for two
    inputs, and an admission under a resident hash leaves the records of
    the entry it overwrites. *)
Lemma spend_index_contract_too_weak :
  ¬ (obeys no_conflict [Sample.add Sample.twice]
       (CTxMemPool_new Sample.fee Sample.zeroed) →
     ∃ p, run [Sample.add Sample.twice]
              (CTxMemPool_new Sample.fee Sample.zeroed) = Done p
          ∧ index_matches p)
  ∧ ¬ (obeys no_conflict
         [Sample.add Sample.T1; OpAdd 1 (Sample.entry_of Sample.T2) true]
         (CTxMemPool_new Sample.fee Sample.zeroed) →
       ∃ p, run [Sample.add Sample.T1; OpAdd 1 (Sample.entry_of Sample.T2) true]
                (CTxMemPool_new Sample.fee Sample.zeroed) = Done p
            ∧ index_matches p).
Proof.
  split; intros Hclaim; destruct Hclaim as (p & Hrun & Hsize & _);
    try by_computation;
    injection Hrun as <-; vm_compute in Hsize; discriminate.
Qed.

Lemma spend_index_tracks_inputs_witness :
  let ops := [Sample.add Sample.T1; Sample.add Sample.T2; Sample.add Sample.T4;
              OpRemove Sample.T1 true; Sample.add Sample.T3] in
  obeys admissible ops (CTxMemPool_new Sample.fee Sample.zeroed)
  ∧ ∃ p, run ops (CTxMemPool_new Sample.fee Sample.zeroed) = Done p
         ∧ index_matches p.
Proof.
  intros ops.
  assert (obeys admissible ops (CTxMemPool_new Sample.fee Sample.zeroed))
    as Hobeys by by_computation.
  split; [exact Hobeys|].
  exact (spend_index_tracks_inputs Sample.fee Sample.zeroed ops Hobeys).
Defined.

(** ** Recursive removal reaches exactly the descendants *)

Section Cascade.
Variable p0 : CTxMemPool.
Variable origTx : CTransaction.

Lemma spends_indexed p c e x n :
  index_ok p → mapTx p !! c = Some e → spends e x n →
  ∃ i j, (i < n)%nat ∧ mapNextTx p !! mkOutPoint x i = Some (mkInPoint c j).
Proof.
  intros Hok He (txin & Hin & Hx & Hn).
  destruct (entry_inputs_indexed p c e txin Hok He Hin) as [j Hj].
  exists (op_n (prevout txin)), j. split; [done|].
  rewrite <- Hx. by destruct (prevout txin).
Qed.

Lemma bfs_skip h rest p :
  bfs_inv p0 origTx (h :: rest) p → mapTx p !! h = None →
  bfs_inv p0 origTx rest p.
Proof.
  intros [Hsub Hok Hhash Hgone Hq Hch Hroot] Hh. split; try done.
  - intros h' Hin. apply Hq. by right.
  - intros x n c e Hx He Hsp.
    destruct (elem_of_cons rest c h) as [Hc _].
    destruct (Hc (Hch x n c e Hx He Hsp)) as [->|?]; [congruence | done].
  - destruct Hroot as [[->|?]%elem_of_cons|?]; auto.
Qed.

Lemma bfs_step h rest p e children :
  bfs_inv p0 origTx (h :: rest) p → mapTx p !! h = Some e →
  spenders p h (seq 0 (length (vout (GetTx e)))) = Done children →
  bfs_inv p0 origTx (rest ++ children) (erase_entry p h e).
Proof.
  intros [Hsub Hok Hhash Hgone Hq Hch Hroot] He Hsp.
  assert (cascade p0 origTx h) as Hh by (apply Hq; left).
  split.
  - intros h' e' He'. simpl in He'.
    apply lookup_delete_Some in He' as [_ He']. by apply Hsub.
  - by apply erase_entry_index_ok.
  - by apply erase_entry_hash_ok.
  - intros h' Hnone Hsome. simpl in Hnone.
    apply lookup_delete_None in Hnone as [<-|Hnone]; [done | by apply Hgone].
  - intros c [Hc|Hc]%elem_of_app; [apply Hq; by right|].
    destruct (spenders_elem_of p h _ _ c Hsp Hc)
      as (i & ip & ec & Hi & Hip & Hec & Hhc).
    apply elem_of_seq in Hi.
    destruct (index_owned p Hok _ _ Hip) as (e2 & txin & He2 & Hn & Hprev).
    assert (e2 = ec) as -> by congruence.
    rewrite (Hhash _ _ _ Hip Hec) in Hhc. subst c.
    apply (cascade_child p0 origTx h e (ptx ip) ec); auto.
    exists txin. rewrite Hprev. simpl.
    split_and!; [by eapply list_elem_of_lookup_2 | done | lia].
  - intros x n c ec Hx Hc Hspends. simpl in Hc.
    apply lookup_delete_Some in Hc as [Hne Hc].
    assert (expanded p0 origTx p x n ∨ (x = h ∧ n = length (vout (GetTx e))))
      as [Hx'|[-> ->]].
    { destruct Hx as [?|(ex & Hex & Hnone & Hn)]; [left; by left|].
      simpl in Hnone. apply lookup_delete_None in Hnone as [<-|Hnone].
      - right. apply Hsub in He. split; congruence.
      - left. right. by exists ex. }
    + apply elem_of_app. left.
      destruct (elem_of_cons rest c h) as [Hcons _].
      destruct (Hcons (Hch x n c ec Hx' Hc Hspends)) as [->|?]; done.
    + apply elem_of_app. right.
      destruct (spends_indexed p c ec h _ Hok Hc Hspends) as (i & j & Hi & Hij).
      rewrite <- (Hhash _ _ _ Hij Hc : GetHash (GetTx ec) = c).
      apply (spenders_complete p h _ children i (mkInPoint c j) ec Hsp);
        [apply elem_of_seq; lia | done | done].
  - simpl. destruct Hroot as [[->|?]%elem_of_cons|Hnone].
    + right. apply lookup_delete_eq.
    + left. apply elem_of_app. by left.
    + right. apply lookup_delete_None. by right.
Qed.

Lemma remove_loop_bfs fuel q p removed p' removed' :
  bfs_inv p0 origTx q p →
  remove_loop fuel true q p removed = Done (p', removed') →
  bfs_inv p0 origTx [] p'.
Proof.
  revert q p removed.
  induction fuel as [|fuel IH]; intros q p removed Hinv Hrun;
    destruct q as [|h rest]; simpl in *; try done.
  - by injection Hrun as <- <-.
  - by injection Hrun as <- <-.
  - destruct (mapTx p !! h) as [e|] eqn:He.
    + apply bind_Done in Hrun as (children & Hsp & Hrun).
      eapply IH; [|exact Hrun]. by apply bfs_step.
    + eapply IH; [|exact Hrun]. by apply (bfs_skip h).
Qed.

Lemma bfs_start children :
  index_ok p0 → hash_ok p0 →
  (if true && negb (exists_ p0 (GetHash origTx))
   then spenders p0 (GetHash origTx) (seq 0 (length (vout origTx)))
   else Done []) = Done children →
  bfs_inv p0 origTx (GetHash origTx :: children) p0.
Proof.
  intros Hok Hhash Hsp. unfold exists_ in Hsp. simpl in Hsp.
  split; try done.
  - intros h Hnone [e He]. congruence.
  - intros c [->|Hc]%elem_of_cons; [constructor|].
    case_bool_decide as Hres; simpl in Hsp;
      [injection Hsp as <-; by apply elem_of_nil in Hc|].
    assert (mapTx p0 !! GetHash origTx = None) as Hnone.
    { destruct (mapTx p0 !! GetHash origTx) eqn:E; [|done].
      destruct Hres. by eexists. }
    destruct (spenders_elem_of p0 _ _ _ c Hsp Hc)
      as (i & ip & ec & Hi & Hip & Hec & Hhc).
    apply elem_of_seq in Hi.
    destruct (index_owned p0 Hok _ _ Hip) as (e2 & txin & He2 & Hn & Hprev).
    assert (e2 = ec) as -> by congruence.
    rewrite (Hhash _ _ _ Hip Hec) in Hhc. subst c.
    apply (cascade_orphan p0 origTx (ptx ip) ec); auto.
    exists txin. rewrite Hprev. simpl.
    split_and!; [by eapply list_elem_of_lookup_2 | done | lia].
  - intros x n c ec [(Hnone & -> & ->)|(ex & Hex & Hnone & _)] Hc Hspends;
      [|congruence].
    right.
    rewrite bool_decide_eq_false_2 in Hsp
      by (rewrite Hnone; by intros [? ?]).
    simpl in Hsp.
    destruct (spends_indexed p0 c ec _ _ Hok Hc Hspends) as (i & j & Hi & Hij).
    rewrite <- (Hhash _ _ _ Hij Hc : GetHash (GetTx ec) = c).
    apply (spenders_complete p0 (GetHash origTx) _ children i
             (mkInPoint c j) ec Hsp);
      [apply elem_of_seq; lia | done | done].
  - left. left.
Qed.

Lemma bfs_finish p' :
  bfs_inv p0 origTx [] p' →
  (∀ h, cascade p0 origTx h → mapTx p' !! h = None)
  ∧ (∀ h, ¬ cascade p0 origTx h → mapTx p' !! h = mapTx p0 !! h).
Proof.
  intros [Hsub Hok Hhash Hgone Hq Hch Hroot]. split.
  - intros h Hc. induction Hc as [|c e Hnone Hc Hsp|x ex c e Hx IH Hex Hc Hsp].
    + destruct Hroot as [Hin|?]; [by apply elem_of_nil in Hin | done].
    + destruct (mapTx p' !! c) as [e'|] eqn:Hc'; [|done].
      assert (e' = e) as -> by (apply Hsub in Hc'; congruence).
      assert (c ∈ ([] : list N)) as Hin; [|by apply elem_of_nil in Hin].
      apply (Hch (GetHash origTx) (length (vout origTx)) c e); [|done..].
      by left.
    + destruct (mapTx p' !! c) as [e'|] eqn:Hc'; [|done].
      assert (e' = e) as -> by (apply Hsub in Hc'; congruence).
      assert (c ∈ ([] : list N)) as Hin; [|by apply elem_of_nil in Hin].
      apply (Hch x (length (vout (GetTx ex))) c e); [|done..].
      right. by exists ex.
  - intros h Hnot.
    destruct (mapTx p' !! h) as [e'|] eqn:Hh'.
    + symmetry. by apply Hsub.
    + destruct (mapTx p0 !! h) as [e|] eqn:Hh; [|done].
      destruct Hnot. apply Hgone; [done|]. by eexists.
Qed.
End Cascade.

(** C3, as the code has it: in a pool that passes the assertions of
    [check] on the spend index, which is then the union of the inputs of
    the entries and points to transactions stored under their own hashes,
    [remove(tx, recursive = true)] returns, erases [tx] (if resident) and
    every resident transaction that spends, directly or through others, an
    output of [tx], erases no other entry, and appends the erased
    transactions, each once, to [removed]; this holds as well when [tx] is
    not resident and resident transactions spend its outputs. *)
Theorem remove_recursive_cascade (p : CTxMemPool) (origTx : CTransaction)
    (removed : list CTransaction) :
  check_spend_index p = true → removes_cascade p origTx removed.
Proof.
  intros [Hok Hhash]%check_spend_index_spec. unfold removes_cascade.
  destruct (remove_Done p origTx removed true Hok) as (p' & rm' & Hrm).
  destruct (remove_erases _ _ _ _ _ _ Hrm) as (l & Her & -> & _).
  exists p', l. split; [done|].
  unfold remove in Hrm. apply bind_Done in Hrm as (children & Hsp & Hloop).
  pose proof (bfs_start p origTx children Hok Hhash Hsp) as Hinv.
  apply (remove_loop_bfs p origTx _ _ _ _ _ _ Hinv) in Hloop.
  destruct (bfs_finish p origTx p' Hloop) as [Hall Honly].
  split_and!; [done | done | by eapply erases_NoDup |].
  intros h e. split.
  - intros Hin. pose proof (erases_elem_of _ _ _ _ _ Her Hin) as Hh.
    split; [|done]. apply (bfs_gone _ _ _ _ Hloop); [|by eexists].
    rewrite (erases_mapTx _ _ _ h Her), decide_True; [done|].
    by apply (list_elem_of_fmap_2' fst l (h, e)).
  - intros [Hc Hh]. pose proof (Hall h Hc) as Hnone.
    rewrite (erases_mapTx _ _ _ h Her) in Hnone.
    case_decide as Hin; [|congruence].
    apply list_elem_of_fmap in Hin as ([h' e'] & -> & Hin). simpl in *.
    pose proof (erases_elem_of _ _ _ _ _ Her Hin) as Hh'.
    by assert (e' = e) as -> by congruence.
Qed.

(** C3 as the specification words it, for every pool state, fails.  After
    [T1] and then [T5], which spends the same outpoint, were admitted with
    the conflict left in place, the spend index names [T5] only: a
    recursive removal of [T0], whose output both spend, leaves [T1].  And
    with [T2] stored under a hash that is not its own, the recursive
    removal of [T1] looks for [T2] under its own hash and leaves it. *)
Lemma remove_recursive_misses_unindexed :
  ¬ removes_cascade Sample.doubly_spent Sample.T0 []
  ∧ ¬ removes_cascade Sample.misfiled Sample.T1 [].
Proof.
  split; intros (p' & l & Hrm & Hall & _).
  - assert (match remove Sample.doubly_spent Sample.T0 [] true with
            | Done (p1, removed) =>
                mapTx p1 !! 1%N = Some (Sample.entry_of Sample.T1)
                ∧ removed = [Sample.T5]
            | _ => False
            end) as Hleft by (vm_compute; done).
    rewrite Hrm in Hleft. destruct Hleft as [Hleft _].
    rewrite Hall in Hleft; [done|].
    apply (cascade_orphan _ _ 1%N (Sample.entry_of Sample.T1)); [done..|].
    exists (Sample.spend 10 0). split_and!; [left | done | simpl; lia].
  - assert (match remove Sample.misfiled Sample.T1 [] true with
            | Done (p1, removed) =>
                mapTx p1 !! 99%N = Some (Sample.entry_of Sample.T2)
                ∧ removed = [Sample.T1]
            | _ => False
            end) as Hleft by (vm_compute; done).
    rewrite Hrm in Hleft. destruct Hleft as [Hleft _].
    rewrite Hall in Hleft; [done|].
    apply (cascade_child _ _ 1%N (Sample.entry_of Sample.T1)
                         99%N (Sample.entry_of Sample.T2));
      [constructor | done..|].
    exists (Sample.spend 1 0). split_and!; [left | done | simpl; lia].
Qed.

Lemma remove_recursive_cascade_witness :
  check_spend_index Sample.chain = true
  ∧ removes_cascade Sample.chain Sample.T1 [].
Proof.
  split; [reflexivity|].
  exact (remove_recursive_cascade Sample.chain Sample.T1 [] eq_refl).
Defined.

(** The chain of the specification: with [T1], [T2] spending [T1], [T3]
    spending [T2], and the unrelated [T4] resident, the recursive removal
    of [T1] removes [T1], [T2] and [T3] and leaves [T4]. *)
Example remove_chain :
  ∃ p', remove Sample.chain Sample.T1 [] true
        = Done (p', [Sample.T1; Sample.T2; Sample.T3])
        ∧ mapTx p' = {[ 4%N := Sample.entry_of Sample.T4 ]}.
Proof. eexists. split; [vm_compute; reflexivity | reflexivity]. Qed.

(** The same with [T1] absent from the pool: its children still go. *)
Example remove_absent_parent :
  let p := Sample.accept (Sample.accept (Sample.accept
             (CTxMemPool_new Sample.fee Sample.zeroed) Sample.T2)
             Sample.T3) Sample.T4 in
  ∃ p', remove p Sample.T1 [] true = Done (p', [Sample.T2; Sample.T3])
        ∧ mapTx p' = {[ 4%N := Sample.entry_of Sample.T4 ]}.
Proof. eexists. split; [vm_compute; reflexivity | reflexivity]. Qed.

(** ** [removeConflicts] and [removeForBlock] *)

Lemma remove_cases p origTx removed fRecursive :
  (∃ p' l,
      remove p origTx removed fRecursive
      = Done (p', removed ++ (GetTx ∘ snd <$> l))
      ∧ erases p l p' ∧ mapTx p' !! GetHash origTx = None)
  ∨ (remove p origTx removed fRecursive = Undefined ∧ ¬ index_ok p).
Proof.
  pose proof (remove_not_Timeout p origTx removed fRecursive) as Htime.
  destruct (remove p origTx removed fRecursive) as [[p' rm']| |] eqn:Hrm.
  - left. apply remove_erases in Hrm as (l & Her & -> & Hgone). by exists p', l.
  - right. split; [done|]. intros Hok.
    by apply (remove_not_Undefined p origTx removed fRecursive Hok).
  - done.
Qed.

Lemma erases_erased_hashes p l p' : erases p l p' → erased_hashes p p' l.*1.
Proof.
  intros Her. split; [by eapply erases_NoDup|].
  intros h. rewrite (erases_mapTx p l p' h Her). split.
  - intros Hin. rewrite decide_True by done. split; [|done].
    apply list_elem_of_fmap in Hin as ([h' e] & -> & Hin).
    exists e. by apply (erases_elem_of p l p').
  - intros [Hres Hgone]. destruct (decide (h ∈ l.*1)); [done|].
    rewrite Hgone in Hres. by destruct Hres.
Qed.

Lemma erases_shrinks p l p' : erases p l p' → shrinks p p'.
Proof.
  intros Her. split.
  - intros h. by apply erases_mapTx_None with l.
  - intros o. by apply erases_mapNextTx_None with l.
  - exists l.*1. split; [by apply erases_erased_hashes | by apply erases_calls].
Qed.

Lemma shrinks_refl p : shrinks p p.
Proof.
  split; [done..|]. exists []. split; [|by rewrite app_nil_r].
  split; [apply NoDup_nil_2|]. intros h. split.
  - by intros ?%elem_of_nil.
  - intros [[e He] Hn]. congruence.
Qed.

Lemma shrinks_trans p1 p2 p3 : shrinks p1 p2 → shrinks p2 p3 → shrinks p1 p3.
Proof.
  intros [Ht1 Hn1 (hs1 & [Hnd1 Hin1] & Hc1)] [Ht2 Hn2 (hs2 & [Hnd2 Hin2] & Hc2)].
  split; [auto..|].
  exists (hs1 ++ hs2). split; [|by rewrite Hc2, Hc1, fmap_app, app_assoc].
  split.
  - apply NoDup_app. split_and!; [done | | done].
    intros h [_ Hgone]%Hin1 [[e He] _]%Hin2. congruence.
  - intros h. rewrite elem_of_app, Hin1, Hin2. split.
    + intros [[Hres Hgone]|[[e He] Hgone]]; [by auto|].
      split; [|done]. destruct (mapTx p1 !! h) eqn:H1; [done|].
      rewrite (Ht1 h H1) in He. done.
    + intros [Hres Hgone]. destruct (mapTx p2 !! h) eqn:H2; [|by left].
      right. by split.
Qed.

Lemma removeConflicts_loop_cases ins t p removed :
  (∃ p' removed' l,
      removeConflicts_loop ins t p removed = Done (p', removed')
      ∧ erases p l p'
      ∧ (index_ok p → hash_ok p → mapTx p !! GetHash t = None →
         ∀ txin, txin ∈ ins → mapNextTx p' !! prevout txin = None))
  ∨ (removeConflicts_loop ins t p removed = Undefined ∧ ¬ index_ok p).
Proof.
  revert p removed. induction ins as [|txin rest IH]; intros p removed.
  { left. exists p, removed, []. split_and!; [done | constructor |].
    intros _ _ _ txin Hin. by apply elem_of_nil in Hin. }
  simpl. destruct (mapNextTx p !! prevout txin) as [ip|] eqn:Hip.
  - destruct (mapTx p !! ptx ip) as [e|] eqn:He.
    + destruct (tx_neq (GetTx e) t) eqn:Hneq.
      * destruct (remove_cases p (GetTx e) removed true)
          as [(p1 & l1 & Hrm & Her1 & Hgone)|[Hrm Hbad]];
          rewrite Hrm; simpl; [|by right].
        destruct (IH p1 (removed ++ (GetTx ∘ snd <$> l1)))
          as [(p2 & rm2 & l2 & Hloop & Her2 & Hfacts)|[Hloop Hbad]].
        -- left. exists p2, rm2, (l1 ++ l2).
           split_and!; [done | by eapply erases_app |].
           intros Hok Hhash Ht txin' [->|Hin]%elem_of_cons.
           ++ apply (erases_mapNextTx_None _ _ _ _ Her2).
              destruct (mapNextTx p1 !! prevout txin) as [ip'|] eqn:Hip';
                [|done].
              pose proof (erases_mapNextTx_Some _ _ _ _ _ Her1 Hip') as Hsame.
              assert (ip' = ip) as -> by congruence.
              destruct (index_owned p1 (erases_index_ok _ _ _ Her1 Hok) _ _ Hip')
                as (e' & _ & He' & _).
              rewrite (Hhash _ _ _ Hip He) in Hgone. congruence.
           ++ apply Hfacts; [by eapply erases_index_ok | by eapply erases_hash_ok
                            | by eapply erases_mapTx_None | done].
        -- right. split; [done|]. intros Hok. apply Hbad.
           by eapply erases_index_ok.
      * destruct (IH p removed)
          as [(p2 & rm2 & l2 & Hloop & Her2 & Hfacts)|[Hloop Hbad]];
          [left | by right].
        exists p2, rm2, l2. split_and!; [done..|].
        intros Hok Hhash Ht. exfalso.
        unfold tx_neq in Hneq. apply negb_false_iff, N.eqb_eq in Hneq.
        rewrite (Hhash _ _ _ Hip He) in Hneq. congruence.
    + right. split; [done|]. intros Hok.
      destruct (index_owned p Hok _ _ Hip) as (e' & _ & He' & _). congruence.
  - destruct (IH p removed)
      as [(p2 & rm2 & l2 & Hloop & Her2 & Hfacts)|[Hloop Hbad]];
      [left | by right].
    exists p2, rm2, l2. split_and!; [done..|].
    intros Hok Hhash Ht txin' [->|Hin]%elem_of_cons; [|by apply Hfacts].
    by apply (erases_mapNextTx_None _ _ _ _ Her2).
Qed.

Lemma removeForBlock_loop_cases vtx p conflicts :
  (∃ p' conflicts',
      removeForBlock_loop vtx p conflicts = Done (p', conflicts')
      ∧ mapDeltas p' = foldl (λ d t, delete (GetHash t) d) (mapDeltas p) vtx
      ∧ shrinks p p'
      ∧ (index_ok p → hash_ok p →
         index_ok p' ∧ hash_ok p'
         ∧ ∀ t, t ∈ vtx →
             mapTx p' !! GetHash t = None
             ∧ ∀ txin, txin ∈ vin t → mapNextTx p' !! prevout txin = None))
  ∨ (removeForBlock_loop vtx p conflicts = Undefined ∧ ¬ index_ok p).
Proof.
  revert p conflicts. induction vtx as [|t rest IH]; intros p conflicts.
  { left. exists p, conflicts. split_and!; [done | done | apply shrinks_refl |].
    intros Hok Hhash. split_and!; [done..|].
    intros t Hin. by apply elem_of_nil in Hin. }
  simpl.
  destruct (remove_cases p t [] false)
    as [(p1 & l1 & Hrm & Her1 & Hgone)|[Hrm Hbad]];
    rewrite Hrm; simpl; [|by right].
  unfold removeConflicts.
  destruct (removeConflicts_loop_cases (vin t) t p1 conflicts)
    as [(p2 & c2 & l2 & Hloop & Her2 & Hfacts)|[Hloop Hbad]];
    rewrite Hloop; simpl;
    [|right; split; [done|]; intros Hok; apply Hbad; by eapply erases_index_ok].
  destruct (IH (ClearPrioritisation p2 (GetHash t)) c2)
    as [(p3 & c3 & Hrest & Hdeltas & Hshr & Hfacts3)|[Hrest Hbad]].
  - left. exists p3, c3. split_and!; [done | | |].
    + rewrite Hdeltas. simpl.
      by rewrite (erases_mapDeltas _ _ _ Her2), (erases_mapDeltas _ _ _ Her1).
    + apply (shrinks_trans p p1); [by eapply erases_shrinks|].
      apply (shrinks_trans p1 p2); [by eapply erases_shrinks|].
      destruct Hshr as [Ht Hn Hc]. by split.
    + intros Hok Hhash.
      pose proof (erases_index_ok _ _ _ Her1 Hok) as Hok1.
      pose proof (erases_hash_ok _ _ _ Her1 Hhash) as Hhash1.
      pose proof (erases_index_ok _ _ _ Her2 Hok1) as Hok2.
      pose proof (erases_hash_ok _ _ _ Her2 Hhash1) as Hhash2.
      destruct Hfacts3 as (Hok3 & Hhash3 & Hclear); [by destruct Hok2 | done |].
      split_and!; [done..|].
      intros t' [->|Hin]%elem_of_cons; [|by apply Hclear].
      destruct Hshr as [Ht Hn _]. split.
      * apply Ht. simpl. by eapply erases_mapTx_None.
      * intros txin Hin. apply Hn. simpl. by apply Hfacts.
  - right. split; [done|]. intros Hok. apply Hbad.
    pose proof (erases_index_ok _ _ _ Her1 Hok) as Hok1.
    pose proof (erases_index_ok _ _ _ Her2 Hok1) as Hok2.
    by destruct Hok2.
Qed.

(** C2, as the code has it: in a pool that passes the assertions of
    [check] on the spend index, which is then the union of the inputs of
    the entries and points to transactions stored under their own hashes,
    [removeForBlock] returns, and afterwards no transaction of [vtx] and no
    transaction that spends an outpoint spent by an input of a transaction
    of [vtx] is resident; the estimator is told of the removal of each
    entry that the call erased, once, and of the removal of no other, and
    then, with [nBlockHeight], of the entries that the transactions of
    [vtx] had in the pool before the call. *)
Theorem removeForBlock_clears (p : CTxMemPool) (vtx : list CTransaction)
    (nBlockHeight : Z) (conflicts : list CTransaction)
    (fCurrentEstimate : bool) :
  check_spend_index p = true →
  confirms_block p vtx nBlockHeight conflicts fCurrentEstimate.
Proof.
  intros [Hok Hhash]%check_spend_index_spec.
  unfold confirms_block, removeForBlock.
  destruct (removeForBlock_loop_cases vtx p conflicts)
    as [(p1 & c1 & Hloop & _ & Hshr & Hfacts)|[_ Hbad]]; [|done].
  destruct (Hfacts Hok Hhash) as (Hok1 & _ & Hclear).
  destruct Hshr as [_ _ (hs & Herased & Hcalls)].
  rewrite Hloop. simpl. eexists _, c1, hs. split; [done|]. split_and!.
  - intros t Hin. destruct (Hclear t Hin) as [Hgone Hfree].
    split; [done|]. simpl.
    intros (h & e & txin & txin' & He & Hin1 & Hin2 & Heq). simpl in He.
    destruct (entry_inputs_indexed p1 h e txin' Hok1 He Hin2) as [i Hi].
    rewrite <- Heq, (Hfree txin Hin1) in Hi. done.
  - exact Herased.
  - simpl. by rewrite Hcalls, <- app_assoc.
Qed.

(** C2 as the specification words it, after any call, fails.  With [T1]
    and [T5] resident, which spend the same outpoint, the removal of the
    confirmed [T1] erases the one index record of that outpoint, and [T5]
    stays.  And with [T2] stored under a hash that is not its own, the
    eviction of [T2] as a conflict of the confirmed [T9] looks for it
    under its own hash, and [T2] stays. *)
Lemma removeForBlock_misses_unindexed :
  (∃ p' conflicts',
      removeForBlock Sample.doubly_spent [Sample.T1] 101 [] true
      = Done (p', conflicts')
      ∧ mapTx p' !! 5%N = Some (Sample.entry_of Sample.T5)
      ∧ ¬ block_cleared [Sample.T1] p')
  ∧ (∃ p' conflicts',
        removeForBlock Sample.misfiled [Sample.T9] 101 [] true
        = Done (p', conflicts')
        ∧ mapTx p' !! 99%N = Some (Sample.entry_of Sample.T2)
        ∧ ¬ block_cleared [Sample.T9] p').
Proof.
  split.
  - assert (match removeForBlock Sample.doubly_spent [Sample.T1] 101 [] true
            with
            | Done (p1, _) =>
                mapTx p1 !! 5%N = Some (Sample.entry_of Sample.T5)
            | _ => False
            end) as Hleft by (vm_compute; done).
    destruct (removeForBlock Sample.doubly_spent [Sample.T1] 101 [] true)
      as [[p' c']| |]; [|done..].
    exists p', c'. split_and!; [done..|]. intros Hclear.
    destruct (Hclear Sample.T1) as [_ Hfree]; [left|]. apply Hfree.
    exists 5%N, (Sample.entry_of Sample.T5), (Sample.spend 10 0),
           (Sample.spend 10 0).
    split_and!; [done | left | left | done].
  - assert (match removeForBlock Sample.misfiled [Sample.T9] 101 [] true with
            | Done (p1, _) =>
                mapTx p1 !! 99%N = Some (Sample.entry_of Sample.T2)
            | _ => False
            end) as Hleft by (vm_compute; done).
    destruct (removeForBlock Sample.misfiled [Sample.T9] 101 [] true)
      as [[p' c']| |]; [|done..].
    exists p', c'. split_and!; [done..|]. intros Hclear.
    destruct (Hclear Sample.T9) as [_ Hfree]; [left|]. apply Hfree.
    exists 99%N, (Sample.entry_of Sample.T2), (Sample.spend 1 0),
           (Sample.spend 1 0).
    split_and!; [done | left | left | done].
Qed.

Lemma removeForBlock_clears_witness :
  check_spend_index Sample.chain = true
  ∧ confirms_block Sample.chain [Sample.T5; Sample.T4] 101 [] true.
Proof.
  split; [reflexivity|].
  exact (removeForBlock_clears Sample.chain [Sample.T5; Sample.T4] 101 [] true
           eq_refl).
Defined.

(** A block that confirms [T4] and a transaction [T5] in conflict with the
    resident [T1]: [T1] goes with its descendants, and the estimator hears
    of the entry [T4] had. *)
Example removeForBlock_chain :
  ∃ p', removeForBlock Sample.chain [Sample.T5; Sample.T4] 101 [] true
        = Done (p', [Sample.T1; Sample.T2; Sample.T3])
        ∧ mapTx p' = ∅ ∧ mapNextTx p' = ∅
        ∧ minerPolicyEstimator p'
          = minerPolicyEstimator Sample.chain
            ++ [removeTx 1; removeTx 2; removeTx 3; removeTx 4;
                processBlock 101 [Sample.entry_of Sample.T4] true].
Proof. eexists. split; [vm_compute; reflexivity | done]. Qed.

(** ** Prioritisation deltas *)

Lemma lookup_clear_deltas (vtx : list CTransaction) (d : gmap N (float * Z)) h :
  foldl (λ d t, delete (GetHash t) d) d vtx !! h
  = if decide (h ∈ GetHash <$> vtx) then None else d !! h.
Proof.
  revert d. induction vtx as [|t vtx IH]; intros d.
  - by rewrite decide_False by apply not_elem_of_nil.
  - simpl. rewrite IH. destruct (decide (h = GetHash t)) as [->|Hne].
    + rewrite lookup_delete_eq, (decide_True (P := _ ∈ _ :: _)) by left.
      by case_decide.
    + rewrite lookup_delete_ne by done.
      destruct (decide (h ∈ GetHash <$> vtx)) as [Hin|Hin].
      * by rewrite decide_True by (by right).
      * rewrite decide_False; [done|]. by intros [?|?]%elem_of_cons.
Qed.

(** C5: [PrioritiseTransaction] records the accumulated delta of a hash;
    no [remove] and no [removeConflicts] changes any recorded delta,
    whatever they erase; [removeForBlock] erases the deltas of exactly the
    hashes of the transactions of [vtx] and changes no other.  Each of the
    three returns, unless the spend index names an entry that is gone. *)
Theorem deltas_survive_removal_until_confirmed :
  (∀ p hash dPriorityDelta nFeeDelta,
      mapDeltas (PrioritiseTransaction p hash dPriorityDelta nFeeDelta) !! hash
      = Some (((default (0%float, 0%Z) (mapDeltas p !! hash)).1
               + dPriorityDelta)%float,
              (default (0%float, 0%Z) (mapDeltas p !! hash)).2 + nFeeDelta))
  ∧ (∀ p origTx removed fRecursive,
        match remove p origTx removed fRecursive with
        | Done (p', _) => mapDeltas p' = mapDeltas p
        | Undefined => ¬ index_ok p
        | Timeout => False
        end)
  ∧ (∀ p t removed,
        match removeConflicts p t removed with
        | Done (p', _) => mapDeltas p' = mapDeltas p
        | Undefined => ¬ index_ok p
        | Timeout => False
        end)
  ∧ (∀ p vtx nBlockHeight conflicts fCurrentEstimate,
        match removeForBlock p vtx nBlockHeight conflicts fCurrentEstimate with
        | Done (p', _) =>
            ∀ hash, mapDeltas p' !! hash
                    = if decide (hash ∈ GetHash <$> vtx) then None
                      else mapDeltas p !! hash
        | Undefined => ¬ index_ok p
        | Timeout => False
        end).
Proof.
  split_and!.
  - intros p hash dP dF. unfold PrioritiseTransaction. simpl.
    apply lookup_insert_eq.
  - intros p origTx removed fRecursive.
    destruct (remove_cases p origTx removed fRecursive)
      as [(p' & l & -> & Her & _)|[-> Hbad]]; [|done].
    by eapply erases_mapDeltas.
  - intros p t removed. unfold removeConflicts.
    destruct (removeConflicts_loop_cases (vin t) t p removed)
      as [(p' & rm' & l & -> & Her & _)|[-> Hbad]]; [|done].
    by eapply erases_mapDeltas.
  - intros p vtx nBlockHeight conflicts fCurrentEstimate.
    unfold removeForBlock.
    destruct (removeForBlock_loop_cases vtx p conflicts)
      as [(p' & c' & -> & Hdeltas & _)|[-> Hbad]]; [|done].
    simpl. intros hash. rewrite Hdeltas. apply lookup_clear_deltas.
Qed.

(** A delta set for [T1] is still there once [T1] has been evicted as a
    conflict of the confirmed [T5], and is gone once [T1] is confirmed. *)
Example delta_evicted_then_confirmed :
  let p := PrioritiseTransaction Sample.chain 1 1000%float 50 in
  (∃ p', removeForBlock p [Sample.T5] 101 [] true
         = Done (p', [Sample.T1; Sample.T2; Sample.T3])
         ∧ ApplyDeltas p' 1 0%float 0 = (1000%float, 50))
  ∧ (∃ p', removeForBlock p [Sample.T1] 101 [] true = Done (p', [])
           ∧ ApplyDeltas p' 1 0%float 0 = (0%float, 0)).
Proof. split; eexists; (split; [vm_compute; reflexivity | done]). Qed.

(** ** [clear] *)

(** C10: [clear] empties [mapTx] and [mapNextTx], zeroes [totalTxSize] and
    increments [nTransactionsUpdated] (an [unsigned int]); it leaves
    [mapDeltas] as it is, so that [ApplyDeltas] gives after [clear] what it
    gave before, which for a hash with a recorded delta is the base values
    with that delta added. *)
Theorem clear_keeps_deltas (p : CTxMemPool) :
  mapTx (clear p) = ∅ ∧ mapNextTx (clear p) = ∅
  ∧ totalTxSize (clear p) = 0
  ∧ nTransactionsUpdated (clear p) = wrap32 (nTransactionsUpdated p + 1)
  ∧ mapDeltas (clear p) = mapDeltas p
  ∧ (∀ hash dPriorityDelta nFeeDelta,
        ApplyDeltas (clear p) hash dPriorityDelta nFeeDelta
        = ApplyDeltas p hash dPriorityDelta nFeeDelta)
  ∧ (∀ hash deltas dPriorityDelta nFeeDelta,
        mapDeltas p !! hash = Some deltas →
        ApplyDeltas (clear p) hash dPriorityDelta nFeeDelta
        = ((dPriorityDelta + deltas.1)%float, nFeeDelta + deltas.2)).
Proof.
  split_and!; try done.
  intros hash deltas dP dF Hd. unfold ApplyDeltas. simpl. by rewrite Hd.
Qed.

Lemma clear_keeps_deltas_witness :
  let p := PrioritiseTransaction Sample.chain 1 1000%float 50 in
  mapDeltas p !! 1%N = Some (1000%float, 50)
  ∧ mapTx (clear p) = ∅ ∧ mapNextTx (clear p) = ∅
  ∧ nTransactionsUpdated (clear p) = 5
  ∧ ApplyDeltas (clear p) 1 2%float 7 = (1002%float, 57).
Proof.
  intros p.
  assert (mapDeltas p !! 1%N = Some (1000%float, 50)) as Hdelta
    by reflexivity.
  destruct (clear_keeps_deltas p) as (Htx & Hnext & _ & Hupd & _ & _ & Happly).
  split_and!; [exact Hdelta | exact Htx | exact Hnext | exact Hupd |].
  exact (Happly 1%N (1000%float, 50) 2%float 7 Hdelta).
Defined.

(** ** [GetPriority] *)

(** C4, as the code has it: for a current height that is not below the
    height of acceptance, [GetPriority] is the priority at acceptance plus
    [(currentHeight - acceptanceHeight) * valueIn / modifiedSize], with
    [valueIn] the total output value plus the fee, in [double] arithmetic;
    and for an entry of priority 0 at acceptance, fee 1000, total output
    value 9000 and modified size 250, ten blocks after acceptance, it is
    [10 * 10000 / 250 = 400]. *)
Theorem GetPriority_grows_linearly :
  (∀ e currentHeight,
      0 ≤ nHeight e ≤ currentHeight → currentHeight < 2 ^ 32 →
      GetPriority e currentHeight = priorityAt e currentHeight)
  ∧ (∀ e,
        dPriority e = 0%float → nFee e = 1000 →
        GetValueOut (tx e) = 9000 → nModSize e = 250 →
        GetPriority e (nHeight e + 10) = 400%float).
Proof.
  split.
  - intros e h Hlow Hhigh. unfold GetPriority, priorityAt, wrap32.
    rewrite Z.mod_small by lia. done.
  - intros e Hp Hfee Hout Hsize. unfold GetPriority, wrap32.
    rewrite Hp, Hfee, Hout, Hsize.
    replace (nHeight e + 10 - nHeight e) with 10 by lia.
    vm_compute. reflexivity.
Qed.

(** C4 as the specification words it, for every current height, fails
    below the height of acceptance: the difference is taken in
    [unsigned int] and wraps around. *)
Lemma GetPriority_wraps_below_acceptance :
  GetPriority Sample.aged 90 ≠ priorityAt Sample.aged 90
  ∧ priorityAt Sample.aged 90 = (-400)%float
  ∧ GetPriority Sample.aged 90 = 171798691440%float.
Proof. vm_compute. split_and!; [discriminate | reflexivity..]. Qed.

Lemma GetPriority_grows_linearly_witness :
  (0 ≤ nHeight Sample.aged ≤ 110 ∧ 110 < 2 ^ 32)
  ∧ GetPriority Sample.aged 110 = priorityAt Sample.aged 110
  ∧ GetPriority Sample.aged (nHeight Sample.aged + 10) = 400%float.
Proof.
  assert (0 ≤ nHeight Sample.aged ≤ 110) as Hlow by (simpl; lia).
  assert (110 < 2 ^ 32) as Hhigh by lia.
  split; [done|]. split.
  - exact (proj1 GetPriority_grows_linearly Sample.aged 110 Hlow Hhigh).
  - exact (proj2 GetPriority_grows_linearly Sample.aged
             eq_refl eq_refl eq_refl eq_refl).
Defined.

(** ** [GetCoins] *)

(** C9: for a resident [txid], [GetCoins] returns true and the coins built
    from the resident transaction at the sentinel height; otherwise it
    returns what the backing view returns, but false when the coins the
    view produced are pruned. *)
Theorem GetCoins_overlays_pool {CCoins : Type}
    (CCoins_FromTx : CTransaction → Z → CCoins) (IsPruned : CCoins → bool)
    (MEMPOOL_HEIGHT : Z) (base_GetCoins : N → CCoins → bool * CCoins)
    (mempool : CTxMemPool) (txid : N) (coins : CCoins) :
  let GetCoins :=
    GetCoins CCoins CCoins_FromTx IsPruned MEMPOOL_HEIGHT base_GetCoins in
  (∀ e, mapTx mempool !! txid = Some e →
        GetCoins mempool txid coins
        = (true, CCoins_FromTx (GetTx e) MEMPOOL_HEIGHT))
  ∧ (∀ found coins',
        mapTx mempool !! txid = None →
        base_GetCoins txid coins = (found, coins') →
        GetCoins mempool txid coins
        = (if IsPruned coins' then false else found, coins')).
Proof.
  unfold GetCoins, lookup. split.
  - intros e ->. done.
  - intros found coins' -> ->. by destruct found, (IsPruned coins').
Qed.

(** ** [GetMinFee] *)

Lemma double2amount_zero f : (f =? 0)%float = true → double2amount f = 0.
Proof.
  rewrite FloatAxioms.eqb_spec. unfold double2amount.
  change (Prim2SF 0) with (S754_zero false).
  destruct (Prim2SF f) as [s|s| |s m e];
    [done | destruct s; discriminate | discriminate | destruct s; discriminate].
Qed.

Lemma CFeeRate_max_ge a b : GetFeePerK b ≤ GetFeePerK (CFeeRate_max a b).
Proof. unfold CFeeRate_max. case_match; lia. Qed.

(** C8: whatever the clock, the memory in use and the library's [pow]
    are, the fee [GetMinFee] returns is zero or at least the relay fee;
    the stored floor and time change only when [time] is more than 10
    seconds past the last update; when the floor, decayed then, is below
    half the relay fee, zero is stored and returned; and a stored floor of
    zero gives zero and changes nothing. *)
Theorem GetMinFee_zero_or_relay_fee (ROLLING_FEE_HALFLIFE : Z)
    (pow : float → float → float) (DynamicMemoryUsage : CTxMemPool → Z)
    (p : CTxMemPool) (time sizelimit : Z) :
  let r := GetMinFee ROLLING_FEE_HALFLIFE pow DynamicMemoryUsage
             p time sizelimit in
  let decayed := decayed_rate ROLLING_FEE_HALFLIFE pow DynamicMemoryUsage
                   p time sizelimit in
  let half := Z2double (GetFeePerK (minRelayFee p) ÷ 2) in
  (GetFeePerK r.1 = 0 ∨ GetFeePerK (minRelayFee p) ≤ GetFeePerK r.1)
  ∧ (r.2 ≠ p → lastRollingFeeUpdate p + 10 < time)
  ∧ ((rollingMinimumFeeRate p =? 0)%float = false →
     lastRollingFeeUpdate p + 10 < time →
     r = if (decayed <? half)%float
         then (mkFeeRate 0, set_rolling p 0 time)
         else (CFeeRate_max (mkFeeRate (double2amount decayed)) (minRelayFee p),
               set_rolling p decayed time))
  ∧ ((rollingMinimumFeeRate p =? 0)%float = true → r = (mkFeeRate 0, p)).
Proof.
  unfold GetMinFee.
  destruct (rollingMinimumFeeRate p =? 0)%float eqn:Hzero.
  { simpl. rewrite (double2amount_zero _ Hzero). split_and!; auto; done. }
  destruct (lastRollingFeeUpdate p + 10 <? time) eqn:Htime.
  - apply Z.ltb_lt in Htime.
    match goal with
    | |- context [if (?x <? ?y)%float then _ else _] =>
        destruct (x <? y)%float eqn:Hhalf
    end; simpl; (split_and!; auto; try done).
    right. apply CFeeRate_max_ge.
  - apply Z.ltb_ge in Htime. simpl. split_and!; auto; try done; try lia.
    right. apply CFeeRate_max_ge.
Qed.

(** ** Loading the fee estimates *)





Section Loading.
Context {byte : Type}.
Context `{Serializer byte Z}.
Context `{Serializer byte (list CFeeRate)} `{Serializer byte (list float)}.


End Loading.


(** The same estimator on a file of sound samples, and the refusals of
    the two files above as the code has them. *)
Example ReadFeeEstimates_sample_files :
  ReadFeeEstimates 120000 (Sample.bucket_Read Sample.fee) CBlockAverage.new
    Sample.file_good
  = (true,
     with_samples CBlockAverage.new
       ([mkFeeRate 1500; mkFeeRate 0], [0%float; 57.5%float]),
     [])
  ∧ samples_refused not_nonnegative (int64 (GetFeePerK Sample.fee * 10000))
      (drop 2 Sample.file_nan)
  ∧ samples_refused not_nonnegative
      (int64 (GetFeePerK Sample.high_fee * 10000)) (drop 2 Sample.file_low)
  ∧ int64 (GetFeePerK Sample.high_fee * 10000) = -9223372036854771616.
Proof.
  split_and!; [reflexivity | | | reflexivity].
  - right. apply Exists_cons. by left.
  - left. apply Exists_cons. left. right. by vm_compute.
Qed.

(** ** Writing a bucket and reading it back *)

(** C7: provided the stream gives back what was written to it, a bucket
    whose fee-rate samples and priority samples are all sane, written with
    [Write] and read back with [Read] into an empty bucket, is read
    without an exception, up to the end of what was written, and the
    bucket read has the same fee-rate samples and the same priority
    samples, in the same order. *)
Theorem Write_Read_same_samples {byte : Type}
    `{Serializer byte (list CFeeRate)} `{Serializer byte (list float)}
    (b : CBlockAverage.t) (minRelayFee : CFeeRate) (rest : list byte) :
  SerializerLaw byte (list CFeeRate) → SerializerLaw byte (list float) →
  CBlockAverage.AreSane_fees (cb_items (CBlockAverage.feeSamples b))
                             minRelayFee = true →
  CBlockAverage.AreSane_priorities
    (cb_items (CBlockAverage.prioritySamples b)) = true →
  ∃ b',
    CBlockAverage.Read CBlockAverage.new (CBlockAverage.Write b [] ++ rest)
                       minRelayFee
    = (None, b', rest)
    ∧ cb_items (CBlockAverage.feeSamples b')
      = cb_items (CBlockAverage.feeSamples b)
    ∧ cb_items (CBlockAverage.prioritySamples b')
      = cb_items (CBlockAverage.prioritySamples b).
Proof.
  intros Hfees Hdoubles Hsane_fees Hsane_priorities.
  unfold CBlockAverage.Read, CBlockAverage.Write.
  rewrite app_nil_l, <- app_assoc, Hfees, Hsane_fees, Hdoubles.
  simpl. rewrite Hsane_priorities.
  eexists. split; [reflexivity|]. simpl.
  split; apply keep_last_fits, cb_bound.
Qed.

Lemma Write_Read_same_samples_witness :
  SerializerLaw datum (list CFeeRate) ∧ SerializerLaw datum (list float)
  ∧ CBlockAverage.AreSane_fees
      (cb_items (CBlockAverage.feeSamples Sample.bucket)) Sample.fee = true
  ∧ CBlockAverage.AreSane_priorities
      (cb_items (CBlockAverage.prioritySamples Sample.bucket)) = true
  ∧ ∃ b',
      CBlockAverage.Read CBlockAverage.new
        (CBlockAverage.Write Sample.bucket [] ++ [DInt 7]) Sample.fee
      = (None, b', [DInt 7])
      ∧ cb_items (CBlockAverage.feeSamples b')
        = cb_items (CBlockAverage.feeSamples Sample.bucket)
      ∧ cb_items (CBlockAverage.prioritySamples b')
        = cb_items (CBlockAverage.prioritySamples Sample.bucket).
Proof.
  assert (SerializerLaw datum (list CFeeRate)) as Hfees
    by (intros x rest; reflexivity).
  assert (SerializerLaw datum (list float)) as Hdoubles
    by (intros x rest; reflexivity).
  split_and!; [exact Hfees | exact Hdoubles | reflexivity | reflexivity |].
  exact (Write_Read_same_samples Sample.bucket Sample.fee [DInt 7]
           Hfees Hdoubles eq_refl eq_refl).
Defined.

(** A full bucket drops its oldest sample when one more is recorded. *)
Example full_bucket_drops_oldest :
  let full := foldl CBlockAverage.RecordFee CBlockAverage.new
                (mkFeeRate <$> seqZ 0 100) in
  cb_items (CBlockAverage.feeSamples
              (CBlockAverage.RecordFee full (mkFeeRate 100)))
  = mkFeeRate <$> seqZ 1 100.
Proof. reflexivity. Qed.

Lemma GetCoins_overlays_pool_witness :
  let view :=
    GetCoins _ Sample.coins_of snd 2147483647 Sample.backing Sample.chain in
  (mapTx Sample.chain !! 1%N = Some (Sample.entry_of Sample.T1)
   ∧ view 1%N (None, 0, false)
     = (true, (Some Sample.T1, 2147483647, false)))
  ∧ (mapTx Sample.chain !! 10%N = None
     ∧ view 10%N (None, 0, false) = (true, (Some Sample.T0, 50, false)))
  ∧ (mapTx Sample.chain !! 11%N = None
     ∧ view 11%N (None, 0, false) = (false, (None, 60, true)))
  ∧ (mapTx Sample.chain !! 12%N = None
     ∧ view 12%N (None, 0, false) = (false, (None, 0, false))).
Proof.
  intros view.
  pose (overlay := GetCoins_overlays_pool Sample.coins_of snd 2147483647
                     Sample.backing Sample.chain).
  refine (conj (conj eq_refl _) (conj (conj eq_refl _)
            (conj (conj eq_refl _) (conj eq_refl _)))).
  - exact (proj1 (overlay 1%N (None, 0, false)) _ eq_refl).
  - exact (proj2 (overlay 10%N (None, 0, false)) _ _ eq_refl eq_refl).
  - exact (proj2 (overlay 11%N (None, 0, false)) _ _ eq_refl eq_refl).
  - exact (proj2 (overlay 12%N (None, 0, false)) _ _ eq_refl eq_refl).
Defined.

Lemma GetMinFee_zero_or_relay_fee_witness :
  let GetMinFee := GetMinFee Sample.halflife Sample.pow_whole (λ _, 1000) in
  let halved := set_rolling Sample.raised 2500%float 44200 in
  (* one half-life after the floor was raised: it is halved *)
  GetMinFee Sample.raised 44200 1000 = (mkFeeRate 2500, halved)
  (* within ten seconds of that: nothing is recomputed *)
  ∧ GetMinFee halved 44210 1000 = (mkFeeRate 2500, halved)
  (* three half-lives later it is below half the relay fee: zero *)
  ∧ GetMinFee halved 173800 1000
    = (mkFeeRate 0, set_rolling halved 0%float 173800)
  ∧ GetMinFee (set_rolling halved 0%float 173800) 999999 1000
    = (mkFeeRate 0, set_rolling halved 0%float 173800).
Proof.
  intros GetMinFee halved.
  pose (floor := GetMinFee_zero_or_relay_fee Sample.halflife Sample.pow_whole
                   (λ _, 1000)).
  split_and!.
  - exact (proj1 (proj2 (proj2 (floor Sample.raised 44200 1000)))
             eq_refl eq_refl).
  - reflexivity.
  - exact (proj1 (proj2 (proj2 (floor halved 173800 1000))) eq_refl eq_refl).
  - exact (proj2 (proj2 (proj2
             (floor (set_rolling halved 0%float 173800) 999999 1000)))
             eq_refl).
Defined.

(** ** The samples, run *)

(** The two pools of the counterexamples fail the assertions of [check];
    the chain passes them. *)
Example check_samples :
  check_spend_index Sample.chain = true
  ∧ check_spend_index Sample.doubly_spent = false
  ∧ check_spend_index Sample.misfiled = false.
Proof. by vm_compute. Qed.

Example HasNoInputsOf_chain :
  HasNoInputsOf Sample.chain Sample.T2 = false
  ∧ HasNoInputsOf Sample.chain Sample.T5 = true.
Proof. by vm_compute. Qed.

Example HaveCoins_chain :
  let have := HaveCoins (λ txid, (txid =? 10)%N) Sample.chain in
  have 1%N = true ∧ have 10%N = true ∧ have 12%N = false.
Proof. by vm_compute. Qed.

(** A whole file, written and read back by a client of the same version;
    and a file with room for three objects, on which the writing fails. *)
Example estimates_file_round_trip :
  let written :=
    WriteFeeEstimates 120000 (Sample.bucket_Write 10) (Sample.write_room 10)
      Sample.bucket [] in
  let read :=
    ReadFeeEstimates 120000 (Sample.bucket_Read Sample.fee) CBlockAverage.new
      written.2 in
  written.1 = true ∧ read.1.1 = true ∧ read.2 = []
  ∧ cb_items (CBlockAverage.feeSamples read.1.2)
    = cb_items (CBlockAverage.feeSamples Sample.bucket)
  ∧ cb_items (CBlockAverage.prioritySamples read.1.2)
    = cb_items (CBlockAverage.prioritySamples Sample.bucket)
  ∧ WriteFeeEstimates 120000 (Sample.bucket_Write 3) (Sample.write_room 3)
      Sample.bucket []
    = (false,
       [DInt 120000; DInt 120000; DFees [mkFeeRate 1500; mkFeeRate 2000]]).
Proof. by vm_compute. Qed.

(** * Further properties of the code *)

(** ** Maps in the order of their keys *)

Section KeyOrder.
Context {K V : Type} `{Countable K}.
Context (le : relation K) `{∀ a b, Decision (le a b)}.

Lemma in_key_order_Permutation (m : gmap K V) :
  in_key_order le m ≡ₚ map_to_list m.
Proof. apply merge_sort_Permutation. Qed.

Lemma elem_of_in_key_order (m : gmap K V) k v :
  (k, v) ∈ in_key_order le m ↔ m !! k = Some v.
Proof. by rewrite in_key_order_Permutation, elem_of_map_to_list. Qed.

Lemma NoDup_in_key_order (m : gmap K V) : NoDup (in_key_order le m).*1.
Proof. rewrite in_key_order_Permutation. apply NoDup_fst_map_to_list. Qed.

Lemma elem_of_keys_in_key_order (m : gmap K V) k :
  k ∈ (in_key_order le m).*1 ↔ is_Some (m !! k).
Proof.
  rewrite list_elem_of_fmap. split.
  - intros ([k' v] & -> & Hin). apply elem_of_in_key_order in Hin. by eexists.
  - intros [v Hv]. exists (k, v). split; [done|]. by apply elem_of_in_key_order.
Qed.

Lemma length_in_key_order (m : gmap K V) :
  length (in_key_order le m) = size m.
Proof. by rewrite in_key_order_Permutation, length_map_to_list. Qed.

Lemma in_key_order_sorted `{!Transitive le, !Total le} (m : gmap K V) :
  StronglySorted le (in_key_order le m).*1.
Proof.
  assert (StronglySorted (λ a b : K * V, le a.1 b.1) (in_key_order le m)) as Hs.
  { apply StronglySorted_merge_sort.
    - intros a b c. apply transitivity.
    - intros a b. apply total; apply _. }
  induction Hs as [|x l _ IH Hall]; simpl; constructor; [done|].
  apply Forall_fmap. by apply (Forall_impl _ _ _ Hall).
Qed.
End KeyOrder.

#[global] Instance COutPoint_le_trans : Transitive COutPoint_le.
Proof.
  intros a b c. unfold COutPoint_le.
  intros [?|[? ?]] [?|[? ?]]; [left; lia..|]. right. split; [congruence | lia].
Qed.

#[global] Instance COutPoint_le_total : Total COutPoint_le.
Proof.
  intros a b. unfold COutPoint_le.
  destruct (N.lt_total (op_hash a) (op_hash b)) as [?|[?|?]];
    [by left; left | | by right; left].
  destruct (Nat.le_ge_cases (op_n a) (op_n b)); [left | right]; by right.
Qed.

(** A list in order that holds nothing twice is in strict order. *)
Lemma sorted_NoDup_strict {A} (le lt : relation A) (l : list A) :
  (∀ a b, le a b → a ≠ b → lt a b) →
  StronglySorted le l → NoDup l → StronglySorted lt l.
Proof.
  intros Hlt. induction 1 as [|x l _ IH Hall]; intros Hnd; constructor.
  - apply IH. by apply NoDup_cons in Hnd as [_ ?].
  - apply NoDup_cons in Hnd as [Hx _]. apply Forall_forall.
    intros y Hy. apply Hlt; [by eapply Forall_forall in Hall|]. by intros ->.
Qed.

(** ** The counters under admission and erasure *)

Lemma wrap64_add_l a b : wrap64 (wrap64 a + b) = wrap64 (a + b).
Proof. unfold wrap64. by rewrite Zplus_mod_idemp_l. Qed.

Lemma wrap64_sub_l a b : wrap64 (wrap64 a - b) = wrap64 (a - b).
Proof. unfold wrap64. by rewrite Zminus_mod_idemp_l. Qed.

Lemma wrap32_add_l a b : wrap32 (wrap32 a + b) = wrap32 (a + b).
Proof. unfold wrap32. by rewrite Zplus_mod_idemp_l. Qed.

Lemma foldl_wrap64 {A} (f : A → Z) (l : list A) a :
  wrap64 (foldl (λ total x, wrap64 (total + f x)) a l)
  = wrap64 (a + foldr (λ x acc, f x + acc) 0 l).
Proof.
  revert a. induction l as [|x l IH]; intros a; simpl.
  - by rewrite Z.add_0_r.
  - rewrite IH, wrap64_add_l. f_equal. lia.
Qed.

Lemma foldl_wrap64_wrapped {A} (f : A → Z) (l : list A) a :
  wrap64 a = a →
  wrap64 (foldl (λ total x, wrap64 (total + f x)) a l)
  = foldl (λ total x, wrap64 (total + f x)) a l.
Proof.
  revert a. induction l as [|x l IH]; intros a Ha; simpl; [done|].
  apply IH. unfold wrap64. by rewrite Zmod_mod.
Qed.

(** The total [check] computes is that of the sizes, whatever the order. *)
Lemma checkTotal_sizes p : checkTotal p = wrap64 (sizes (mapTx p)).
Proof.
  unfold checkTotal, sizes, mapTx_items.
  rewrite <- foldl_wrap64_wrapped by done.
  rewrite (foldl_wrap64 (λ it, GetTxSize it.2)). simpl. f_equal.
  rewrite map_fold_foldr.
  transitivity (foldr (λ it acc, GetTxSize it.2 + acc) 0 (map_to_list (mapTx p))).
  - apply (foldr_permutation_proper (=) (λ it acc, GetTxSize it.2 + acc) 0).
    + intros a1 a2 b. lia.
    + apply in_key_order_Permutation.
  - apply foldr_ext; [by intros [k v] a | done..].
Qed.

Lemma sizes_insert h e m :
  m !! h = None → sizes (<[h := e]> m) = GetTxSize e + sizes m.
Proof.
  intros Hh. unfold sizes.
  rewrite map_fold_insert_L; [done | intros; lia | done].
Qed.

Lemma sizes_delete h e m :
  m !! h = Some e → sizes m = GetTxSize e + sizes (delete h m).
Proof.
  intros Hh. unfold sizes.
  rewrite (map_fold_delete_L _ _ h e m); [done | intros; lia | done].
Qed.

Lemma sizes_insert_resident h e old m :
  m !! h = Some old →
  sizes (<[h := e]> m) + GetTxSize old = GetTxSize e + sizes m.
Proof.
  intros Hold. rewrite <- insert_delete_eq.
  rewrite sizes_insert by apply lookup_delete_eq.
  rewrite (sizes_delete h old m Hold). lia.
Qed.

Lemma check_total_spec p : check_total p = true ↔ size_ok p.
Proof. apply bool_decide_eq_true. Qed.

Lemma clear_index_ok p : index_ok (clear p).
Proof. split; simpl; intros *; by rewrite lookup_empty. Qed.

Lemma clear_size_ok p : size_ok (clear p).
Proof. unfold size_ok. by rewrite checkTotal_sizes. Qed.

Lemma addUnchecked_size_ok p hash entry fCurrentEstimate :
  mapTx p !! hash = None → size_ok p →
  size_ok (addUnchecked p hash entry fCurrentEstimate).2.
Proof.
  unfold size_ok. rewrite !checkTotal_sizes. simpl. intros Hfresh ->.
  rewrite sizes_insert, wrap64_add_l by done. f_equal. lia.
Qed.

Lemma erase_entry_size_ok p h e :
  mapTx p !! h = Some e → size_ok p → size_ok (erase_entry p h e).
Proof.
  unfold size_ok. rewrite !checkTotal_sizes. simpl. intros He ->.
  rewrite (sizes_delete h e (mapTx p) He), wrap64_sub_l. f_equal. lia.
Qed.

Lemma erases_size_ok p l p' : erases p l p' → size_ok p → size_ok p'.
Proof. induction 1; eauto using erase_entry_size_ok. Qed.

Lemma erases_counter p l p' :
  erases p l p' →
  wrap32 (nTransactionsUpdated p')
  = wrap32 (nTransactionsUpdated p + Z.of_nat (length l)).
Proof.
  induction 1 as [p|p h e l p' _ _ IH]; simpl.
  - by rewrite Z.add_0_r.
  - rewrite IH. simpl. rewrite wrap32_add_l. f_equal. lia.
Qed.

Lemma erases_total p l p' :
  erases p l p' →
  wrap64 (totalTxSize p')
  = wrap64 (totalTxSize p - foldr (λ it acc, GetTxSize it.2 + acc) 0 l).
Proof.
  induction 1 as [p|p h e l p' _ _ IH]; simpl.
  - by rewrite Z.sub_0_r.
  - rewrite IH. simpl. rewrite wrap64_sub_l. f_equal. lia.
Qed.

Lemma run_keeps_size ops p :
  index_ok p → size_ok p → obeys admissible ops p →
  ∃ p', run ops p = Done p' ∧ size_ok p'.
Proof.
  revert p. induction ops as [|o ops IH]; intros p Hok Hsz Hobeys.
  - by exists p.
  - destruct Hobeys as [Hready Hrest]. simpl.
    destruct o as [hash entry fCurrentEstimate | origTx fRecursive]; simpl in *.
    + apply IH; [by apply addUnchecked_index_ok
                | apply addUnchecked_size_ok; [by destruct Hready | done]
                | done].
    + destruct (remove_Done p origTx [] fRecursive Hok) as (p1 & rm & Hrm).
      rewrite Hrm in *. simpl in *.
      apply remove_erases in Hrm as (l & Her & _).
      apply IH; eauto using erases_index_ok, erases_size_ok.
Qed.

(** ** Admission *)

(** X1: [addUnchecked] always returns [true]; afterwards [lookup] and
    [exists] find the admitted transaction under [hash], whether or not the
    hash was resident before, and answer for every other hash as they did;
    the deltas are as they were, and the estimator has been told of the
    entry. *)
Theorem addUnchecked_then_lookup (p : CTxMemPool) (hash : uint256)
    (entry : CTxMemPoolEntry) (fCurrentEstimate : bool) :
  let r := addUnchecked p hash entry fCurrentEstimate in
  r.1 = true
  ∧ (∀ h, lookup r.2 h
          = if decide (h = hash) then Some (GetTx entry) else lookup p h)
  ∧ (∀ h, exists_ r.2 h = if decide (h = hash) then true else exists_ p h)
  ∧ mapDeltas r.2 = mapDeltas p
  ∧ minerPolicyEstimator r.2
    = minerPolicyEstimator p ++ [processTransaction entry fCurrentEstimate].
Proof.
  intros r. split_and!; [done | | | done..].
  - intros h. unfold lookup, r. simpl. case_decide as Hh.
    + subst. by rewrite lookup_insert_eq.
    + by rewrite lookup_insert_ne.
  - intros h. unfold exists_, r. simpl. case_decide as Hh.
    + subst. rewrite lookup_insert_eq. by apply bool_decide_eq_true.
    + by rewrite lookup_insert_ne.
Qed.

(** X2: an admission under a hash that is resident replaces the entry
    without taking its size off the total: the pool has as many entries as
    before, [totalTxSize] exceeds the sum of the sizes of the entries by
    the size of the entry that was replaced, and the last assertion of
    [check], which held before, fails. *)
Theorem addUnchecked_resident_hash_drifts (p : CTxMemPool) (hash : uint256)
    (entry old : CTxMemPoolEntry) (fCurrentEstimate : bool) :
  mapTx p !! hash = Some old → check_total p = true →
  0 < GetTxSize old < 2 ^ 64 →
  let p' := (addUnchecked p hash entry fCurrentEstimate).2 in
  lookup p' hash = Some (GetTx entry)
  ∧ size (mapTx p') = size (mapTx p)
  ∧ totalTxSize p' = wrap64 (checkTotal p' + GetTxSize old)
  ∧ check_total p' = false.
Proof.
  intros Hold Hsz%check_total_spec Hpos p'.
  assert (totalTxSize p' = wrap64 (checkTotal p' + GetTxSize old)) as Htot.
  { unfold p'. rewrite checkTotal_sizes. simpl. rewrite Hsz, checkTotal_sizes.
    rewrite !wrap64_add_l. f_equal.
    pose proof (sizes_insert_resident hash entry old (mapTx p) Hold). lia. }
  split_and!.
  - unfold lookup, p'. simpl. by rewrite lookup_insert_eq.
  - unfold p'. simpl. apply map_size_insert_Some. by eexists.
  - done.
  - apply bool_decide_eq_false. rewrite Htot, checkTotal_sizes.
    rewrite wrap64_add_l. unfold wrap64. intros Heq.
    set (s := sizes (mapTx p')) in *.
    assert ((s + GetTxSize old - s) mod 2 ^ 64 = 0) as Hz.
    { rewrite Zminus_mod, Heq, Z.sub_diag. done. }
    replace (s + GetTxSize old - s) with (GetTxSize old) in Hz by lia.
    rewrite Z.mod_small in Hz by lia. lia.
Qed.

Lemma addUnchecked_resident_hash_drifts_witness :
  let p :=
    Sample.accept (CTxMemPool_new Sample.fee Sample.zeroed) Sample.T1 in
  let p' := (addUnchecked p 1 (Sample.entry_of Sample.T2) true).2 in
  (mapTx p !! 1%N = Some (Sample.entry_of Sample.T1)
   ∧ check_total p = true
   ∧ 0 < GetTxSize (Sample.entry_of Sample.T1) < 2 ^ 64)
  ∧ lookup p' 1 = Some Sample.T2
  ∧ size (mapTx p') = size (mapTx p)
  ∧ totalTxSize p' = wrap64 (checkTotal p' + 250)
  ∧ check_total p' = false.
Proof.
  intros p p'.
  assert (0 < GetTxSize (Sample.entry_of Sample.T1) < 2 ^ 64) as Hpos
    by (simpl; lia).
  split; [exact (conj eq_refl (conj eq_refl Hpos)) |].
  exact (addUnchecked_resident_hash_drifts p 1 (Sample.entry_of Sample.T2)
           (Sample.entry_of Sample.T1) true eq_refl eq_refl Hpos).
Defined.

(** X3: once [clear] has emptied a pool, whatever the pool held and
    whatever its [totalTxSize] was, for every sequence of [addUnchecked]
    and [remove] in which each admission is under a hash that is not
    resident, of a transaction whose inputs are pairwise distinct and are
    declared by no resident entry, every operation returns and
    [totalTxSize] is the sum, in [uint64_t], of the sizes of the resident
    entries: the last assertion of [check] holds. *)
Theorem totalTxSize_tracks_sizes (p0 : CTxMemPool) (ops : list pool_op) :
  obeys admissible ops (clear p0) →
  ∃ p, run ops (clear p0) = Done p ∧ check_total p = true.
Proof.
  intros Hobeys.
  destruct (run_keeps_size ops _ (clear_index_ok p0) (clear_size_ok p0) Hobeys)
    as (p & Hrun & Hsz).
  exists p. split; [done|]. by apply check_total_spec.
Qed.

(** A pool whose [totalTxSize] started from what the storage held fails
    the last assertion of [check] until [clear] has run. *)
Example adrift_fails_check :
  check_total Sample.adrift = false
  ∧ totalTxSize Sample.adrift = 577
  ∧ check_total (clear Sample.adrift) = true.
Proof. by vm_compute. Qed.

Lemma totalTxSize_tracks_sizes_witness :
  let ops := [Sample.add Sample.T1; Sample.add Sample.T2; Sample.add Sample.T4;
              OpRemove Sample.T1 true; Sample.add Sample.T3] in
  obeys admissible ops (clear Sample.adrift)
  ∧ ∃ p, run ops (clear Sample.adrift) = Done p ∧ check_total p = true.
Proof.
  intros ops.
  assert (obeys admissible ops (clear Sample.adrift)) as Hobeys
    by by_computation.
  split; [exact Hobeys|].
  exact (totalTxSize_tracks_sizes Sample.adrift ops Hobeys).
Defined.

(** ** Removal *)

Lemma remove_nonrecursive_eq p origTx removed :
  remove p origTx removed false
  = Done (match mapTx p !! GetHash origTx with
          | None => (p, removed)
          | Some e => (erase_entry p (GetHash origTx) e, removed ++ [GetTx e])
          end).
Proof.
  unfold remove. simpl.
  destruct (mapTx p !! GetHash origTx) as [e|]; simpl;
    by destruct (loop_weight (mapTx p)).
Qed.

(** X4: [remove(tx, removed, false)] returns in every pool, also one whose
    spend index is unsound.  When the hash of [tx] is not resident, the
    pool and [removed] are as they were.  When it is, the entry under that
    hash is erased and no other, its transaction (the resident one) is
    appended to [removed], and the spend index loses the records of the
    outpoints its inputs name and no other; transactions that spend its
    outputs stay. *)
Theorem remove_nonrecursive_one_entry (p : CTxMemPool) (origTx : CTransaction)
    (removed : list CTransaction) :
  ∃ p' removed',
    remove p origTx removed false = Done (p', removed')
    ∧ mapTx p' = delete (GetHash origTx) (mapTx p)
    ∧ match mapTx p !! GetHash origTx with
      | None => p' = p ∧ removed' = removed
      | Some e =>
          removed' = removed ++ [GetTx e]
          ∧ ∀ o, mapNextTx p' !! o
                 = if decide (o ∈ prevout <$> vin (GetTx e)) then None
                   else mapNextTx p !! o
      end.
Proof.
  rewrite remove_nonrecursive_eq.
  destruct (mapTx p !! GetHash origTx) as [e|] eqn:He; eexists _, _;
    (split; [reflexivity|]); simpl.
  - split_and!; [done..|]. intros o. apply lookup_erase_inputs.
  - split; [|done]. by rewrite delete_id.
Qed.

Lemma erase_index_inputs hash ins nx :
  (∀ txin, txin ∈ ins → nx !! prevout txin = None) →
  erase_inputs ins (index_inputs hash 0 ins nx) = nx.
Proof.
  intros Hfree. apply map_eq. intros o. rewrite lookup_erase_inputs.
  case_decide as Hin.
  - apply list_elem_of_fmap in Hin as (txin & -> & Hin). symmetry. by apply Hfree.
  - by apply lookup_index_inputs_notin.
Qed.

(** X5: in a pool whose spend index is sound, the admission of an entry
    under its own hash, not resident before, with pairwise distinct inputs
    that no resident entry declares, followed by the removal of its
    transaction alone, gives back [mapTx], [mapNextTx] and the deltas as
    they were; [totalTxSize] is back to its value and the update counter
    has advanced by two (both as the unsigned integers they are), and the
    estimator has been told of the entry and of its removal. *)
Theorem addUnchecked_remove_restores (p : CTxMemPool) (hash : uint256)
    (entry : CTxMemPoolEntry) (fCurrentEstimate : bool)
    (removed : list CTransaction) :
  index_ok p → admissible p hash entry → GetHash (GetTx entry) = hash →
  ∃ p',
    remove (addUnchecked p hash entry fCurrentEstimate).2 (GetTx entry)
           removed false
    = Done (p', removed ++ [GetTx entry])
    ∧ mapTx p' = mapTx p ∧ mapNextTx p' = mapNextTx p
    ∧ mapDeltas p' = mapDeltas p
    ∧ totalTxSize p' = wrap64 (totalTxSize p)
    ∧ nTransactionsUpdated p' = wrap32 (nTransactionsUpdated p + 2)
    ∧ minerPolicyEstimator p'
      = minerPolicyEstimator p
        ++ [processTransaction entry fCurrentEstimate; removeTx hash].
Proof.
  intros Hok (Hfresh & Hnd & Hfree) Hhash.
  rewrite remove_nonrecursive_eq, Hhash. simpl. rewrite lookup_insert_eq.
  eexists. split; [reflexivity|]. simpl. split_and!.
  - by apply delete_insert_id.
  - apply erase_index_inputs. intros txin Hin.
    by apply (unclaimed_inputs p (GetTx entry)).
  - done.
  - rewrite wrap64_sub_l. f_equal. lia.
  - rewrite wrap32_add_l. f_equal. lia.
  - by rewrite <- app_assoc.
Qed.

Lemma addUnchecked_remove_restores_witness :
  let p :=
    Sample.accept (CTxMemPool_new Sample.fee Sample.zeroed) Sample.T1 in
  (index_ok p ∧ admissible p 2 (Sample.entry_of Sample.T2)
   ∧ GetHash (GetTx (Sample.entry_of Sample.T2)) = 2%N)
  ∧ ∃ p',
      remove (addUnchecked p 2 (Sample.entry_of Sample.T2) true).2 Sample.T2
             [] false
      = Done (p', [Sample.T2])
      ∧ mapTx p' = mapTx p ∧ mapNextTx p' = mapNextTx p
      ∧ mapDeltas p' = mapDeltas p
      ∧ totalTxSize p' = wrap64 (totalTxSize p)
      ∧ nTransactionsUpdated p' = wrap32 (nTransactionsUpdated p + 2)
      ∧ minerPolicyEstimator p'
        = minerPolicyEstimator p
          ++ [processTransaction (Sample.entry_of Sample.T2) true; removeTx 2].
Proof.
  intros p.
  assert (index_ok p) as Hok
    by (apply (proj1 (check_spend_index_spec p)); reflexivity).
  assert (admissible p 2 (Sample.entry_of Sample.T2)) as Hadm by by_computation.
  split; [exact (conj Hok (conj Hadm eq_refl)) |].
  exact (addUnchecked_remove_restores p 2 (Sample.entry_of Sample.T2) true []
           Hok Hadm eq_refl).
Defined.

(** X6: whatever the pool and the flag, [remove] returns or has read
    through a record of a spend index that is unsound; when it returns,
    the entries it erased, each resident before and erased once, are those
    whose transactions it appended to [removed], in order, the update
    counter has advanced by their number and [totalTxSize] has gone down
    by their sizes (both as the unsigned integers they are), and the
    estimator has been told of the removal of each of their hashes. *)
Theorem remove_accounts_for_removed (p : CTxMemPool) (origTx : CTransaction)
    (removed : list CTransaction) (fRecursive : bool) :
  match remove p origTx removed fRecursive with
  | Done (p', removed') =>
      ∃ l : list (N * CTxMemPoolEntry),
        removed' = removed ++ (GetTx ∘ snd <$> l)
        ∧ NoDup l.*1
        ∧ (∀ h e, (h, e) ∈ l → mapTx p !! h = Some e)
        ∧ (∀ h, mapTx p' !! h
                = if decide (h ∈ l.*1) then None else mapTx p !! h)
        ∧ wrap32 (nTransactionsUpdated p')
          = wrap32 (nTransactionsUpdated p + Z.of_nat (length l))
        ∧ wrap64 (totalTxSize p')
          = wrap64 (totalTxSize p
                    - foldr (λ it acc, GetTxSize it.2 + acc) 0 l)
        ∧ minerPolicyEstimator p'
          = minerPolicyEstimator p ++ (removeTx <$> l.*1)
  | Undefined => ¬ index_ok p
  | Timeout => False
  end.
Proof.
  destruct (remove_cases p origTx removed fRecursive)
    as [(p' & l & -> & Her & _)|[-> Hbad]]; [|done].
  exists l. split_and!.
  - done.
  - by eapply erases_NoDup.
  - intros h e. by eapply erases_elem_of.
  - intros h. by apply erases_mapTx.
  - by apply erases_counter.
  - by apply erases_total.
  - by apply erases_calls.
Qed.

(** X7: in a pool that passes the assertions of [check] on the spend
    index, [remove] returns, with either flag; afterwards the hash of the
    transaction is not resident, the pool passes these assertions again
    (also when transactions that spend the outputs of the removed one were
    left in it), and the assertion on [totalTxSize] holds if it held
    before. *)
Theorem remove_keeps_check (p : CTxMemPool) (origTx : CTransaction)
    (removed : list CTransaction) (fRecursive : bool) :
  check_spend_index p = true →
  ∃ p' removed',
    remove p origTx removed fRecursive = Done (p', removed')
    ∧ lookup p' (GetHash origTx) = None
    ∧ check_spend_index p' = true
    ∧ (check_total p = true → check_total p' = true).
Proof.
  intros [Hok Hhash]%check_spend_index_spec.
  destruct (remove_Done p origTx removed fRecursive Hok) as (p' & rm' & Hrm).
  destruct (remove_erases _ _ _ _ _ _ Hrm) as (l & Her & -> & Hgone).
  exists p', (removed ++ (GetTx ∘ snd <$> l)). split_and!; [done | | |].
  - unfold lookup. by rewrite Hgone.
  - apply check_spend_index_spec.
    split; [by eapply erases_index_ok | by eapply erases_hash_ok].
  - rewrite !check_total_spec. by eapply erases_size_ok.
Qed.

Lemma remove_keeps_check_witness :
  check_spend_index Sample.chain = true
  ∧ ∃ p' removed',
      remove Sample.chain Sample.T2 [] false = Done (p', removed')
      ∧ lookup p' (GetHash Sample.T2) = None
      ∧ check_spend_index p' = true
      ∧ (check_total Sample.chain = true → check_total p' = true).
Proof.
  split; [reflexivity|].
  exact (remove_keeps_check Sample.chain Sample.T2 [] false eq_refl).
Defined.

(** What a recursive removal leaves, in a pool whose spend index is sound. *)
Lemma remove_recursive_facts p origTx removed :
  index_ok p → hash_ok p →
  ∃ p' l,
    remove p origTx removed true = Done (p', removed ++ (GetTx ∘ snd <$> l))
    ∧ erases p l p'
    ∧ (∀ h, cascade p origTx h → mapTx p' !! h = None)
    ∧ (∀ h, ¬ cascade p origTx h → mapTx p' !! h = mapTx p !! h)
    ∧ (∀ h, mapTx p' !! h = None → is_Some (mapTx p !! h) →
            cascade p origTx h).
Proof.
  intros Hok Hhash.
  destruct (remove_Done p origTx removed true Hok) as (p' & rm' & Hrm).
  destruct (remove_erases _ _ _ _ _ _ Hrm) as (l & Her & -> & _).
  exists p', l. split; [done|]. split; [done|].
  unfold remove in Hrm. apply bind_Done in Hrm as (children & Hsp & Hloop).
  pose proof (bfs_start p origTx children Hok Hhash Hsp) as Hinv.
  apply (remove_loop_bfs p origTx _ _ _ _ _ _ Hinv) in Hloop.
  destruct (bfs_finish p origTx p' Hloop) as [Hall Honly].
  split_and!; [done..|]. by apply (bfs_gone _ _ _ _ Hloop).
Qed.

Lemma spenders_none p hash idxs :
  (∀ i, i ∈ idxs → mapNextTx p !! mkOutPoint hash i = None) →
  spenders p hash idxs = Done [].
Proof.
  induction idxs as [|i idxs IH]; intros Hnone; simpl; [done|].
  rewrite Hnone by left. apply IH. intros j Hj. apply Hnone. by right.
Qed.

(** X8: in a pool that passes the assertions of [check] on the spend
    index, and in which the hash of [tx], if resident, is that of [tx]
    itself, a second [remove(tx, removed, true)] right after the first
    finds nothing to remove: it returns the pool and the list that the
    first call left. *)
Theorem remove_recursive_twice (p : CTxMemPool) (origTx : CTransaction)
    (removed : list CTransaction) :
  check_spend_index p = true →
  (∀ e, mapTx p !! GetHash origTx = Some e → GetTx e = origTx) →
  ∃ p' removed',
    remove p origTx removed true = Done (p', removed')
    ∧ remove p' origTx removed' true = Done (p', removed').
Proof.
  intros [Hok Hhash]%check_spend_index_spec Hcopy.
  destruct (remove_recursive_facts p origTx removed Hok Hhash)
    as (p' & l & Hrm & Her & Hall & _).
  exists p', (removed ++ (GetTx ∘ snd <$> l)). split; [done|].
  pose proof (Hall _ (cascade_root p origTx)) as Hgone.
  unfold remove, exists_. rewrite Hgone.
  rewrite bool_decide_eq_false_2 by (by intros [? ?]). simpl.
  rewrite spenders_none; simpl.
  { rewrite Hgone. by destruct (loop_weight (mapTx p')). }
  intros i Hi%elem_of_seq.
  destruct (mapNextTx p' !! mkOutPoint (GetHash origTx) i) as [ip|] eqn:Hip;
    [exfalso | done].
  destruct (index_owned p' (erases_index_ok _ _ _ Her Hok) _ _ Hip)
    as (e & txin & He & Hn & Hprev).
  pose proof (erases_mapTx_Some _ _ _ _ _ Her He) as He0.
  assert (spends e (GetHash origTx) (length (vout origTx))) as Hsp.
  { exists txin. rewrite Hprev. simpl.
    split_and!; [by eapply list_elem_of_lookup_2 | done | lia]. }
  assert (cascade p origTx (ptx ip)) as Hc.
  { destruct (mapTx p !! GetHash origTx) as [ex|] eqn:Hex.
    - apply (cascade_child p origTx (GetHash origTx) ex (ptx ip) e);
        [constructor | done | done |].
      by rewrite (Hcopy ex eq_refl).
    - by apply (cascade_orphan p origTx (ptx ip) e). }
  rewrite (Hall _ Hc) in He. done.
Qed.

Lemma remove_recursive_twice_witness :
  (check_spend_index Sample.chain = true
   ∧ ∀ e, mapTx Sample.chain !! GetHash Sample.T1 = Some e →
          GetTx e = Sample.T1)
  ∧ ∃ p' removed',
      remove Sample.chain Sample.T1 [] true = Done (p', removed')
      ∧ remove p' Sample.T1 removed' true = Done (p', removed').
Proof.
  assert (∀ e, mapTx Sample.chain !! GetHash Sample.T1 = Some e →
               GetTx e = Sample.T1) as Hcopy.
  { intros e He. vm_compute in He. by injection He as <-. }
  split; [exact (conj eq_refl Hcopy) |].
  exact (remove_recursive_twice Sample.chain Sample.T1 [] eq_refl Hcopy).
Defined.

Lemma addUnchecked_hash_ok p hash entry fCurrentEstimate :
  index_ok p → hash_ok p → mapTx p !! hash = None →
  GetHash (GetTx entry) = hash →
  hash_ok (addUnchecked p hash entry fCurrentEstimate).2.
Proof.
  intros Hok Hhash Hfresh Hown o ip e. simpl.
  intros [Ho|(i & txin & Hi & Ho & ->)]%lookup_index_inputs_inv.
  - destruct (index_owned p Hok _ _ Ho) as (e0 & txin & He0 & _).
    rewrite lookup_insert_ne by congruence. by apply (Hhash o).
  - simpl. rewrite lookup_insert_eq. by intros [= <-].
Qed.

(** A transaction admitted with no parent in the pool is in the cascade
    of no other resident transaction. *)
Lemma cascade_misses_orphan p hash entry fCurrentEstimate origTx c :
  HasNoInputsOf p (GetTx entry) = true →
  GetHash origTx ≠ hash → is_Some (mapTx p !! GetHash origTx) →
  cascade (addUnchecked p hash entry fCurrentEstimate).2 origTx c →
  c ≠ hash.
Proof.
  intros Hnone Hne Hres.
  induction 1 as [|c e Habsent _ _|x ex c e _ IH Hx He Hsp]; [done| |].
  - simpl in Habsent. rewrite lookup_insert_ne in Habsent by done.
    rewrite Habsent in Hres. by destruct Hres.
  - intros ->. simpl in Hx, He.
    rewrite lookup_insert_eq in He. injection He as <-.
    rewrite lookup_insert_ne in Hx by done.
    destruct Hsp as (txin & Hin & Hparent & _).
    unfold HasNoInputsOf in Hnone. rewrite forallb_forall in Hnone.
    apply list_elem_of_In, Hnone, negb_true_iff in Hin.
    unfold exists_ in Hin. apply bool_decide_eq_false in Hin.
    apply Hin. rewrite Hparent. by eexists.
Qed.

(** X9: a transaction for which [HasNoInputsOf] answers [true], admitted
    under its own hash into a pool that passes the assertions of [check]
    on the spend index (the hash not resident, the inputs pairwise
    distinct and declared by no resident entry), stays resident, with its
    entry, through the recursive removal of any other resident
    transaction, which returns and removes that transaction. *)
Theorem HasNoInputsOf_outlives_removals (p : CTxMemPool) (hash : uint256)
    (entry : CTxMemPoolEntry) (fCurrentEstimate : bool)
    (origTx : CTransaction) (removed : list CTransaction) :
  check_spend_index p = true → admissible p hash entry →
  GetHash (GetTx entry) = hash →
  HasNoInputsOf p (GetTx entry) = true →
  GetHash origTx ≠ hash → exists_ p (GetHash origTx) = true →
  ∃ p' removed',
    remove (addUnchecked p hash entry fCurrentEstimate).2 origTx removed true
    = Done (p', removed')
    ∧ lookup p' (GetHash origTx) = None
    ∧ mapTx p' !! hash = Some entry.
Proof.
  intros [Hok Hhash]%check_spend_index_spec Hadm Hown Hnone Hne
    Hres%bool_decide_eq_true.
  set (p1 := (addUnchecked p hash entry fCurrentEstimate).2).
  assert (index_ok p1) as Hok1 by by apply addUnchecked_index_ok.
  assert (hash_ok p1) as Hhash1
    by (apply addUnchecked_hash_ok; [done | done | by destruct Hadm | done]).
  destruct (remove_recursive_facts p1 origTx removed Hok1 Hhash1)
    as (p' & l & Hrm & _ & Hall & Honly & _).
  exists p', (removed ++ (GetTx ∘ snd <$> l)). split_and!; [done | |].
  - unfold lookup. by rewrite (Hall _ (cascade_root p1 origTx)).
  - rewrite Honly.
    + unfold p1. simpl. by rewrite lookup_insert_eq.
    + intros Hc.
      by apply (cascade_misses_orphan p hash entry fCurrentEstimate origTx hash).
Qed.

Lemma HasNoInputsOf_outlives_removals_witness :
  let p := Sample.accept
             (Sample.accept (CTxMemPool_new Sample.fee Sample.zeroed)
                Sample.T1)
             Sample.T2 in
  (check_spend_index p = true ∧ admissible p 4 (Sample.entry_of Sample.T4)
   ∧ GetHash (GetTx (Sample.entry_of Sample.T4)) = 4%N
   ∧ HasNoInputsOf p (GetTx (Sample.entry_of Sample.T4)) = true
   ∧ GetHash Sample.T1 ≠ 4%N ∧ exists_ p (GetHash Sample.T1) = true)
  ∧ ∃ p' removed',
      remove (addUnchecked p 4 (Sample.entry_of Sample.T4) true).2 Sample.T1
             [] true
      = Done (p', removed')
      ∧ lookup p' (GetHash Sample.T1) = None
      ∧ mapTx p' !! 4%N = Some (Sample.entry_of Sample.T4).
Proof.
  intros p.
  assert (admissible p 4 (Sample.entry_of Sample.T4)) as Hadm by by_computation.
  assert (GetHash Sample.T1 ≠ 4%N) as Hne by discriminate.
  split;
    [exact (conj eq_refl (conj Hadm (conj eq_refl (conj eq_refl
              (conj Hne eq_refl))))) |].
  exact (HasNoInputsOf_outlives_removals p 4 (Sample.entry_of Sample.T4) true
           Sample.T1 [] eq_refl Hadm eq_refl eq_refl Hne eq_refl).
Defined.

(** ** Inputs that name coins *)

Section CheckAvailableFacts.
Context {CCoins : Type}.
Variable AccessCoins : uint256 → option CCoins.
Variable IsAvailable : CCoins → nat → bool.
Variable IsNull : CTxOut → bool.

Local Abbreviation input_available :=
  (check_input_available CCoins AccessCoins IsAvailable IsNull).
Local Abbreviation all_available :=
  (check_available CCoins AccessCoins IsAvailable IsNull).

Lemma check_available_spec p :
  all_available p = true
  ↔ ∀ h e txin, mapTx p !! h = Some e → txin ∈ vin (GetTx e) →
                input_available p txin = true.
Proof.
  unfold check_available. rewrite forallb_forall. split.
  - intros Hall h e txin He Hin.
    assert (In (h, e) (mapTx_items p)) as Hit
      by by apply list_elem_of_In, elem_of_in_key_order.
    apply Hall in Hit. simpl in Hit. rewrite forallb_forall in Hit.
    by apply Hit, list_elem_of_In.
  - intros Hall [h e] Hit. simpl. apply forallb_forall. intros txin Hin.
    apply (Hall h e); [|by apply list_elem_of_In].
    by apply list_elem_of_In, elem_of_in_key_order in Hit.
Qed.
End CheckAvailableFacts.

(** X10: a recursive removal leaves no transaction behind whose parent it
    took: in a pool that passes the assertions of [check] on the spend
    index and in which every input of every entry names an output, not
    null, of a resident transaction or available coins of the view (the
    first assertions of [check]), [remove(tx, removed, true)] returns and
    leaves a pool in which every input of every entry still does. *)
Theorem remove_recursive_leaves_no_orphan {CCoins : Type}
    (AccessCoins : uint256 → option CCoins)
    (IsAvailable : CCoins → nat → bool) (IsNull : CTxOut → bool)
    (p : CTxMemPool) (origTx : CTransaction) (removed : list CTransaction) :
  let check_available := check_available CCoins AccessCoins IsAvailable IsNull in
  check_spend_index p = true → check_available p = true →
  ∃ p' removed',
    remove p origTx removed true = Done (p', removed')
    ∧ check_available p' = true.
Proof.
  intros check0 [Hok Hhash]%check_spend_index_spec Havail. unfold check0 in *.
  destruct (remove_recursive_facts p origTx removed Hok Hhash)
    as (p' & l & Hrm & Her & Hall & _ & Hgone).
  exists p', (removed ++ (GetTx ∘ snd <$> l)). split; [done|].
  rewrite check_available_spec in Havail. apply check_available_spec.
  intros h e txin He Hin.
  pose proof (erases_mapTx_Some _ _ _ _ _ Her He) as He0.
  pose proof (Havail h e txin He0 Hin) as Hbefore.
  unfold check_input_available in *.
  destruct (mapTx p' !! op_hash (prevout txin)) as [e2|] eqn:Hparent.
  - by rewrite (erases_mapTx_Some _ _ _ _ _ Her Hparent) in Hbefore.
  - destruct (mapTx p !! op_hash (prevout txin)) as [e2|] eqn:Hparent0;
      [exfalso | done].
    destruct (vout (GetTx e2) !! op_n (prevout txin)) as [o|] eqn:Ho; [|done].
    assert (cascade p origTx h) as Hc.
    { apply (cascade_child p origTx (op_hash (prevout txin)) e2 h e);
        [by apply Hgone | done | done |].
      exists txin. split_and!; [done..|]. by eapply lookup_lt_Some. }
    rewrite (Hall h Hc) in He. done.
Qed.

Lemma remove_recursive_leaves_no_orphan_witness :
  let check_available :=
    check_available (bool * Z) Sample.confirmed (λ _ _, true) (λ _, false) in
  (check_spend_index Sample.chain = true
   ∧ check_available Sample.chain = true)
  ∧ ∃ p' removed',
      remove Sample.chain Sample.T2 [] true = Done (p', removed')
      ∧ check_available p' = true.
Proof.
  split; [exact (conj eq_refl eq_refl) |].
  exact (remove_recursive_leaves_no_orphan Sample.confirmed (λ _ _, true)
           (λ _, false) Sample.chain Sample.T2 [] eq_refl eq_refl).
Defined.

(** The removal of [T2] alone, of which the view has no coins, leaves
    [T3] with an input that names nothing. *)
Example remove_nonrecursive_orphans :
  let check_available :=
    check_available (bool * Z) Sample.confirmed (λ _ _, true) (λ _, false) in
  ∃ p', remove Sample.chain Sample.T2 [] false = Done (p', [Sample.T2])
        ∧ check_spend_index p' = true ∧ check_available p' = false.
Proof. eexists. split; [vm_compute; reflexivity | by vm_compute]. Qed.

(** ** Conflicts and blocks *)

Lemma removeConflicts_loop_own p t e ins removed :
  index_ok p → mapTx p !! GetHash t = Some e → GetTx e = t →
  ins ⊆ vin t →
  removeConflicts_loop ins t p removed = Done (p, removed).
Proof.
  intros Hok He Htx. induction ins as [|txin rest IH]; intros Hsub; [done|].
  simpl.
  assert (txin ∈ vin (GetTx e)) as Hin by (rewrite Htx; apply Hsub; left).
  destruct (entry_inputs_indexed p _ e txin Hok He Hin) as [i ->]. simpl.
  rewrite He, Htx. unfold tx_neq. rewrite N.eqb_refl. simpl.
  apply IH. intros x Hx. apply Hsub. by right.
Qed.

(** X11: in a pool that passes the assertions of [check] on the spend
    index, [removeConflicts] of a transaction that is itself resident
    under its hash removes nothing: every record of its inputs points to
    the transaction itself, and the pool and [removed] are returned as
    they were. *)
Theorem removeConflicts_spares_resident (p : CTxMemPool) (t : CTransaction)
    (e : CTxMemPoolEntry) (removed : list CTransaction) :
  check_spend_index p = true →
  mapTx p !! GetHash t = Some e → GetTx e = t →
  removeConflicts p t removed = Done (p, removed).
Proof.
  intros [Hok _]%check_spend_index_spec He Htx.
  by apply (removeConflicts_loop_own p t e).
Qed.

Lemma removeConflicts_spares_resident_witness :
  (check_spend_index Sample.chain = true
   ∧ mapTx Sample.chain !! GetHash Sample.T4 = Some (Sample.entry_of Sample.T4)
   ∧ GetTx (Sample.entry_of Sample.T4) = Sample.T4)
  ∧ removeConflicts Sample.chain Sample.T4 [] = Done (Sample.chain, []).
Proof.
  split; [exact (conj eq_refl (conj eq_refl eq_refl)) |].
  exact (removeConflicts_spares_resident Sample.chain Sample.T4
           (Sample.entry_of Sample.T4) [] eq_refl eq_refl eq_refl).
Defined.

(** X12: in a pool that passes the assertions of [check] on the spend
    index, [removeConflicts] of a transaction whose hash is not resident
    and whose inputs are pairwise distinct returns, and afterwards no
    resident entry declares an input of the transaction: admitted then
    with [addUnchecked] under its own hash, it leaves a pool that passes
    these assertions. *)
Theorem removeConflicts_makes_room (p : CTxMemPool) (entry : CTxMemPoolEntry)
    (removed : list CTransaction) (fCurrentEstimate : bool) :
  check_spend_index p = true →
  mapTx p !! GetHash (GetTx entry) = None →
  NoDup (prevout <$> vin (GetTx entry)) →
  ∃ p' removed',
    removeConflicts p (GetTx entry) removed = Done (p', removed')
    ∧ ¬ conflicts_with_pool p' (GetTx entry)
    ∧ check_spend_index
        (addUnchecked p' (GetHash (GetTx entry)) entry fCurrentEstimate).2
      = true.
Proof.
  intros [Hok Hhash]%check_spend_index_spec Hfresh Hnd.
  unfold removeConflicts.
  destruct (removeConflicts_loop_cases (vin (GetTx entry)) (GetTx entry)
              p removed)
    as [(p' & rm' & l & Hrun & Her & Hfacts)|[_ Hbad]]; [|done].
  pose proof (erases_index_ok _ _ _ Her Hok) as Hok'.
  pose proof (erases_hash_ok _ _ _ Her Hhash) as Hhash'.
  pose proof (erases_mapTx_None _ _ _ _ Her Hfresh) as Hfresh'.
  assert (¬ conflicts_with_pool p' (GetTx entry)) as Hfree.
  { intros (h & e & txin & txin' & He & Hin & Hin' & Heq).
    destruct (entry_inputs_indexed p' h e txin' Hok' He Hin') as [i Hi].
    rewrite <- Heq, (Hfacts Hok Hhash Hfresh txin Hin) in Hi. done. }
  exists p', rm'. split_and!; [done..|].
  apply check_spend_index_spec. split.
  - by apply addUnchecked_index_ok.
  - by apply addUnchecked_hash_ok.
Qed.

Lemma removeConflicts_makes_room_witness :
  (check_spend_index Sample.chain = true
   ∧ mapTx Sample.chain !! GetHash (GetTx (Sample.entry_of Sample.T5)) = None
   ∧ NoDup (prevout <$> vin (GetTx (Sample.entry_of Sample.T5))))
  ∧ ∃ p' removed',
      removeConflicts Sample.chain (GetTx (Sample.entry_of Sample.T5)) []
      = Done (p', removed')
      ∧ ¬ conflicts_with_pool p' (GetTx (Sample.entry_of Sample.T5))
      ∧ check_spend_index
          (addUnchecked p' (GetHash (GetTx (Sample.entry_of Sample.T5)))
             (Sample.entry_of Sample.T5) true).2
        = true.
Proof.
  assert (NoDup (prevout <$> vin (GetTx (Sample.entry_of Sample.T5)))) as Hnd
    by by_computation.
  split; [exact (conj eq_refl (conj eq_refl Hnd)) |].
  exact (removeConflicts_makes_room Sample.chain (Sample.entry_of Sample.T5)
           [] true eq_refl eq_refl Hnd).
Defined.

Lemma removeForBlock_loop_size vtx p conflicts p' conflicts' :
  removeForBlock_loop vtx p conflicts = Done (p', conflicts') →
  size_ok p → size_ok p'.
Proof.
  revert p conflicts. induction vtx as [|t rest IH]; intros p conflicts; simpl.
  { by intros [= <- <-]. }
  intros ([p1 rm1] & Hrm & Hrun)%bind_Done Hsz.
  apply bind_Done in Hrun as ([p2 c2] & Hcf & Hrun).
  apply remove_erases in Hrm as (l1 & Her1 & _).
  unfold removeConflicts in Hcf.
  destruct (removeConflicts_loop_cases (vin t) t p1 conflicts)
    as [(p2' & c2' & l2 & Hloop & Her2 & _)|[Hloop _]]; [|congruence].
  rewrite Hloop in Hcf. injection Hcf as -> ->.
  apply (IH _ _ Hrun).
  exact (erases_size_ok _ _ _ Her2 (erases_size_ok _ _ _ Her1 Hsz)).
Qed.

(** X13: in a pool that passes the assertions of [check] on the spend
    index, [removeForBlock] returns and leaves a pool that passes them
    again; the assertion on [totalTxSize] holds afterwards if it held
    before, and no hash is resident that was not resident before. *)
Theorem removeForBlock_keeps_check (p : CTxMemPool) (vtx : list CTransaction)
    (nBlockHeight : Z) (conflicts : list CTransaction)
    (fCurrentEstimate : bool) :
  check_spend_index p = true →
  ∃ p' conflicts',
    removeForBlock p vtx nBlockHeight conflicts fCurrentEstimate
    = Done (p', conflicts')
    ∧ check_spend_index p' = true
    ∧ (check_total p = true → check_total p' = true)
    ∧ (∀ h, lookup p h = None → lookup p' h = None).
Proof.
  intros [Hok Hhash]%check_spend_index_spec. unfold removeForBlock.
  destruct (removeForBlock_loop_cases vtx p conflicts)
    as [(p1 & c1 & Hloop & _ & Hshr & Hfacts)|[_ Hbad]]; [|done].
  destruct (Hfacts Hok Hhash) as (Hok1 & Hhash1 & _).
  rewrite Hloop. simpl. eexists _, c1. split; [reflexivity|]. split_and!.
  - apply check_spend_index_spec. split; [by destruct Hok1 | done].
  - rewrite !check_total_spec. intros Hsz.
    exact (removeForBlock_loop_size _ _ _ _ _ Hloop Hsz).
  - intros h. unfold lookup. simpl.
    destruct (mapTx p !! h) eqn:Hh; [done|]. intros _.
    by rewrite (shrinks_mapTx p p1 Hshr h Hh).
Qed.

Lemma removeForBlock_keeps_check_witness :
  check_spend_index Sample.chain = true
  ∧ ∃ p' conflicts',
      removeForBlock Sample.chain [Sample.T5; Sample.T4] 101 [] true
      = Done (p', conflicts')
      ∧ check_spend_index p' = true
      ∧ (check_total Sample.chain = true → check_total p' = true)
      ∧ (∀ h, lookup Sample.chain h = None → lookup p' h = None).
Proof.
  split; [reflexivity|].
  exact (removeForBlock_keeps_check Sample.chain [Sample.T5; Sample.T4] 101 []
           true eq_refl).
Defined.

Lemma within_refl p : within p p.
Proof. by split. Qed.

Lemma erases_within p l p' p0 : erases p l p' → within p p0 → within p' p0.
Proof.
  intros Her [Ht Hn]. split.
  - intros h e He. by eapply Ht, erases_mapTx_Some.
  - intros o ip Ho. by eapply Hn, erases_mapNextTx_Some.
Qed.

(** The cascade of a transaction in a part of a pool that holds it is
    part of its cascade in the pool. *)
Lemma cascade_within p p0 origTx ex h :
  within p p0 →
  mapTx p0 !! GetHash origTx = Some ex → GetTx ex = origTx →
  cascade p origTx h → cascade p0 origTx h.
Proof.
  intros [Ht _] Hex Htx.
  induction 1 as [|c e Habsent He Hsp|x ex' c e _ IH Hx He Hsp].
  - constructor.
  - apply (cascade_child p0 origTx (GetHash origTx) ex c e);
      [constructor | done | auto |]. by rewrite Htx.
  - apply (cascade_child p0 origTx x ex' c e); auto.
Qed.

Lemma removeConflicts_loop_only p0 vtx t ins p removed p' removed' :
  t ∈ vtx → ins ⊆ vin t →
  index_ok p → hash_ok p → within p p0 →
  removeConflicts_loop ins t p removed = Done (p', removed') →
  ∀ h, is_Some (mapTx p !! h) → mapTx p' !! h = None → block_related p0 vtx h.
Proof.
  intros Ht. revert p removed.
  induction ins as [|txin rest IH]; intros p removed Hsub Hok Hhash Hin0 Hrun
    h Hres Hgone; simpl in Hrun.
  { injection Hrun as <- <-. rewrite Hgone in Hres. by destruct Hres. }
  assert (rest ⊆ vin t) as Hsub' by (intros x Hx; apply Hsub; by right).
  destruct (mapNextTx p !! prevout txin) as [ip|] eqn:Hip; [|by eapply IH].
  destruct (mapTx p !! ptx ip) as [e|] eqn:He; [|done].
  destruct (tx_neq (GetTx e) t) eqn:Hneq; [|by eapply IH].
  apply bind_Done in Hrun as ([p1 rm1] & Hrm & Hrun).
  destruct (remove_recursive_facts p (GetTx e) removed Hok Hhash)
    as (p1' & l & Hrm' & Her & _ & _ & Hcasc).
  rewrite Hrm in Hrm'. injection Hrm' as <- ->.
  destruct (mapTx p1 !! h) as [e1|] eqn:Hh1.
  - apply (IH p1 _ Hsub' (erases_index_ok _ _ _ Her Hok)
             (erases_hash_ok _ _ _ Her Hhash) (erases_within _ _ _ _ Her Hin0)
             Hrun h); [by eexists | done].
  - right.
    destruct (index_owned p Hok _ _ Hip) as (e' & txin' & He' & Hn & Hprev).
    assert (e' = e) as -> by congruence.
    pose proof (Hhash _ _ _ Hip He) as Hkey.
    exists t, (ptx ip), e, txin, txin'. split_and!.
    + done.
    + by apply (proj1 Hin0).
    + apply Hsub. left.
    + by eapply list_elem_of_lookup_2.
    + done.
    + unfold tx_neq in Hneq. apply negb_true_iff, N.eqb_neq in Hneq. done.
    + apply (cascade_within p p0 (GetTx e) e); [done | | done |].
      * rewrite Hkey. by apply (proj1 Hin0).
      * by apply Hcasc.
Qed.

Lemma removeForBlock_loop_only p0 vtx rest p conflicts p' conflicts' :
  rest ⊆ vtx → index_ok p → hash_ok p → within p p0 →
  removeForBlock_loop rest p conflicts = Done (p', conflicts') →
  within p' p0
  ∧ ∀ h, is_Some (mapTx p !! h) → mapTx p' !! h = None →
         block_related p0 vtx h.
Proof.
  revert p conflicts.
  induction rest as [|t rest IH]; intros p conflicts Hsub Hok Hhash Hin0 Hrun;
    simpl in Hrun.
  { injection Hrun as <- <-. split; [done|].
    intros h Hres Hgone. rewrite Hgone in Hres. by destruct Hres. }
  assert (t ∈ vtx) as Ht by (apply Hsub; left).
  assert (rest ⊆ vtx) as Hsub' by (intros x Hx; apply Hsub; by right).
  apply bind_Done in Hrun as ([p1 rm1] & Hrm & Hrun).
  apply bind_Done in Hrun as ([p2 c2] & Hcf & Hrun).
  pose proof Hrm as Hrm0. rewrite remove_nonrecursive_eq in Hrm0.
  apply remove_erases in Hrm as (l1 & Her1 & _).
  pose proof (erases_index_ok _ _ _ Her1 Hok) as Hok1.
  pose proof (erases_hash_ok _ _ _ Her1 Hhash) as Hhash1.
  pose proof (erases_within _ _ _ _ Her1 Hin0) as Hin1.
  unfold removeConflicts in Hcf.
  destruct (removeConflicts_loop_cases (vin t) t p1 conflicts)
    as [(p2' & c2' & l2 & Hloop & Her2 & _)|[Hloop _]]; [|congruence].
  rewrite Hloop in Hcf. injection Hcf as -> ->.
  pose proof (erases_index_ok _ _ _ Her2 Hok1) as Hok2.
  pose proof (erases_hash_ok _ _ _ Her2 Hhash1) as Hhash2.
  pose proof (erases_within _ _ _ _ Her2 Hin1) as Hin2.
  destruct (IH (ClearPrioritisation p2 (GetHash t)) c2 Hsub')
    as [Hin' Honly]; [by destruct Hok2 | done | done | done |].
  split; [done|]. intros h Hres Hgone.
  destruct (mapTx p1 !! h) as [e1|] eqn:Hh1.
  - destruct (mapTx p2 !! h) as [e2|] eqn:Hh2.
    + apply Honly; [|done]. simpl. by eexists.
    + apply (removeConflicts_loop_only p0 vtx t (vin t) p1 conflicts p2 c2);
        done.
  - left. exists t. split; [done|].
    destruct (mapTx p !! GetHash t) as [e|] eqn:He;
      injection Hrm0 as <- _.
    + simpl in Hh1. destruct (decide (h = GetHash t)) as [->|Hne]; [done|].
      rewrite lookup_delete_ne in Hh1 by done.
      rewrite Hh1 in Hres. by destruct Hres.
    + rewrite Hh1 in Hres. by destruct Hres.
Qed.

(** X14: in a pool that passes the assertions of [check] on the spend
    index, [removeForBlock] returns and evicts nothing that the block is
    not about: every entry left was resident before, and every entry
    stays whose hash is neither that of a transaction of [vtx], nor that
    of a resident transaction that spends an outpoint a transaction of
    [vtx] spends, nor that of a resident transaction that spends,
    directly or through others, an output of such a one. *)
Theorem removeForBlock_evicts_only_related (p : CTxMemPool)
    (vtx : list CTransaction) (nBlockHeight : Z)
    (conflicts : list CTransaction) (fCurrentEstimate : bool) :
  check_spend_index p = true →
  ∃ p' conflicts',
    removeForBlock p vtx nBlockHeight conflicts fCurrentEstimate
    = Done (p', conflicts')
    ∧ (∀ h e, mapTx p' !! h = Some e → mapTx p !! h = Some e)
    ∧ (∀ h e, mapTx p !! h = Some e → ¬ block_related p vtx h →
              mapTx p' !! h = Some e).
Proof.
  intros [Hok Hhash]%check_spend_index_spec. unfold removeForBlock.
  destruct (removeForBlock_loop_cases vtx p conflicts)
    as [(p1 & c1 & Hloop & _)|[_ Hbad]]; [|done].
  rewrite Hloop. simpl. eexists _, c1. split; [reflexivity|]. simpl.
  destruct (removeForBlock_loop_only p vtx vtx p conflicts p1 c1)
    as [[Hsub _] Honly]; [done | done | done | apply within_refl | done |].
  split; [done|]. intros h e He Hfree.
  destruct (mapTx p1 !! h) as [e1|] eqn:Hh1.
  - by rewrite <- (Hsub h e1 Hh1).
  - destruct Hfree. apply Honly; [by eexists | done].
Qed.

Lemma removeForBlock_evicts_only_related_witness :
  check_spend_index Sample.chain = true
  ∧ ∃ p' conflicts',
      removeForBlock Sample.chain [Sample.T5] 101 [] true
      = Done (p', conflicts')
      ∧ (∀ h e, mapTx p' !! h = Some e → mapTx Sample.chain !! h = Some e)
      ∧ (∀ h e, mapTx Sample.chain !! h = Some e →
                ¬ block_related Sample.chain [Sample.T5] h →
                mapTx p' !! h = Some e).
Proof.
  split; [reflexivity|].
  exact (removeForBlock_evicts_only_related Sample.chain [Sample.T5] 101 []
           true eq_refl).
Defined.

(** ** [removeCoinbaseSpends] *)

Section CoinbaseSpendsFacts.
Context {CCoins : Type}.
Variable AccessCoins : uint256 → option CCoins.
Variable IsCoinBase IsCoinStake : CCoins → bool.
Variable coins_nHeight : CCoins → Z.
Variable COINBASE_MATURITY : Z.
Variable fSanityCheck : bool.

Local Abbreviation scan_inputs :=
  (scan_inputs CCoins AccessCoins IsCoinBase IsCoinStake coins_nHeight
               COINBASE_MATURITY fSanityCheck).
Local Abbreviation scan_pool :=
  (scan_pool CCoins AccessCoins IsCoinBase IsCoinStake coins_nHeight
             COINBASE_MATURITY fSanityCheck).
Local Abbreviation unripe :=
  (unripe CCoins AccessCoins IsCoinBase IsCoinStake coins_nHeight
          COINBASE_MATURITY).
Local Abbreviation missing := (missing CCoins AccessCoins).

(** A transaction goes onto the list exactly when one of its inputs is
    unripe; the assertion fails only on an input whose coins are missing. *)
Lemma scan_inputs_spec p nMemPoolHeight ins :
  match scan_inputs p nMemPoolHeight ins with
  | Passed found => found = true ↔ Exists (unripe p nMemPoolHeight) ins
  | AssertionFailed => fSanityCheck = true ∧ Exists (missing p) ins
  end.
Proof.
  induction ins as [|txin rest IH]; simpl.
  { split; [done|]. by intros ?%Exists_nil. }
  unfold exists_. case_bool_decide as Hres.
  - destruct (scan_inputs p nMemPoolHeight rest) as [found|].
    + rewrite IH, Exists_cons. split; [by right|].
      intros [[Hnone _]|?]; [|done]. rewrite Hnone in Hres. by destruct Hres.
    + destruct IH as [? ?]. split; [done|]. by apply Exists_cons_tl.
  - assert (mapTx p !! op_hash (prevout txin) = None) as Hnone.
    { destruct (mapTx p !! op_hash (prevout txin)); [|done].
      destruct Hres. by eexists. }
    destruct (AccessCoins (op_hash (prevout txin))) as [c|] eqn:Hc.
    + rewrite bool_decide_eq_true_2 by by eexists.
      rewrite andb_false_r.
      destruct ((IsCoinBase c || IsCoinStake c)
                && (int32 (wrap32 (nMemPoolHeight - coins_nHeight c))
                    <? COINBASE_MATURITY)) eqn:Hyoung.
      * split; [|done]. intros _. apply Exists_cons_hd. split; [done|].
        rewrite Hc. apply andb_true_iff in Hyoung as [? ?%Z.ltb_lt]. done.
      * assert (¬ unripe p nMemPoolHeight txin) as Hripe.
        { intros [_ Hu]. rewrite Hc in Hu. destruct Hu as [Hu1 Hu2%Z.ltb_lt].
          by rewrite Hu1, Hu2 in Hyoung. }
        destruct (scan_inputs p nMemPoolHeight rest) as [found|].
        -- rewrite IH, Exists_cons. split; [by right | by intros [?|?]].
        -- destruct IH as [? ?]. split; [done|]. by apply Exists_cons_tl.
    + rewrite bool_decide_eq_false_2 by (by intros [? ?]).
      rewrite andb_true_r. destruct fSanityCheck.
      * split; [done|]. by apply Exists_cons_hd.
      * split; [|done]. intros _. apply Exists_cons_hd. split; [done|].
        by rewrite Hc.
Qed.

Lemma scan_pool_spec p nMemPoolHeight it :
  match scan_pool p nMemPoolHeight it with
  | Passed transactionsToRemove =>
      ∀ t, t ∈ transactionsToRemove
           ↔ ∃ x, x ∈ it ∧ GetTx x.2 = t
                  ∧ Exists (unripe p nMemPoolHeight) (vin (GetTx x.2))
  | AssertionFailed =>
      fSanityCheck = true
      ∧ ∃ x, x ∈ it ∧ Exists (missing p) (vin (GetTx x.2))
  end.
Proof.
  induction it as [|x rest IH]; simpl.
  { intros t. split; [by intros ?%elem_of_nil|].
    by intros (x & ?%elem_of_nil & _). }
  pose proof (scan_inputs_spec p nMemPoolHeight (vin (GetTx x.2))) as Hx.
  destruct (scan_inputs p nMemPoolHeight (vin (GetTx x.2))) as [found|].
  - destruct (scan_pool p nMemPoolHeight rest) as [txs|].
    + intros t. destruct found.
      * rewrite elem_of_cons, IH. split.
        -- intros [->|(y & Hy & Ht & Hu)].
           ++ exists x. split_and!; [left | done | by apply Hx].
           ++ exists y. split_and!; [by right | done..].
        -- intros (y & [->|Hy]%elem_of_cons & Ht & Hu); [by left|].
           right. by exists y.
      * rewrite IH. split.
        -- intros (y & Hy & Ht & Hu). exists y. split_and!; [by right | done..].
        -- intros (y & [->|Hy]%elem_of_cons & Ht & Hu); [|by exists y].
           apply Hx in Hu. done.
    + destruct IH as [? (y & Hy & Hm)]. split; [done|].
      exists y. split; [by right | done].
  - destruct Hx as [? Hm]. split; [done|]. exists x. split; [left | done].
Qed.
End CoinbaseSpendsFacts.

Lemma children_gone_refl p : children_gone p p.
Proof. intros y ey c e Hy Hgone. congruence. Qed.

(** The loop over [transactionsToRemove] takes the cascades of these
    transactions, and nothing else. *)
Lemma remove_each_exact p0 txs p :
  index_ok p → hash_ok p → within p p0 → children_gone p0 p →
  (∀ t, t ∈ txs → ∃ ex, mapTx p0 !! GetHash t = Some ex ∧ GetTx ex = t) →
  ∃ p' l,
    remove_each txs p = Done p' ∧ erases p l p'
    ∧ children_gone p0 p'
    ∧ (∀ t, t ∈ txs → mapTx p' !! GetHash t = None)
    ∧ (∀ h, is_Some (mapTx p !! h) → mapTx p' !! h = None →
            ∃ t, t ∈ txs ∧ cascade p0 t h).
Proof.
  revert p. induction txs as [|t rest IH];
    intros p Hok Hhash Hin0 Hclosed Hres; simpl.
  { exists p, []. split_and!; [done | constructor | done | |].
    - by intros t ?%elem_of_nil.
    - intros h Hh Hgone. rewrite Hgone in Hh. by destruct Hh. }
  destruct (remove_recursive_facts p t [] Hok Hhash)
    as (p1 & l1 & Hrm & Her1 & Hall & _ & Hgone).
  rewrite Hrm. simpl.
  pose proof (erases_within _ _ _ _ Her1 Hin0) as Hin1.
  assert (children_gone p0 p1) as Hclosed1.
  { intros y ey c e Hy Hy1 Hc Hsp.
    destruct (mapTx p !! c) as [e'|] eqn:Hcp;
      [|by eapply erases_mapTx_None].
    assert (e' = e) as -> by (apply (proj1 Hin0) in Hcp; congruence).
    destruct (mapTx p !! y) as [ey'|] eqn:Hyp.
    - assert (ey' = ey) as -> by (apply (proj1 Hin0) in Hyp; congruence).
      apply Hall. apply (cascade_child p t y ey c e); [|done..].
      apply Hgone; [done | by eexists].
    - rewrite (Hclosed y ey c e Hy Hyp Hc Hsp) in Hcp. done. }
  destruct (IH p1) as (p' & l2 & Hrun & Her2 & Hclosed' & Hall' & Honly);
    [by eapply erases_index_ok | by eapply erases_hash_ok | done | done
    | intros t' Ht'; apply Hres; by right |].
  exists p', (l1 ++ l2). split_and!; [done | by eapply erases_app | done | |].
  - intros t' [->|Hin]%elem_of_cons; [|by apply Hall'].
    eapply erases_mapTx_None; [done|]. apply Hall. constructor.
  - intros h Hh Hgone'.
    destruct (mapTx p1 !! h) as [e1|] eqn:Hh1.
    + destruct (Honly h) as (t' & Ht' & Hc); [by eexists | done |].
      exists t'. split; [by right | done].
    + exists t. split; [left|].
      destruct (Hres t) as (ex & Hex & Htx); [left|].
      apply (cascade_within p p0 t ex); [done..|]. by apply Hgone.
Qed.

(** X15: on a pool that passes the assertions of [check] on the spend
    index, [removeCoinbaseSpends] either fails its assertion, which it
    does only with [fSanityCheck] set and a resident transaction of which
    an input spends coins that neither the pool nor the view has, or
    returns; then it has evicted exactly the resident transactions that
    had an input spending coins not of the pool that the view does not
    have or that are a block or stake reward less than
    [COINBASE_MATURITY] blocks deep at [nMemPoolHeight], and the resident
    transactions that spent, directly or through others, an output of
    such a one; every entry left is as it was; and the pool passes the
    assertions again, that on [totalTxSize] if it held before. *)
Theorem removeCoinbaseSpends_evicts_unripe {CCoins : Type}
    (AccessCoins : uint256 → option CCoins)
    (IsCoinBase IsCoinStake : CCoins → bool) (coins_nHeight : CCoins → Z)
    (COINBASE_MATURITY : Z) (fSanityCheck : bool)
    (p : CTxMemPool) (nMemPoolHeight : Z) :
  let spends_unripe :=
    spends_unripe CCoins AccessCoins IsCoinBase IsCoinStake coins_nHeight
                  COINBASE_MATURITY p nMemPoolHeight in
  check_spend_index p = true →
  match removeCoinbaseSpends CCoins AccessCoins IsCoinBase IsCoinStake
          coins_nHeight COINBASE_MATURITY fSanityCheck p nMemPoolHeight with
  | AssertionFailed =>
      fSanityCheck = true
      ∧ ∃ h e, mapTx p !! h = Some e
               ∧ Exists (missing CCoins AccessCoins p) (vin (GetTx e))
  | Passed r =>
      ∃ p',
        r = Done p' ∧ check_spend_index p' = true
        ∧ (check_total p = true → check_total p' = true)
        ∧ (∀ h e, mapTx p' !! h = Some e → mapTx p !! h = Some e)
        ∧ (∀ h, is_Some (mapTx p !! h) →
                mapTx p' !! h = None ↔ spends_unripe h)
  end.
Proof.
  intros spends0 [Hok Hhash]%check_spend_index_spec. unfold spends0.
  clear spends0. unfold removeCoinbaseSpends, spends_unripe.
  pose proof (scan_pool_spec AccessCoins IsCoinBase IsCoinStake
                coins_nHeight COINBASE_MATURITY fSanityCheck p nMemPoolHeight
                (mapTx_items p)) as Hscan.
  destruct (scan_pool _ _ _ _ _ _ _ p nMemPoolHeight (mapTx_items p))
    as [txs|].
  - assert (∀ x ex, mapTx p !! x = Some ex →
                    Exists (unripe CCoins AccessCoins IsCoinBase IsCoinStake
                              coins_nHeight COINBASE_MATURITY p nMemPoolHeight)
                           (vin (GetTx ex)) →
                    GetHash (GetTx ex) = x) as Hkey.
    { intros x ex Hex (txin & Hin & _)%Exists_exists.
      destruct (entry_inputs_indexed p x ex txin Hok Hex Hin) as [i Hi].
      by apply (Hhash _ _ ex Hi). }
    destruct (remove_each_exact p txs p Hok Hhash (within_refl p)
                (children_gone_refl p))
      as (p' & l & -> & Her & Hclosed & Hall & Honly).
    { intros t ([x ex] & Hin & Htx & Hu)%Hscan. simpl in *.
      apply elem_of_in_key_order in Hin. exists ex. split; [|done].
      by rewrite <- Htx, (Hkey x ex Hin Hu). }
    exists p'. split_and!; [done | | | |].
    + apply check_spend_index_spec.
      split; [by eapply erases_index_ok | by eapply erases_hash_ok].
    + rewrite !check_total_spec. by eapply erases_size_ok.
    + intros h e. by eapply erases_mapTx_Some.
    + intros h Hres. split.
      * intros Hgone. destruct (Honly h Hres Hgone) as (t & Ht & Hc).
        apply Hscan in Ht as ([x ex] & Hin & Htx & Hu). simpl in *.
        apply elem_of_in_key_order in Hin. exists x, ex.
        by rewrite <- Htx in Hc.
      * intros (x & ex & Hex & Hu & Hc).
        pose proof (Hkey x ex Hex Hu) as Hx.
        assert (GetTx ex ∈ txs) as Hin.
        { apply Hscan. exists (x, ex). split_and!; [|done..].
          by apply elem_of_in_key_order. }
        clear Hres.
        induction Hc as [|c e Habsent _ _|y ey c e _ IH Hy He Hsp].
        -- by apply Hall.
        -- rewrite Hx, Hex in Habsent. done.
        -- by apply (Hclosed y ey c e).
  - destruct Hscan as [? ([h e] & Hin & Hm)]. split; [done|].
    exists h, e. split; [|done]. by apply elem_of_in_key_order in Hin.
Qed.

Lemma removeCoinbaseSpends_evicts_unripe_witness :
  let spends_unripe :=
    spends_unripe (bool * Z) Sample.confirmed fst (λ _, false) snd 100
                  Sample.chain 101 in
  check_spend_index Sample.chain = true
  ∧ match removeCoinbaseSpends (bool * Z) Sample.confirmed fst (λ _, false)
            snd 100 false Sample.chain 101 with
    | AssertionFailed =>
        false = true
        ∧ ∃ h e, mapTx Sample.chain !! h = Some e
                 ∧ Exists (missing (bool * Z) Sample.confirmed Sample.chain)
                          (vin (GetTx e))
    | Passed r =>
        ∃ p',
          r = Done p' ∧ check_spend_index p' = true
          ∧ (check_total Sample.chain = true → check_total p' = true)
          ∧ (∀ h e, mapTx p' !! h = Some e → mapTx Sample.chain !! h = Some e)
          ∧ (∀ h, is_Some (mapTx Sample.chain !! h) →
                  mapTx p' !! h = None ↔ spends_unripe h)
    end.
Proof.
  split; [reflexivity|].
  exact (removeCoinbaseSpends_evicts_unripe Sample.confirmed fst (λ _, false)
           snd 100 false Sample.chain 101 eq_refl).
Defined.

(** With a maturity of 100 blocks: at height 101 the reward of height 95
    that [T1] spends is not mature, and [T1] goes with [T2] and [T3]; at
    height 195 it is, and nothing goes; and with the sanity checks on, an
    input whose coins are nowhere fails the assertion. *)
Example removeCoinbaseSpends_chain :
  let removeCoinbaseSpends :=
    removeCoinbaseSpends (bool * Z) Sample.confirmed fst (λ _, false) snd 100 in
  (∃ p', removeCoinbaseSpends false Sample.chain 101 = Passed (Done p')
         ∧ mapTx p' = {[ 4%N := Sample.entry_of Sample.T4 ]})
  ∧ removeCoinbaseSpends false Sample.chain 195 = Passed (Done Sample.chain)
  ∧ removeCoinbaseSpends true (Sample.accept Sample.chain Sample.T0) 195
    = AssertionFailed.
Proof.
  split_and!; [eexists; split; [vm_compute; reflexivity | reflexivity]
              | vm_compute; reflexivity..].
Qed.

(** ** [pruneSpent] and [queryHashes] *)

Lemma outputs_of_above hashTx keys :
  Forall (λ k, (hashTx < op_hash k)%N) keys → outputs_of hashTx keys = [].
Proof.
  unfold outputs_of. induction 1 as [|k keys Hk _ IH]; [done|].
  rewrite filter_cons_False by lia. done.
Qed.

Lemma pruneSpent_loop_sorted {CCoins} (Spend : CCoins → nat → CCoins)
    hashTx it coins :
  StronglySorted COutPoint_le it.*1 →
  Forall (λ k, (hashTx ≤ op_hash k)%N) it.*1 →
  pruneSpent_loop CCoins Spend hashTx it coins
  = foldl Spend coins (outputs_of hashTx it.*1).
Proof.
  revert coins. induction it as [|[k v] it IH]; intros coins Hs Hge; [done|].
  simpl in *. apply StronglySorted_inv in Hs as [Hs Hall].
  apply Forall_cons in Hge as [Hk Hge]. unfold outputs_of. case_decide as Hh.
  - rewrite filter_cons_True by done. simpl. by apply IH.
  - rewrite filter_cons_False by done.
    assert (outputs_of hashTx it.*1 = []) as Hnil.
    { apply outputs_of_above. apply (Forall_impl _ _ _ Hall).
      intros k' [?|[? _]]; lia. }
    exact (f_equal (foldl Spend coins) (eq_sym Hnil)).
Qed.

Lemma lower_bound_sorted hashTx it :
  StronglySorted COutPoint_le it.*1 →
  StronglySorted COutPoint_le (lower_bound (mkOutPoint hashTx 0) it).*1
  ∧ Forall (λ k, (hashTx ≤ op_hash k)%N) (lower_bound (mkOutPoint hashTx 0) it).*1
  ∧ outputs_of hashTx (lower_bound (mkOutPoint hashTx 0) it).*1
    = outputs_of hashTx it.*1.
Proof.
  induction it as [|[k v] it IH]; intros Hs; simpl.
  { split_and!; [done | constructor | done]. }
  simpl in Hs. pose proof Hs as Hs0.
  apply StronglySorted_inv in Hs as [Hs Hall]. case_decide as Hle.
  - simpl. split_and!; [done | | done].
    assert (hashTx ≤ op_hash k)%N as Hk
      by (destruct Hle as [?|[? _]]; simpl in *; lia).
    constructor; [done|]. apply (Forall_impl _ _ _ Hall).
    intros k' [?|[? _]]; lia.
  - destruct (IH Hs) as (? & ? & Heq). split_and!; [done..|].
    rewrite Heq. unfold outputs_of. rewrite filter_cons_False; [done|].
    intros Hh. apply Hle. right. simpl. split; [done | lia].
Qed.

Lemma outputs_of_ascending hashTx keys :
  StronglySorted COutPoint_le keys → NoDup keys →
  StronglySorted lt (outputs_of hashTx keys).
Proof.
  intros Hs Hnd.
  pose proof (sorted_NoDup_strict _ (λ a b, COutPoint_le a b ∧ a ≠ b) _
                (λ a b Hle Hne, conj Hle Hne) Hs Hnd) as Hstrict.
  clear Hs Hnd. unfold outputs_of.
  induction Hstrict as [|k keys _ IH Hall]; [constructor|].
  destruct (decide (op_hash k = hashTx)) as [Hk|Hk].
  - rewrite filter_cons_True by done. simpl. constructor; [done|].
    apply Forall_fmap, Forall_forall.
    intros k' [Hk' Hin]%list_elem_of_filter.
    eapply Forall_forall in Hall; [|exact Hin].
    destruct Hall as [[?|[_ ?]] Hne]; simpl.
    + lia.
    + destruct (decide (op_n k = op_n k')) as [Hn|]; [|lia].
      destruct Hne. destruct k, k'. simpl in *. congruence.
  - by rewrite filter_cons_False.
Qed.

(** X16: [pruneSpent(hashTx, coins)] calls [Spend(n)] on [coins] for
    exactly the indices [n] of the outpoints of [hashTx] that are keys of
    [mapNextTx], once each, in rising order, and for nothing else; in a
    pool that passes the assertions of [check] on the spend index these
    are the outputs of [hashTx] that an input of a resident transaction
    spends. *)
Theorem pruneSpent_spends_claimed_outputs {CCoins : Type}
    (Spend : CCoins → nat → CCoins) (p : CTxMemPool) (hashTx : uint256)
    (coins : CCoins) :
  ∃ ns,
    pruneSpent CCoins Spend p hashTx coins = foldl Spend coins ns
    ∧ StronglySorted lt ns
    ∧ (∀ n, n ∈ ns ↔ is_Some (mapNextTx p !! mkOutPoint hashTx n))
    ∧ (check_spend_index p = true →
       ∀ n, n ∈ ns ↔ ∃ h e txin,
                       mapTx p !! h = Some e ∧ txin ∈ vin (GetTx e)
                       ∧ prevout txin = mkOutPoint hashTx n).
Proof.
  pose proof (in_key_order_sorted COutPoint_le (mapNextTx p)) as Hs.
  fold (mapNextTx_items p) in Hs.
  destruct (lower_bound_sorted hashTx (mapNextTx_items p) Hs)
    as (Hs' & Hge & Heq).
  exists (outputs_of hashTx (mapNextTx_items p).*1).
  assert (∀ n, n ∈ outputs_of hashTx (mapNextTx_items p).*1
               ↔ is_Some (mapNextTx p !! mkOutPoint hashTx n)) as Hmem.
  { intros n. unfold outputs_of. rewrite list_elem_of_fmap.
    setoid_rewrite list_elem_of_filter.
    unfold mapNextTx_items. setoid_rewrite elem_of_keys_in_key_order. split.
    - intros ([h i] & -> & Hh & Hsome). simpl in *. by subst.
    - intros Hsome. by exists (mkOutPoint hashTx n). }
  split_and!.
  - unfold pruneSpent. rewrite pruneSpent_loop_sorted by done. by rewrite Heq.
  - apply outputs_of_ascending; [done|].
    apply (NoDup_in_key_order COutPoint_le (mapNextTx p)).
  - done.
  - intros [Hok _]%check_spend_index_spec n. rewrite Hmem. split.
    + intros [ip Hip].
      destruct (index_owned p Hok _ _ Hip) as (e & txin & He & Hn & Hprev).
      exists (ptx ip), e, txin.
      split_and!; [done | by eapply list_elem_of_lookup_2 | done].
    + intros (h & e & txin & He & Hin & Hprev).
      destruct (entry_inputs_indexed p h e txin Hok He Hin) as [i Hi].
      rewrite Hprev in Hi. by eexists.
Qed.

(** Of the transaction 11 the pool spends the outputs 0 and 1, of the
    transaction 10 the output 0, of the transaction 4 none. *)
Example pruneSpent_chain :
  pruneSpent _ Sample.spend_output Sample.chain 11 [] = [0; 1]%nat
  ∧ pruneSpent _ Sample.spend_output Sample.chain 10 [7%nat] = [7; 0]%nat
  ∧ pruneSpent _ Sample.spend_output Sample.chain 4 [] = [].
Proof. by vm_compute. Qed.

(** X17: [queryHashes] leaves in [vtxid], whatever it held, the hashes of
    the resident transactions and nothing else, each once, in rising
    order: as many as [mapTx] has entries, and those for which [lookup]
    finds a transaction. *)
Theorem queryHashes_lists_residents (p : CTxMemPool) (vtxid : list uint256) :
  StronglySorted N.lt (queryHashes p vtxid)
  ∧ length (queryHashes p vtxid) = size (mapTx p)
  ∧ ∀ h, h ∈ queryHashes p vtxid ↔ is_Some (lookup p h).
Proof.
  unfold queryHashes, mapTx_items. split_and!.
  - apply (sorted_NoDup_strict N.le); [lia | |].
    + apply (in_key_order_sorted N.le).
    + apply NoDup_in_key_order.
  - by rewrite length_fmap, length_in_key_order.
  - intros h. rewrite elem_of_keys_in_key_order. unfold lookup.
    destruct (mapTx p !! h); split; intros [? ?]; by eauto.
Qed.

Example queryHashes_chain :
  queryHashes Sample.chain [99%N] = [1; 2; 3; 4]%N.
Proof. by vm_compute. Qed.

(** ** Deltas over sequences of calls *)

Lemma ApplyDeltas_fee p hash dPriorityDelta nFeeDelta :
  (ApplyDeltas p hash dPriorityDelta nFeeDelta).2
  = nFeeDelta + (ApplyDeltas p hash 0%float 0).2.
Proof.
  unfold ApplyDeltas. destruct (mapDeltas p !! hash); simpl; lia.
Qed.

(** X18: after any sequence of calls of [PrioritiseTransaction] and
    [ClearPrioritisation], [ApplyDeltas] adds to the fee of [hash] the sum
    of the fee deltas given for [hash] since the last
    [ClearPrioritisation] of [hash], on top of what it added before the
    sequence if [hash] was not cleared in it; calls for other hashes
    change nothing for [hash], and the transactions, the spend index and
    the counters of the pool are as before. *)
Theorem fee_deltas_follow_calls (p : CTxMemPool) (ops : list delta_op)
    (hash : uint256) (dPriorityDelta : float) (nFeeDelta : CAmount) :
  let p' := foldl run_delta_op p ops in
  (ApplyDeltas p' hash dPriorityDelta nFeeDelta).2
  = nFeeDelta + fee_delta_after hash ops (ApplyDeltas p hash 0%float 0).2
  ∧ mapTx p' = mapTx p ∧ mapNextTx p' = mapNextTx p
  ∧ totalTxSize p' = totalTxSize p
  ∧ nTransactionsUpdated p' = nTransactionsUpdated p.
Proof.
  revert p. induction ops as [|o ops IH]; intros p; simpl.
  { split_and!; [apply ApplyDeltas_fee | done..]. }
  destruct (IH (run_delta_op p o)) as (-> & -> & -> & -> & ->).
  split_and!; [|by destruct o..].
  do 2 f_equal. unfold ApplyDeltas.
  destruct o as [h d f | h]; simpl; case_decide as Hh; subst.
  - rewrite lookup_insert_eq. simpl. destruct (mapDeltas p !! hash); simpl; lia.
  - by rewrite lookup_insert_ne.
  - by rewrite lookup_delete_eq.
  - by rewrite lookup_delete_ne.
Qed.

(** A delta of 50, one of 20 for another hash, a clearing, a delta of 7 and
    one of 5: the fee gains 12. *)
Example fee_deltas_after_clearing :
  let ops := [OpPrioritise 1 1000 50; OpPrioritise 2 0 20;
              OpClearPrioritisation 1; OpPrioritise 1 0 7;
              OpPrioritise 1 0 5] in
  (ApplyDeltas (foldl run_delta_op Sample.chain ops) 1 0 100).2 = 112
  ∧ (ApplyDeltas (foldl run_delta_op Sample.chain ops) 2 0 100).2 = 120
  ∧ (ApplyDeltas (foldl run_delta_op Sample.chain ops) 3 0 100).2 = 100.
Proof. by vm_compute. Qed.

(** ** The fee floor between two recomputations *)

(** X19: once a call of [GetMinFee] has recomputed the floor (it changed
    the pool), any call no later than ten seconds after it changes
    nothing more, and returns the same fee rate; unless the floor was
    recomputed to zero, in which case it returns the zero fee rate. *)
Theorem GetMinFee_settles_for_ten_seconds (ROLLING_FEE_HALFLIFE : Z)
    (pow : float → float → float) (DynamicMemoryUsage : CTxMemPool → Z)
    (p : CTxMemPool) (time sizelimit time' sizelimit' : Z) :
  let GetMinFee := GetMinFee ROLLING_FEE_HALFLIFE pow DynamicMemoryUsage in
  let r := GetMinFee p time sizelimit in
  let r' := GetMinFee r.2 time' sizelimit' in
  r.2 ≠ p → time' ≤ time + 10 →
  r'.2 = r.2
  ∧ (if (rollingMinimumFeeRate r.2 =? 0)%float then r'.1 = mkFeeRate 0
     else r'.1 = r.1).
Proof.
  intros GetMinFee0 r r' Hchanged Hsoon. unfold r', r, GetMinFee0 in *.
  clear r r' GetMinFee0. unfold GetMinFee in *.
  destruct (rollingMinimumFeeRate p =? 0)%float; [done|].
  destruct (lastRollingFeeUpdate p + 10 <? time); [|done].
  set (d := decayed_rate ROLLING_FEE_HALFLIFE pow DynamicMemoryUsage p time
              sizelimit) in *.
  destruct (d <? Z2double (GetFeePerK (minRelayFee p) ÷ 2))%float; simpl.
  - done.
  - destruct (d =? 0)%float eqn:Hd; simpl.
    + split; [done|]. by rewrite (double2amount_zero d Hd).
    + by rewrite (proj2 (Z.ltb_ge _ _) Hsoon).
Qed.

Lemma GetMinFee_settles_for_ten_seconds_witness :
  let GetMinFee := GetMinFee Sample.halflife Sample.pow_whole (λ _, 1000) in
  let r := GetMinFee Sample.raised 44200 1000 in
  let r' := GetMinFee r.2 44205 1000 in
  (r.2 ≠ Sample.raised ∧ 44205 ≤ 44200 + 10)
  ∧ r'.2 = r.2
  ∧ (if (rollingMinimumFeeRate r.2 =? 0)%float then r'.1 = mkFeeRate 0
     else r'.1 = r.1).
Proof.
  intros GetMinFee0 r r'.
  assert (r.2 ≠ Sample.raised) as Hchanged by (vm_compute; discriminate).
  assert (44205 ≤ 44200 + 10) as Hsoon by lia.
  split; [exact (conj Hchanged Hsoon) |].
  exact (GetMinFee_settles_for_ten_seconds Sample.halflife Sample.pow_whole
           (λ _, 1000) Sample.raised 44200 1000 44205 1000 Hchanged Hsoon).
Defined.

(** ** The two questions of the coins view *)

(** X20: over a backing view in which [HaveCoins] answers [true] for
    every hash for which [GetCoins] does, the view over the pool is such a
    view as well: whenever its [GetCoins] answers [true] for a hash, from
    the pool or from the backing view, its [HaveCoins] does. *)
Theorem view_GetCoins_implies_HaveCoins {CCoins : Type}
    (CCoins_FromTx : CTransaction → Z → CCoins) (IsPruned : CCoins → bool)
    (MEMPOOL_HEIGHT : Z) (base_GetCoins : N → CCoins → bool * CCoins)
    (base_HaveCoins : N → bool)
    (mempool : CTxMemPool) (txid : N) (coins : CCoins) :
  (∀ txid coins, (base_GetCoins txid coins).1 = true →
                 base_HaveCoins txid = true) →
  (GetCoins CCoins CCoins_FromTx IsPruned MEMPOOL_HEIGHT base_GetCoins
            mempool txid coins).1 = true →
  HaveCoins base_HaveCoins mempool txid = true.
Proof.
  intros Hbase. unfold GetCoins, HaveCoins, lookup, exists_.
  destruct (mapTx mempool !! txid) as [e|] eqn:He.
  - intros _. rewrite bool_decide_eq_true_2 by by eexists. done.
  - pose proof (Hbase txid coins) as Hb.
    destruct (base_GetCoins txid coins) as [found coins']. simpl in *.
    intros [-> _]%andb_true_iff. by rewrite Hb.
Qed.

Lemma view_GetCoins_implies_HaveCoins_witness :
  let have := λ txid : N, bool_decide (txid = 10%N ∨ txid = 11%N) in
  (∀ txid coins, (Sample.backing txid coins).1 = true → have txid = true)
  ∧ (GetCoins _ Sample.coins_of snd 2147483647 Sample.backing Sample.chain
              10 (None, 0, false)).1 = true
  ∧ HaveCoins have Sample.chain 10 = true.
Proof.
  intros have.
  assert (∀ txid coins, (Sample.backing txid coins).1 = true → have txid = true)
    as Hbase.
  { intros txid coins. unfold Sample.backing, have.
    destruct (N.eqb_spec txid 10) as [->|?]; [done|].
    destruct (N.eqb_spec txid 11) as [->|?]; [done|]. done. }
  split; [exact Hbase|]. split; [reflexivity|].
  exact (view_GetCoins_implies_HaveCoins Sample.coins_of snd 2147483647
           Sample.backing have Sample.chain 10 (None, 0, false) Hbase eq_refl).
Defined.

(** ** The samples of a bucket *)

Lemma keep_last_app {T} cap (l xs : list T) :
  keep_last cap (keep_last cap l ++ xs) = keep_last cap (l ++ xs).
Proof.
  unfold keep_last. rewrite !length_app, length_drop.
  destruct (decide (length l ≤ cap)%nat) as [Hle|Hgt].
  - replace (length l - cap)%nat with 0%nat by lia.
    by rewrite drop_0, Nat.sub_0_r.
  - replace (length l - (length l - cap) + length xs - cap)%nat
      with (length xs) by lia.
    replace (length l + length xs - cap)%nat
      with ((length l - cap) + length xs)%nat by lia.
    rewrite <- drop_drop. f_equal. rewrite drop_app_le by lia. done.
Qed.

Lemma cb_items_push_all {cap T} (b : circular_buffer cap T) xs :
  cb_items (foldl cb_push_back b xs) = keep_last cap (cb_items b ++ xs).
Proof.
  revert b. induction xs as [|x xs IH]; intros b; simpl.
  - rewrite app_nil_r. symmetry. apply keep_last_fits, cb_bound.
  - rewrite IH. simpl. rewrite keep_last_app. by rewrite <- app_assoc.
Qed.

Lemma feeSamples_RecordFee_all b fees :
  CBlockAverage.feeSamples (foldl CBlockAverage.RecordFee b fees)
  = foldl cb_push_back (CBlockAverage.feeSamples b) fees
  ∧ CBlockAverage.prioritySamples (foldl CBlockAverage.RecordFee b fees)
    = CBlockAverage.prioritySamples b.
Proof.
  revert b. induction fees as [|x xs IH]; intros b; simpl; [done|].
  destruct (IH (CBlockAverage.RecordFee b x)) as [-> ->]. done.
Qed.

Lemma prioritySamples_RecordPriority_all b priorities :
  CBlockAverage.prioritySamples (foldl CBlockAverage.RecordPriority b priorities)
  = foldl cb_push_back (CBlockAverage.prioritySamples b) priorities
  ∧ CBlockAverage.feeSamples (foldl CBlockAverage.RecordPriority b priorities)
    = CBlockAverage.feeSamples b.
Proof.
  revert b. induction priorities as [|x xs IH]; intros b; simpl; [done|].
  destruct (IH (CBlockAverage.RecordPriority b x)) as [-> ->]. done.
Qed.

(** X21: after any number of fee rates and of priorities have been
    recorded into a bucket, the bucket holds, of the samples it held and
    those recorded, the 100 newest of each kind, in the order recorded
    (all of them if there are no more than 100): [GetFeeSamples] and
    [GetPrioritySamples] append just these to [insertInto], and return
    their number, as [FeeSamples] and [PrioritySamples] do. *)
Theorem Record_keeps_newest_samples (b : CBlockAverage.t)
    (fees : list CFeeRate) (priorities : list float)
    (intoFees : list CFeeRate) (intoPriorities : list float) :
  let b' := foldl CBlockAverage.RecordPriority
              (foldl CBlockAverage.RecordFee b fees) priorities in
  let allFees := cb_items (CBlockAverage.feeSamples b) ++ fees in
  let allPriorities :=
    cb_items (CBlockAverage.prioritySamples b) ++ priorities in
  CBlockAverage.GetFeeSamples b' intoFees
  = (Nat.min 100 (length allFees),
     intoFees ++ drop (length allFees - 100) allFees)
  ∧ CBlockAverage.GetPrioritySamples b' intoPriorities
    = (Nat.min 100 (length allPriorities),
       intoPriorities ++ drop (length allPriorities - 100) allPriorities)
  ∧ CBlockAverage.FeeSamples b' = Nat.min 100 (length allFees)
  ∧ CBlockAverage.PrioritySamples b' = Nat.min 100 (length allPriorities).
Proof.
  intros b' allFees allPriorities.
  unfold CBlockAverage.GetFeeSamples, CBlockAverage.GetPrioritySamples,
    CBlockAverage.FeeSamples, CBlockAverage.PrioritySamples, b'.
  destruct (prioritySamples_RecordPriority_all
              (foldl CBlockAverage.RecordFee b fees) priorities) as [-> ->].
  destruct (feeSamples_RecordFee_all b fees) as [-> ->].
  rewrite !cb_items_push_all. unfold keep_last. rewrite !length_drop.
  fold allFees allPriorities.
  replace (length allFees - (length allFees - 100))%nat
    with (Nat.min 100 (length allFees)) by lia.
  replace (length allPriorities - (length allPriorities - 100))%nat
    with (Nat.min 100 (length allPriorities)) by lia.
  done.
Qed.

Lemma forallb_keep_last {T} (f : T → bool) cap (l : list T) :
  forallb f l = true → forallb f (keep_last cap l) = true.
Proof.
  unfold keep_last. intros Hall.
  rewrite <- (take_drop (length l - cap) l), forallb_app in Hall.
  by apply andb_true_iff in Hall as [_ ?].
Qed.

Section Reading.
Context {byte : Type}.
Context `{Serializer byte (list CFeeRate)} `{Serializer byte (list float)}.

Lemma AreSane_fees_insert_end (b : circular_buffer 100 CFeeRate) vecFee fee :
  CBlockAverage.AreSane_fees (cb_items b) fee = true →
  CBlockAverage.AreSane_fees vecFee fee = true →
  CBlockAverage.AreSane_fees (cb_items (cb_insert_end b vecFee)) fee = true.
Proof.
  unfold CBlockAverage.AreSane_fees. intros Hb Hv. simpl.
  apply forallb_keep_last. by rewrite forallb_app, Hb, Hv.
Qed.

Lemma AreSane_priorities_insert_end (b : circular_buffer 100 float) vec :
  CBlockAverage.AreSane_priorities (cb_items b) = true →
  CBlockAverage.AreSane_priorities vec = true →
  CBlockAverage.AreSane_priorities (cb_items (cb_insert_end b vec)) = true.
Proof.
  unfold CBlockAverage.AreSane_priorities. intros Hb Hv. simpl.
  apply forallb_keep_last. by rewrite forallb_app, Hb, Hv.
Qed.

(** X22: [Read] lets no sample into a bucket that is not sane: if the fee
    rates and the priorities of the bucket are all sane, so are those of
    the bucket as [Read] leaves it, whatever the file holds and whether
    or not [Read] throws. *)
Theorem Read_keeps_samples_sane (b : CBlockAverage.t) (filein : list byte)
    (minRelayFee : CFeeRate) :
  CBlockAverage.AreSane_fees (cb_items (CBlockAverage.feeSamples b))
                             minRelayFee = true →
  CBlockAverage.AreSane_priorities
    (cb_items (CBlockAverage.prioritySamples b)) = true →
  let b' := (CBlockAverage.Read b filein minRelayFee).1.2 in
  CBlockAverage.AreSane_fees (cb_items (CBlockAverage.feeSamples b'))
                             minRelayFee = true
  ∧ CBlockAverage.AreSane_priorities
      (cb_items (CBlockAverage.prioritySamples b')) = true.
Proof.
  intros Hfees Hpriorities. unfold CBlockAverage.Read.
  destruct (unserialize filein) as [[vecFee filein1]|]; simpl; [|done].
  destruct (CBlockAverage.AreSane_fees vecFee minRelayFee) eqn:Hv; simpl;
    [|done].
  pose proof (AreSane_fees_insert_end _ _ _ Hfees Hv) as Hfees'.
  destruct (unserialize filein1) as [[vecPriority filein2]|]; simpl; [|done].
  destruct (CBlockAverage.AreSane_priorities vecPriority) eqn:Hp; simpl;
    [|done].
  split; [done|]. by apply AreSane_priorities_insert_end.
Qed.

(** X23: [Read] inserts the fee rates before it reads the priorities: on
    a file whose fee rates are read and sane and whose priorities cannot
    be read or are not all sane, it throws, and leaves the bucket with
    the fee rates of the file inserted and its priorities as they were. *)
Theorem Read_throws_after_inserting_fees (b : CBlockAverage.t)
    (filein filein1 : list byte) (minRelayFee : CFeeRate)
    (vecFee : list CFeeRate) :
  unserialize filein = Some (vecFee, filein1) →
  CBlockAverage.AreSane_fees vecFee minRelayFee = true →
  (∀ vecPriority filein2,
      unserialize filein1 = Some (vecPriority, filein2) →
      CBlockAverage.AreSane_priorities vecPriority = false) →
  ∃ exn rest,
    CBlockAverage.Read b filein minRelayFee
    = (Some exn,
       CBlockAverage.mk (cb_insert_end (CBlockAverage.feeSamples b) vecFee)
                        (CBlockAverage.prioritySamples b),
       rest).
Proof.
  intros Hread Hsane Hbad. unfold CBlockAverage.Read.
  rewrite Hread, Hsane. simpl.
  destruct (unserialize filein1) as [[vecPriority filein2]|] eqn:Hread1;
    [|by eauto].
  rewrite (Hbad vecPriority filein2 eq_refl). by eauto.
Qed.

(** X24: provided the stream gives back what was written to it, [Read]
    of what [Write] wrote for a bucket of sane samples, into a bucket
    that already holds samples, does not throw and appends: the bucket
    read holds, of its own samples followed by those written, the 100
    newest of each kind. *)
Theorem Read_appends_to_bucket (b0 b : CBlockAverage.t)
    (minRelayFee : CFeeRate) (rest : list byte) :
  SerializerLaw byte (list CFeeRate) → SerializerLaw byte (list float) →
  CBlockAverage.AreSane_fees (cb_items (CBlockAverage.feeSamples b))
                             minRelayFee = true →
  CBlockAverage.AreSane_priorities
    (cb_items (CBlockAverage.prioritySamples b)) = true →
  let allFees := cb_items (CBlockAverage.feeSamples b0)
                 ++ cb_items (CBlockAverage.feeSamples b) in
  let allPriorities := cb_items (CBlockAverage.prioritySamples b0)
                       ++ cb_items (CBlockAverage.prioritySamples b) in
  ∃ b',
    CBlockAverage.Read b0 (CBlockAverage.Write b [] ++ rest) minRelayFee
    = (None, b', rest)
    ∧ cb_items (CBlockAverage.feeSamples b')
      = drop (length allFees - 100) allFees
    ∧ cb_items (CBlockAverage.prioritySamples b')
      = drop (length allPriorities - 100) allPriorities.
Proof.
  intros Hfees Hdoubles Hsane_fees Hsane_priorities allFees allPriorities.
  unfold CBlockAverage.Read, CBlockAverage.Write.
  rewrite app_nil_l, <- app_assoc, Hfees, Hsane_fees, Hdoubles.
  simpl. rewrite Hsane_priorities.
  eexists. split; [reflexivity|]. done.
Qed.

(** X25: [RecordFee] and [RecordPriority] check nothing, [Read] does:
    provided the stream gives back what was written to it, what [Write]
    wrote for a bucket that holds a fee rate or a priority that is not
    sane is refused by [Read], which throws a [runtime_error] and leaves
    the priorities of the bucket it reads into as they were. *)
Theorem Write_Read_refuses_insane (b0 b : CBlockAverage.t)
    (minRelayFee : CFeeRate) (rest : list byte) :
  SerializerLaw byte (list CFeeRate) → SerializerLaw byte (list float) →
  CBlockAverage.AreSane_fees (cb_items (CBlockAverage.feeSamples b))
                             minRelayFee = false
  ∨ CBlockAverage.AreSane_priorities
      (cb_items (CBlockAverage.prioritySamples b)) = false →
  ∃ what b' rest',
    CBlockAverage.Read b0 (CBlockAverage.Write b [] ++ rest) minRelayFee
    = (Some (runtime_error what), b', rest')
    ∧ CBlockAverage.prioritySamples b' = CBlockAverage.prioritySamples b0.
Proof.
  intros Hfees Hdoubles Hbad.
  unfold CBlockAverage.Read, CBlockAverage.Write.
  rewrite app_nil_l, <- app_assoc, Hfees.
  destruct (CBlockAverage.AreSane_fees _ minRelayFee) eqn:Hv; [|by eauto].
  rewrite Hdoubles. simpl. destruct Hbad as [?|Hp]; [done|].
  rewrite Hp. by eauto.
Qed.
End Reading.

Lemma Read_keeps_samples_sane_witness :
  let file := [DFees [mkFeeRate 1200]; DDoubles [nan]] in
  let b' := (CBlockAverage.Read Sample.bucket file Sample.fee).1.2 in
  (CBlockAverage.AreSane_fees
     (cb_items (CBlockAverage.feeSamples Sample.bucket)) Sample.fee = true
   ∧ CBlockAverage.AreSane_priorities
       (cb_items (CBlockAverage.prioritySamples Sample.bucket)) = true)
  ∧ CBlockAverage.AreSane_fees (cb_items (CBlockAverage.feeSamples b'))
                               Sample.fee = true
  ∧ CBlockAverage.AreSane_priorities
      (cb_items (CBlockAverage.prioritySamples b')) = true.
Proof.
  split; [exact (conj eq_refl eq_refl) |].
  exact (Read_keeps_samples_sane Sample.bucket
           [DFees [mkFeeRate 1200]; DDoubles [nan]] Sample.fee
           eq_refl eq_refl).
Defined.

Lemma Read_throws_after_inserting_fees_witness :
  let file := [DFees [mkFeeRate 1200]; DDoubles [nan]] in
  (unserialize file = Some ([mkFeeRate 1200], [DDoubles [nan]])
   ∧ CBlockAverage.AreSane_fees [mkFeeRate 1200] Sample.fee = true
   ∧ ∀ vecPriority filein2,
       unserialize [DDoubles [nan]] = Some (vecPriority, filein2) →
       CBlockAverage.AreSane_priorities vecPriority = false)
  ∧ ∃ exn rest,
      CBlockAverage.Read Sample.bucket file Sample.fee
      = (Some exn,
         CBlockAverage.mk
           (cb_insert_end (CBlockAverage.feeSamples Sample.bucket)
                          [mkFeeRate 1200])
           (CBlockAverage.prioritySamples Sample.bucket),
         rest).
Proof.
  assert (∀ vecPriority (filein2 : list datum),
            unserialize [DDoubles [nan]] = Some (vecPriority, filein2) →
            CBlockAverage.AreSane_priorities vecPriority = false) as Hbad.
  { intros vecPriority filein2 Hread. simpl in Hread.
    by injection Hread as <- <-. }
  split; [exact (conj eq_refl (conj eq_refl Hbad)) |].
  exact (Read_throws_after_inserting_fees Sample.bucket
           [DFees [mkFeeRate 1200]; DDoubles [nan]] [DDoubles [nan]]
           Sample.fee [mkFeeRate 1200] eq_refl eq_refl Hbad).
Defined.

Lemma Read_appends_to_bucket_witness :
  SerializerLaw datum (list CFeeRate) ∧ SerializerLaw datum (list float)
  ∧ CBlockAverage.AreSane_fees
      (cb_items (CBlockAverage.feeSamples Sample.bucket)) Sample.fee = true
  ∧ CBlockAverage.AreSane_priorities
      (cb_items (CBlockAverage.prioritySamples Sample.bucket)) = true
  ∧ ∃ b',
      CBlockAverage.Read Sample.bucket
        (CBlockAverage.Write Sample.bucket [] ++ [DInt 7]) Sample.fee
      = (None, b', [DInt 7])
      ∧ cb_items (CBlockAverage.feeSamples b')
        = [mkFeeRate 1500; mkFeeRate 2000; mkFeeRate 1500; mkFeeRate 2000]
      ∧ cb_items (CBlockAverage.prioritySamples b')
        = [57.5%float; 57.5%float].
Proof.
  assert (SerializerLaw datum (list CFeeRate)) as Hfees
    by (intros x rest; reflexivity).
  assert (SerializerLaw datum (list float)) as Hdoubles
    by (intros x rest; reflexivity).
  split_and!; [exact Hfees | exact Hdoubles | reflexivity | reflexivity |].
  exact (Read_appends_to_bucket Sample.bucket Sample.bucket Sample.fee
           [DInt 7] Hfees Hdoubles eq_refl eq_refl).
Defined.

Lemma Write_Read_refuses_insane_witness :
  SerializerLaw datum (list CFeeRate) ∧ SerializerLaw datum (list float)
  ∧ (CBlockAverage.AreSane_fees
       (cb_items (CBlockAverage.feeSamples Sample.spoiled)) Sample.fee = false
     ∨ CBlockAverage.AreSane_priorities
         (cb_items (CBlockAverage.prioritySamples Sample.spoiled)) = false)
  ∧ ∃ what b' rest',
      CBlockAverage.Read CBlockAverage.new
        (CBlockAverage.Write Sample.spoiled [] ++ [DInt 7]) Sample.fee
      = (Some (runtime_error what), b', rest')
      ∧ CBlockAverage.prioritySamples b'
        = CBlockAverage.prioritySamples CBlockAverage.new.
Proof.
  assert (SerializerLaw datum (list CFeeRate)) as Hfees
    by (intros x rest; reflexivity).
  assert (SerializerLaw datum (list float)) as Hdoubles
    by (intros x rest; reflexivity).
  split_and!; [exact Hfees | exact Hdoubles | right; reflexivity |].
  exact (Write_Read_refuses_insane CBlockAverage.new Sample.spoiled
           Sample.fee [DInt 7] Hfees Hdoubles (or_intror eq_refl)).
Defined.

(** ** The versions at the head of the estimates file *)

Section VersionGate.
Context {byte : Type}.
Context `{Serializer byte Z}.
Context {CBlockPolicyEstimator : Type}.
Variable estimator_Write :
  CBlockPolicyEstimator → list byte → option exception * list byte.
Variable estimator_Read :
  CBlockPolicyEstimator → list byte
  → option exception * CBlockPolicyEstimator * list byte.
Variable write : list byte → list byte → option exception * list byte.

End VersionGate.

